(** * ContextBench: the context-retrieval evaluation engine

    A shallow embedding of the metric core of ContextBench
    ([contextbench/metrics/compute.py], [contextbench/evaluate.py],
    [contextbench/parsers/trajectory.py],
    [contextbench/extractors/treesitter.py]) and the properties its
    specification states about it.

    Conventions of the embedding:
    - Python [int] is [Z]; Python [str] is [string] (code points below 256);
    - a Python [float] obtained by dividing two integers is the exact
      rational, in [Q], compared with [==];
    - a [dict] keyed by file names is a [gmap string _], a [set] is a [gset];
      a JSON object whose iteration order reaches a list is an association
      list;
    - code of the repository that is not part of the embedded files
      (the byte-interval algebra of [core.intervals], [core.fileio],
      the diff parser, tree-sitter itself, the file system) is a field of
      an explicit environment record. *)

From Stdlib Require Import ZArith QArith Qround Lia Bool Ascii String Sorting.Sorted.
From stdpp Require Import base gmap sets list strings sorting fin_maps list_numbers.

Open Scope Z_scope.

(* ===================================================================== *)
(** ** metrics/compute.py: coverage and precision                        *)
(* ===================================================================== *)

Module Metrics.

(** [x > 0] on numbers, as a boolean. *)
Definition Qpos (x : Q) : bool := if Qlt_le_dec 0 x then true else false.

(** [coverage_precision(pred_size, gold_size, inter_size)]:
<<
    cov = inter_size / gold_size if gold_size > 0 else 1.0
    prec = inter_size / pred_size if pred_size > 0 else 1.0
>> *)
Definition coverage_precision (pred_size gold_size inter_size : Q) : Q * Q :=
  let cov := if Qpos gold_size then (inter_size / gold_size)%Q else 1%Q in
  let prec := if Qpos pred_size then (inter_size / pred_size)%Q else 1%Q in
  (cov, prec).

(** Integer arguments, as every caller in the repository passes them. *)
Definition coverage_precision_Z (pred_size gold_size inter_size : Z) : Q * Q :=
  coverage_precision (inject_Z pred_size) (inject_Z gold_size) (inject_Z inter_size).

End Metrics.

(* ===================================================================== *)
(** ** metrics/compute.py: line intervals                                *)
(* ===================================================================== *)

Module LineIntervals.

(** [LineInterval = Tuple[int, int]], [(start_line, end_line)] inclusive. *)
Definition LineInterval : Type := Z * Z.

(** Python compares tuples lexicographically. *)
Definition tuple_le (a b : LineInterval) : Prop :=
  a.1 < b.1 \/ (a.1 = b.1 /\ a.2 <= b.2).

#[global] Instance tuple_le_dec a b : Decision (tuple_le a b).
Proof. unfold tuple_le. apply _. Defined.

#[global] Instance tuple_le_total : Total tuple_le.
Proof. intros [a1 a2] [b1 b2]. unfold tuple_le. simpl. lia. Qed.

#[global] Instance tuple_le_trans : Transitive tuple_le.
Proof. intros [a1 a2] [b1 b2] [c1 c2]. unfold tuple_le. simpl. lia. Qed.

#[global] Instance tuple_le_antisymm : AntiSymm (=) tuple_le.
Proof.
  intros [a1 a2] [b1 b2]. unfold tuple_le. simpl. intros H1 H2.
  f_equal; lia.
Qed.

#[global] Instance tuple_le_refl : Reflexive tuple_le.
Proof. intros [a1 a2]. unfold tuple_le. simpl. lia. Qed.

(** [sorted(intervals)]: the order on tuples is total and antisymmetric, so
    the sorted permutation is unique and any sorting algorithm computes what
    Python's does. *)
Definition sorted (l : list LineInterval) : list LineInterval :=
  merge_sort tuple_le l.

(** The loop of [_merge_line_intervals]; [last] is [merged[-1]], the intervals
    before it are already emitted:
<<
    for current in sorted_intervals[1:]:
        last = merged[-1]
        if current[0] <= last[1] + 1:
            merged[-1] = (last[0], max(last[1], current[1]))
        else:
            merged.append(current)
>> *)
Fixpoint merge_loop (last : LineInterval) (rest : list LineInterval)
  : list LineInterval :=
  match rest with
  | [] => [last]
  | current :: rest' =>
      if bool_decide (current.1 <= last.2 + 1)
      then merge_loop (last.1, Z.max last.2 current.2) rest'
      else last :: merge_loop current rest'
  end.

Definition _merge_line_intervals (intervals : list LineInterval)
  : list LineInterval :=
  match sorted intervals with
  | [] => []
  | first :: rest => merge_loop first rest
  end.

(** [_line_interval_length]: [sum(end - start + 1 for start, end in merged)]. *)
Definition sum_lengths (l : list LineInterval) : Z :=
  foldr (fun iv acc => (iv.2 - iv.1 + 1) + acc) 0 l.

Definition _line_interval_length (intervals : list LineInterval) : Z :=
  sum_lengths (_merge_line_intervals intervals).

(** The two-pointer sweep of [_line_interval_intersect] over the merged
    lists; every iteration advances [i], [j] or both, so the recursion is on
    the two remaining suffixes [a_m[i:]] and [b_m[j:]]:
<<
    while i < len(a_m) and j < len(b_m):
        overlap = (max(a_m[i][0], b_m[j][0]), min(a_m[i][1], b_m[j][1]))
        if overlap[0] <= overlap[1]:
            result.append(overlap)
        if a_m[i][1] < b_m[j][1]:   i += 1
        elif b_m[j][1] < a_m[i][1]: j += 1
        else:                       i += 1; j += 1
>> *)
Fixpoint intersect_sweep (a_m : list LineInterval)
  : list LineInterval -> list LineInterval :=
  match a_m with
  | [] => fun _ => []
  | x :: a' =>
      fix sweep_b (b_m : list LineInterval) : list LineInterval :=
        match b_m with
        | [] => []
        | y :: b' =>
            let overlap := (Z.max x.1 y.1, Z.min x.2 y.2) in
            (if bool_decide (overlap.1 <= overlap.2) then [overlap] else [])
            ++ (if bool_decide (x.2 < y.2) then intersect_sweep a' b_m
                else if bool_decide (y.2 < x.2) then sweep_b b'
                else intersect_sweep a' b')
        end
  end.

Definition _line_interval_intersect (a b : list LineInterval)
  : list LineInterval :=
  intersect_sweep (_merge_line_intervals a) (_merge_line_intervals b).

Definition _line_interval_intersect_size (a b : list LineInterval) : Z :=
  _line_interval_length (_line_interval_intersect a b).

(** [sum(f(v) for v in d.values())]. *)
Definition sum_values {V} (f : V -> Z) (d : gmap string V) : Z :=
  map_fold (fun _ v acc => f v + acc) 0 d.

(** [d.get(f, [])]. *)
Definition get_list {V} (d : gmap string (list V)) (f : string) : list V :=
  default [] (d !! f).

(** [sum(g(f) for f in set(a.keys()) | set(b.keys()))]. *)
Definition sum_keys {V W} (g : string -> Z) (a : gmap string V) (b : gmap string W) : Z :=
  set_fold (fun f acc => g f + acc) 0 (dom a ∪ dom b).

Definition line_total_lines (lines_by_file : gmap string (list LineInterval)) : Z :=
  sum_values _line_interval_length lines_by_file.

Definition line_intersection_lines (a b : gmap string (list LineInterval)) : Z :=
  sum_keys (fun f => _line_interval_intersect_size (get_list a f) (get_list b f)) a b.

End LineIntervals.

(* ===================================================================== *)
(** ** Python strings                                                    *)
(* ===================================================================== *)

Module PyStr.

Definition is_empty (s : string) : bool :=
  match s with EmptyString => true | String _ _ => false end.

(** [str.isspace] on code points below 256: TAB..CR, FS..US, space, NEL and
    the no-break space. *)
Definition is_space (c : ascii) : bool :=
  let n := nat_of_ascii c in
  ((9 <=? n) && (n <=? 13) || (28 <=? n) && (n <=? 32)
   || (n =? 133) || (n =? 160))%nat.

Definition slash : ascii := "/"%char.
Definition backslash : ascii := "092"%char.
Definition dot : ascii := "."%char.

(** The characters the second [strip] of the resolver removes: the single
    and the double quotation mark. *)
Definition is_quote (c : ascii) : bool :=
  Ascii.eqb c "'"%char || Ascii.eqb c "034"%char.

Fixpoint lstrip_by (p : ascii -> bool) (s : string) : string :=
  match s with
  | EmptyString => EmptyString
  | String c s' => if p c then lstrip_by p s' else s
  end.

Fixpoint rstrip_by (p : ascii -> bool) (s : string) : string :=
  match s with
  | EmptyString => EmptyString
  | String c s' =>
      match rstrip_by p s' with
      | EmptyString => if p c then EmptyString else String c EmptyString
      | r => String c r
      end
  end.

Definition strip_by (p : ascii -> bool) (s : string) : string :=
  lstrip_by p (rstrip_by p s).

(** [s.strip()]. *)
Definition strip (s : string) : string := strip_by is_space s.

(** [s.replace(a, b)] for one-character [a] and [b]. *)
Fixpoint replace_char (a b : ascii) (s : string) : string :=
  match s with
  | EmptyString => EmptyString
  | String c s' => String (if Ascii.eqb c a then b else c) (replace_char a b s')
  end.

(** [s.startswith(p)]. *)
Definition startswith (s p : string) : bool := String.prefix p s.

(** [s.split(sep)] for a one-character [sep]; never the empty list. *)
Fixpoint split (sep : ascii) (s : string) : list string :=
  match s with
  | EmptyString => [EmptyString]
  | String c s' =>
      if Ascii.eqb c sep then EmptyString :: split sep s'
      else match split sep s' with
           | [] => [String c EmptyString]
           | w :: ws => String c w :: ws
           end
  end.

(** [sep.join(parts)]. *)
Fixpoint join (sep : string) (parts : list string) : string :=
  match parts with
  | [] => EmptyString
  | [x] => x
  | x :: rest => x ++ sep ++ join sep rest
  end.

(** [c in s] for a character. *)
Fixpoint has_char (c : ascii) (s : string) : bool :=
  match s with
  | EmptyString => false
  | String d s' => Ascii.eqb c d || has_char c s'
  end.

(** [p in s] for a string [p]. *)
Fixpoint contains (p s : string) : bool :=
  String.prefix p s ||
  match s with
  | EmptyString => false
  | String _ s' => contains p s'
  end.

(** [s.lower()] on code points below 256. *)
Definition lower_char (c : ascii) : ascii :=
  let n := nat_of_ascii c in
  if ((65 <=? n) && (n <=? 90)
      || (192 <=? n) && (n <=? 222) && negb (n =? 215))%nat
  then ascii_of_nat (n + 32) else c.

Fixpoint lower (s : string) : string :=
  match s with
  | EmptyString => EmptyString
  | String c s' => String (lower_char c) (lower s')
  end.

(** [sorted(set(l))] for a list of strings. *)
Definition str_le (a b : string) : Prop := String.leb a b = true.

#[global] Instance str_le_dec a b : Decision (str_le a b).
Proof. unfold str_le. apply _. Defined.

Definition sorted_set (l : list string) : list string :=
  merge_sort str_le (remove_dups l).

End PyStr.

(* ===================================================================== *)
(** ** The operating system, as [os.path] shows it                       *)
(* ===================================================================== *)

(** The functions of [os.path] the evaluator calls.  [commonpath] is [None]
    where Python raises [ValueError]. *)
Record OsPath := {
  isabs : string -> bool;
  path_join : string -> string -> string;
  realpath : string -> string;
  commonpath : string -> string -> option string;
  isfile : string -> bool;
  path_exists : string -> bool;
  splitext_ext : string -> string;
}.

(* ===================================================================== *)
(** ** parsers/trajectory.py: steps                                      *)
(* ===================================================================== *)

Module Traj.

(** An element of [Step.spans]: [{file, start_line, end_line}]. *)
Record Span := mkSpan {
  span_file : string;
  start_line : Z;
  end_line : Z;
}.

(** [class Step]; [symbols] is a dict in insertion order. *)
Record Step := mkStep {
  files : list string;
  spans : list Span;
  symbols : list (string * list string);
}.

End Traj.

(* ===================================================================== *)
(** ** evaluate.py: the path resolver                                    *)
(* ===================================================================== *)

Module Resolver.
Import PyStr Traj.

Section WithOs.
Variable os : OsPath.

(** [_is_repo_file(repo_dir, rel_path)]. *)
Definition _is_repo_file (repo_dir rel_path : string) : bool :=
  if is_empty repo_dir || is_empty rel_path then false else
  let p := strip rel_path in
  if is_empty p || isabs os p then false else
  let repo_real := realpath os repo_dir in
  let target_real := realpath os (path_join os repo_real p) in
  match commonpath os repo_real target_real with
  | None => false
  | Some c =>
      if negb (String.eqb c repo_real) then false
      else isfile os target_real
  end.

(** [while p.startswith("./"): p = p[2:]]. *)
Fixpoint strip_dot_slash (p : string) : string :=
  match p with
  | String c1 (String c2 p') =>
      if Ascii.eqb c1 dot && Ascii.eqb c2 slash then strip_dot_slash p' else p
  | _ => p
  end.

(** The loop over [range(0, len(parts))], trying ["/".join(parts[i:])]. *)
Fixpoint try_suffixes (repo_dir : string) (parts : list string) : string :=
  match parts with
  | [] => EmptyString
  | _ :: rest =>
      let cand := join "/" parts in
      if _is_repo_file repo_dir cand then cand
      else try_suffixes repo_dir rest
  end.

(** The normalisation of [_resolve_repo_relpath] up to the path segments;
    [None] stands for the early return of the empty string. *)
Definition path_parts (path : string) : option (list string) :=
  let p := replace_char backslash slash (strip_by is_quote (strip path)) in
  if is_empty p then None else
  let p := strip_dot_slash p in
  let p := if startswith p "/" then lstrip_by (Ascii.eqb slash) p else p in
  if is_empty p then None else
  let parts := List.filter (fun x => negb (is_empty x)) (split slash p) in
  match parts with
  | [] => None
  | _ => Some parts
  end.

(** [_resolve_repo_relpath(repo_dir, path)]. *)
Definition _resolve_repo_relpath (repo_dir path : string) : string :=
  if is_empty repo_dir || is_empty path then EmptyString else
  match path_parts path with
  | None => EmptyString
  | Some parts => try_suffixes repo_dir parts
  end.

(** [syms[rel] = list(syms[rel]) + list(names)] or [syms[rel] = names] on a
    dict in insertion order. *)
Fixpoint syms_add (syms : list (string * list string)) (rel : string)
    (names : list string) : list (string * list string) :=
  match syms with
  | [] => [(rel, names)]
  | (k, v) :: syms' =>
      if String.eqb k rel then (k, v ++ names) :: syms'
      else (k, v) :: syms_add syms' rel names
  end.

(** [_filter_step_to_repo(step, repo_dir)], as the new contents of the step
    object it updates in place. *)
Definition _filter_step_to_repo (step : Step) (repo_dir : string) : Step :=
  let files' :=
    List.filter (fun rel => negb (is_empty rel))
      (List.map (_resolve_repo_relpath repo_dir) (files step)) in
  let spans' :=
    flat_map (fun s =>
      let f := span_file s in
      let rel := if is_empty f then EmptyString
                 else _resolve_repo_relpath repo_dir f in
      if is_empty rel then []
      else [mkSpan rel (start_line s) (end_line s)]) (spans step) in
  let syms' :=
    fold_left (fun syms '(f, names) =>
      match names with
      | [] => syms
      | _ =>
          let rel := _resolve_repo_relpath repo_dir f in
          if is_empty rel then syms else syms_add syms rel names
      end) (symbols step) [] in
  mkStep (sorted_set files') spans' syms'.

End WithOs.
End Resolver.

(* ===================================================================== *)
(** ** Exceptions                                                        *)
(* ===================================================================== *)

(** A computation that may raise.  The only exception the embedded code
    lets escape is the [RuntimeError] of the symbol extractor. *)
Inductive Exc (A : Type) : Type :=
| Ok (a : A)
| RuntimeError.
Arguments Ok {A} a.
Arguments RuntimeError {A}.

Definition bindE {A B} (m : Exc A) (k : A -> Exc B) : Exc B :=
  match m with
  | Ok a => k a
  | RuntimeError => RuntimeError
  end.

#[global] Instance Exc_bind : MBind Exc := fun A B k m => bindE m k.
#[global] Instance Exc_ret : MRet Exc := fun A a => Ok a.

(* ===================================================================== *)
(** ** extractors/treesitter.py                                          *)
(* ===================================================================== *)

Module TreeSitter.
Import PyStr.

(** A tree-sitter syntax node, with the attributes the extractor reads. *)
Inductive Node : Type :=
| mkNode (is_named : bool) (type : string) (start_byte end_byte : Z)
         (children : list Node).

(** [DefNode = Tuple[str, int, int]]: [(kind, start_byte, end_byte)]. *)
Definition DefNode : Type := string * Z * Z.

(** A definition record: [(file, kind, start_byte, end_byte)]. *)
Definition Def : Type := string * string * Z * Z.

(** [(kind, name, start_byte, end_byte)]. *)
Definition NamedDef : Type := string * string * Z * Z.

Definition ByteInterval : Type := Z * Z.

Definition LANG_MAP : list (string * string) :=
  [(".py", "python"); (".js", "javascript"); (".jsx", "javascript");
   (".ts", "typescript"); (".tsx", "tsx"); (".java", "java"); (".go", "go");
   (".rs", "rust"); (".c", "c"); (".h", "c"); (".cpp", "cpp"); (".cc", "cpp");
   (".hpp", "cpp"); (".cs", "c_sharp"); (".php", "php"); (".rb", "ruby");
   (".swift", "swift"); (".kt", "kotlin"); (".scala", "scala")]%string.

Definition DEF_NODES : list (string * list string) :=
  [("python", ["function_definition"; "class_definition"; "async_function_definition"]);
   ("javascript", ["function_declaration"; "class_declaration"; "method_definition"; "arrow_function"]);
   ("typescript", ["function_declaration"; "class_declaration"; "method_definition"; "interface_declaration"]);
   ("tsx", ["function_declaration"; "class_declaration"; "method_definition"; "interface_declaration"]);
   ("java", ["method_declaration"; "class_declaration"; "interface_declaration"; "constructor_declaration"]);
   ("go", ["function_declaration"; "method_declaration"; "type_declaration"]);
   ("rust", ["function_item"; "impl_item"; "struct_item"; "trait_item"]);
   ("c", ["function_definition"; "struct_specifier"]);
   ("cpp", ["function_definition"; "class_specifier"; "struct_specifier"]);
   ("c_sharp", ["method_declaration"; "class_declaration"; "interface_declaration"]);
   ("php", ["function_definition"; "method_declaration"; "class_declaration"]);
   ("ruby", ["method"; "class"; "module"]);
   ("swift", ["function_declaration"; "class_declaration"; "protocol_declaration"]);
   ("kotlin", ["function_declaration"; "class_declaration"]);
   ("scala", ["function_definition"; "class_definition"; "trait_definition"])]%string.

(** [d.get(k)] on a table. *)
Fixpoint table_get {V} (d : list (string * V)) (k : string) : option V :=
  match d with
  | [] => None
  | (k', v) :: d' => if String.eqb k' k then Some v else table_get d' k
  end.

Definition str_in (x : string) (l : list string) : bool :=
  existsb (String.eqb x) l.

(** What the extractor gets from the tree-sitter package and from the files
    it parses. *)
Record Parsers := {
  (** the module flag [_TS_AVAILABLE] *)
  _TS_AVAILABLE : bool;
  (** [_get_parser(lang)] returns a parser (it raises otherwise) *)
  _get_parser : string -> bool;
  (** the tree [parser.parse] builds from the bytes of a file, for a
      language; [None] when opening, reading or parsing raises *)
  parse_file : string -> string -> option Node;
  (** [_best_name_for_def(node, src)] for a node of a file *)
  _best_name_for_def : string -> Node -> string;
}.

Section WithParsers.
Variable os : OsPath.
Variable ts : Parsers.

(** [_require_tree_sitter()]. *)
Definition _require_tree_sitter : Exc unit :=
  if _TS_AVAILABLE ts then Ok tt else RuntimeError.

(** [available()]. *)
Definition available : bool :=
  _TS_AVAILABLE ts && _get_parser ts "python".

(** [_get_parser_for_lang(lang)], as whether a parser comes back. *)
Definition _get_parser_for_lang (lang : string) : bool :=
  if negb available then false else _get_parser ts lang.

(** The traversal of [extract_defs].  The source keeps an explicit stack and
    pushes the children reversed, which visits the nodes in pre-order; a node
    that is unnamed or a comment is dropped together with its subtree. *)
Fixpoint walk_defs (target_types : list string) (node : Node) : list DefNode :=
  match node with
  | mkNode is_named node_type start_byte end_byte children =>
      if negb is_named then []
      else if contains "comment" node_type then []
      else (if str_in node_type target_types
            then [(node_type, start_byte, end_byte)] else [])
           ++ flat_map (walk_defs target_types) children
  end.

(** The language of a file and its definition kinds, or [None] where
    [extract_defs] returns the empty list for want of either. *)
Definition lang_of (file_path : string) : option (string * list string) :=
  match table_get LANG_MAP (splitext_ext os (lower file_path)) with
  | None => None
  | Some lang =>
      if is_empty lang then None else
      match table_get DEF_NODES lang with
      | None => None
      | Some target_types => Some (lang, target_types)
      end
  end.

(** [extract_defs(file_path)]. *)
Definition extract_defs (file_path : string) : Exc (list DefNode) :=
  _ ← _require_tree_sitter;
  match lang_of file_path with
  | None => Ok []
  | Some (lang, target_types) =>
      if negb (_get_parser_for_lang lang) then RuntimeError else
      match parse_file ts lang file_path with
      | None => Ok []
      | Some root => Ok (walk_defs target_types root)
      end
  end.

(** [_iter_descendants(node)]: every node of the subtree, in pre-order. *)
Fixpoint _iter_descendants (node : Node) : list Node :=
  match node with
  | mkNode _ _ _ _ children => node :: flat_map _iter_descendants children
  end.

(** [extract_named_defs(file_path)]. *)
Definition extract_named_defs (file_path : string) : Exc (list NamedDef) :=
  _ ← _require_tree_sitter;
  match lang_of file_path with
  | None => Ok []
  | Some (lang, target_types) =>
      if negb (_get_parser_for_lang lang) then RuntimeError else
      match parse_file ts lang file_path with
      | None => Ok []
      | Some root =>
          Ok (flat_map (fun node =>
                match node with
                | mkNode is_named node_type start_byte end_byte _ =>
                    if negb is_named then []
                    else if contains "comment" node_type then []
                    else if negb (str_in node_type target_types) then []
                    else
                      let name := _best_name_for_def ts file_path node in
                      if is_empty name then []
                      else [(node_type, name, start_byte, end_byte)]
                end) (_iter_descendants root))
      end
  end.

(** The last element of [sym.split(".")]. *)
Definition last_component (sym : string) : string :=
  List.last (split dot sym) EmptyString.

(** The definitions a predicted symbol name resolves to in a file: the exact
    name first, then the part after the last dot. *)
Definition defs_of_symbol (named_defs : list NamedDef) (raw : string)
  : list DefNode :=
  let sym := strip raw in
  if is_empty sym then [] else
  let by_name (cand : string) : list DefNode :=
    flat_map (fun '(kind, name, s, e) =>
      if String.eqb name cand then [(kind, s, e)] else []) named_defs in
  let candidates :=
    sym :: (if has_char dot sym then [last_component sym] else []) in
  match List.filter (fun defs => match defs with [] => false | _ => true end)
          (List.map by_name candidates) with
  | [] => []
  | defs :: _ => defs
  end.

(** [extract_def_set_from_symbol_names(pred_symbols_by_file, repo_dir)]. *)
Definition extract_def_set_from_symbol_names
    (pred_symbols_by_file : list (string * list string)) (repo_dir : string)
  : Exc (gset Def) :=
  fold_left (fun acc '(rel_path, symbols) =>
    out ← acc;
    if is_empty rel_path then Ok out else
    match symbols with
    | [] => Ok out
    | _ =>
        let abs_path := path_join os repo_dir rel_path in
        if negb (path_exists os abs_path) then Ok out else
        named_defs ← extract_named_defs abs_path;
        Ok (out ∪ list_to_set
              (flat_map (fun raw =>
                 List.map (fun '(kind, s, e) => (rel_path, kind, s, e))
                   (defs_of_symbol named_defs raw)) symbols))
    end) pred_symbols_by_file (Ok ∅).

(** The overlap test of [extract_def_set_in_spans]:
    [not (def_end < span_start or def_start > span_end)]. *)
Definition overlaps (def_start def_end : Z) (span : ByteInterval) : bool :=
  negb (bool_decide (def_end < span.1) || bool_decide (def_start > span.2)).

(** The records one file contributes to [extract_def_set_in_spans]. *)
Definition defs_in_spans (file_path : string) (all_defs : list DefNode)
    (byte_intervals : list ByteInterval) : gset Def :=
  list_to_set
    (flat_map (fun '(kind, def_start, def_end) =>
       if existsb (overlaps def_start def_end) byte_intervals
       then [(file_path, kind, def_start, def_end)] else []) all_defs).

(** [extract_def_set_in_spans(spans_by_file, repo_dir)]. *)
Definition extract_def_set_in_spans
    (spans_by_file : gmap string (list ByteInterval)) (repo_dir : string)
  : Exc (gset Def) :=
  map_fold (fun file_path byte_intervals acc =>
    result ← acc;
    let abs_path := path_join os repo_dir file_path in
    if negb (path_exists os abs_path) then Ok result else
    all_defs ← extract_defs abs_path;
    Ok (result ∪ defs_in_spans file_path all_defs byte_intervals))
    (Ok ∅) spans_by_file.

End WithParsers.
End TreeSitter.

(* ===================================================================== *)
(** ** The modules of [contextbench.core] the metrics import             *)
(* ===================================================================== *)

(** [core.intervals] and [core.fileio] are used by the embedded code but
    are not part of it; the metrics are stated for any implementation. *)
Record Core := {
  (** [core.intervals.merge] *)
  core_merge : list TreeSitter.ByteInterval -> list TreeSitter.ByteInterval;
  (** [core.length] *)
  core_length : list TreeSitter.ByteInterval -> Z;
  (** [core.intersect_size] *)
  core_intersect_size :
    list TreeSitter.ByteInterval -> list TreeSitter.ByteInterval -> Z;
  (** [core.fileio.line_to_byte(abs_path, start_line, end_line)]; [None] for
      a falsy result *)
  line_to_byte : string -> Z -> Z -> option TreeSitter.ByteInterval;
}.

(* ===================================================================== *)
(** ** metrics/compute.py: granularity and trajectory metrics            *)
(* ===================================================================== *)

Module Compute.
Import PyStr Traj LineIntervals TreeSitter Metrics.

(** One value per granularity: the dicts keyed by
    ["file"], ["symbol"], ["span"], ["line"]. *)
Record Granular (A : Type) := mkGranular {
  g_file : A;
  g_symbol : A;
  g_span : A;
  g_line : A;
}.
Arguments mkGranular {A}.
Arguments g_file {A}.
Arguments g_symbol {A}.
Arguments g_span {A}.
Arguments g_line {A}.

(** [{"coverage", "precision", "intersection", "gold_size", "pred_size"}]. *)
Record GranMetrics := mkGranMetrics {
  coverage : Q;
  precision : Q;
  intersection : Z;
  gold_size : Z;
  pred_size : Z;
}.

(** [{"step": t + 1, "coverage": {...}}]. *)
Record StepMetrics := mkStepMetrics {
  step_no : Z;
  step_coverage : Granular Q;
}.

(** The dict [compute_trajectory_metrics] returns. *)
Record TrajMetrics := mkTrajMetrics {
  steps : list StepMetrics;
  auc_coverage : Granular Q;
  redundancy : Granular Q;
}.

(** [len(s)] of a set, as a Python integer. *)
Definition len `{Countable A} (s : gset A) : Z := Z.of_nat (size s).

(** [x / y] on integers: true division. *)
Definition div (x y : Z) : Q := (inject_Z x / inject_Z y)%Q.

(** [sum(xs)] over floats, taken exactly: the embedding does not round, so
    of a sum only what rounding cannot change is stated: its value under
    the convention above, and bounds by [0] and by the number of terms. *)
Definition sumQ (xs : list Q) : Q := foldr Qplus 0%Q xs.

Section WithCore.
Variable os : OsPath.
Variable ts : Parsers.
Variable core : Core.

Definition span_total_bytes (spans_by_file : gmap string (list ByteInterval)) : Z :=
  sum_values (core_length core) spans_by_file.

Definition span_intersection_bytes (a b : gmap string (list ByteInterval)) : Z :=
  sum_keys (fun f => core_intersect_size core (get_list a f) (get_list b f)) a b.

(** The pair of one granularity of [compute_granularity_metrics]. *)
Definition gran (pred gold inter : Z) : GranMetrics :=
  let '(cov, prec) := coverage_precision_Z pred gold inter in
  mkGranMetrics cov prec inter gold pred.

(** [compute_granularity_metrics]; [pred_lines] and [gold_lines] default to
    [None]. *)
Definition compute_granularity_metrics
    (pred_files : gset string) (pred_defs : gset Def)
    (pred_spans : gmap string (list ByteInterval))
    (gold_files : gset string) (gold_defs : gset Def)
    (gold_spans : gmap string (list ByteInterval))
    (pred_lines gold_lines : option (gmap string (list LineInterval)))
  : Granular GranMetrics :=
  let file_inter := len (pred_files ∩ gold_files) in
  let def_inter := len (pred_defs ∩ gold_defs) in
  let span_pred := span_total_bytes pred_spans in
  let span_gold := span_total_bytes gold_spans in
  let span_inter := span_intersection_bytes pred_spans gold_spans in
  let line :=
    match pred_lines, gold_lines with
    | Some pl, Some gl =>
        gran (line_total_lines pl) (line_total_lines gl)
             (line_intersection_lines pl gl)
    | _, _ => mkGranMetrics 0 0 0 0 0
    end in
  mkGranular
    (gran (len pred_files) (len gold_files) file_inter)
    (gran (len pred_defs) (len gold_defs) def_inter)
    (gran span_pred span_gold span_inter)
    line.

(** [result.setdefault(f, []).append(x)]. *)
Definition setdefault_append {V} (result : gmap string (list V)) (f : string)
    (x : V) : gmap string (list V) :=
  <[f := get_list result f ++ [x]]> result.

(** [_step_to_line_intervals(step, repo_dir)]. *)
Definition _step_to_line_intervals (step : Step)
  : gmap string (list LineInterval) :=
  let result :=
    fold_left (fun result span =>
      let f := span_file span in
      if is_empty f then result
      else if bool_decide (start_line span > 0) && bool_decide (end_line span > 0)
      then setdefault_append result f (start_line span, end_line span)
      else result) (spans step) ∅ in
  _merge_line_intervals <$> result.

(** [_step_to_byte_spans(step, repo_dir)]. *)
Definition _step_to_byte_spans (step : Step) (repo_dir : string)
  : gmap string (list ByteInterval) :=
  let result :=
    fold_left (fun result span =>
      let f := span_file span in
      if is_empty f then result else
      let abs_path := path_join os repo_dir f in
      match line_to_byte core abs_path (start_line span) (end_line span) with
      | Some byte_span => setdefault_append result f byte_span
      | None => result
      end) (spans step) ∅ in
  core_merge core <$> result.

(** The accumulators of the loop of [compute_trajectory_metrics]. *)
Record Acc := mkAcc {
  union_files : gset string;
  union_symbols : gset Def;
  union_spans : gmap string (list ByteInterval);
  union_lines : gmap string (list LineInterval);
  sum_files : Z;
  sum_symbols : Z;
  sum_spans : Z;
  sum_lines : Z;
  per_step_metrics : list StepMetrics;
}.

Definition acc0 : Acc := mkAcc ∅ ∅ ∅ ∅ 0 0 0 0 [].

(** [for f, ivs in step.items(): union[f] = merge(union.get(f, []) + ivs)]. *)
Definition union_update {V} (merge : list V -> list V)
    (union step : gmap string (list V)) : gmap string (list V) :=
  map_fold (fun f ivs union => <[f := merge (get_list union f ++ ivs)]> union)
    union step.

Section Gold.
Variable gold_files : gset string.
Variable gold_symbols : gset Def.
Variable gold_spans : gmap string (list ByteInterval).
Variable repo_dir : string.
(** [gold_lines] after [if gold_lines is None: gold_lines = {}] *)
Variable gold_lines : gmap string (list LineInterval).

(** The symbols of a step: by name when the step declares symbols, from its
    byte spans otherwise. *)
Definition step_symbols_of (step : Step) : Exc (gset Def) :=
  match symbols step with
  | _ :: _ => extract_def_set_from_symbol_names os ts (symbols step) repo_dir
  | [] => extract_def_set_in_spans os ts (_step_to_byte_spans step repo_dir) repo_dir
  end.

(** The coverage of the accumulated unions against gold. *)
Definition coverage_at (uf : gset string) (us : gset Def)
    (usp : gmap string (list ByteInterval))
    (ul : gmap string (list LineInterval)) : Granular Q :=
  let file_cov :=
    if decide (gold_files = ∅) then 1%Q
    else div (len (uf ∩ gold_files)) (len gold_files) in
  let symbol_cov :=
    if decide (gold_symbols = ∅) then 1%Q
    else div (len (us ∩ gold_symbols)) (len gold_symbols) in
  let span_inter := span_intersection_bytes usp gold_spans in
  let span_gold := span_total_bytes gold_spans in
  let span_cov :=
    if bool_decide (span_gold > 0) then div span_inter span_gold else 1%Q in
  let line_cov :=
    if decide (gold_lines = ∅) then 0%Q
    else
      let line_inter := line_intersection_lines ul gold_lines in
      let line_gold := line_total_lines gold_lines in
      if bool_decide (line_gold > 0) then div line_inter line_gold else 1%Q in
  mkGranular file_cov symbol_cov span_cov line_cov.

(** One iteration of [for t, step in enumerate(steps)]. *)
Definition traj_step (t : Z) (step : Step) (a : Acc) : Exc Acc :=
  let step_files : gset string := list_to_set (files step) in
  let step_lines := _step_to_line_intervals step in
  let step_spans := _step_to_byte_spans step repo_dir in
  step_symbols ← step_symbols_of step;
  let uf := union_files a ∪ step_files in
  let us := union_symbols a ∪ step_symbols in
  let usp := union_update (core_merge core) (union_spans a) step_spans in
  let ul := union_update _merge_line_intervals (union_lines a) step_lines in
  Ok (mkAcc uf us usp ul
        (sum_files a + len step_files)
        (sum_symbols a + len step_symbols)
        (sum_spans a + span_total_bytes step_spans)
        (sum_lines a + line_total_lines step_lines)
        (per_step_metrics a ++ [mkStepMetrics (t + 1) (coverage_at uf us usp ul)])).

Fixpoint traj_loop (t : Z) (steps : list Step) (a : Acc) : Exc Acc :=
  match steps with
  | [] => Ok a
  | step :: steps' => a' ← traj_step t step a; traj_loop (t + 1) steps' a'
  end.

(** [1 - union / total if total > 0 else 0.0]. *)
Definition redundancy_of (union total : Z) : Q :=
  if bool_decide (total > 0) then (1 - div union total)%Q else 0%Q.

(** [sum(s["coverage"][g] for s in per_step_metrics) / T]. *)
Definition auc_of (g : Granular Q -> Q) (per_step : list StepMetrics) (T : Z) : Q :=
  (sumQ (List.map (fun s => g (step_coverage s)) per_step) / inject_Z T)%Q.

Definition zero4 : Granular Q := mkGranular 0%Q 0%Q 0%Q 0%Q.

End Gold.

(** [compute_trajectory_metrics(steps, gold_files, gold_symbols, gold_spans,
    repo_dir, gold_lines=None)]. *)
Definition compute_trajectory_metrics (steps : list Step)
    (gold_files : gset string) (gold_symbols : gset Def)
    (gold_spans : gmap string (list ByteInterval)) (repo_dir : string)
    (gold_lines : option (gmap string (list LineInterval)))
  : Exc TrajMetrics :=
  let T := Z.of_nat (List.length steps) in
  if bool_decide (T = 0) then Ok (mkTrajMetrics [] zero4 zero4) else
  let gold_lines := default ∅ gold_lines in
  a ← traj_loop gold_files gold_symbols gold_spans repo_dir gold_lines 0 steps acc0;
  let per_step := per_step_metrics a in
  Ok (mkTrajMetrics per_step
        (mkGranular (auc_of g_file per_step T) (auc_of g_symbol per_step T)
                    (auc_of g_span per_step T) (auc_of g_line per_step T))
        (mkGranular
           (redundancy_of (len (union_files a)) (sum_files a))
           (redundancy_of (len (union_symbols a)) (sum_symbols a))
           (redundancy_of (span_total_bytes (union_spans a)) (sum_spans a))
           (redundancy_of (line_total_lines (union_lines a)) (sum_lines a)))).

End WithCore.
End Compute.

(* ===================================================================== *)
(** ** parsers/trajectory.py: parse_trajectory                           *)
(* ===================================================================== *)

Module Parse.
Import Traj.

(** [{"start": .., "end": ..}] of the raw trajectory. *)
Record RawSpan := mkRawSpan { raw_start : Z; raw_end : Z }.

(** An element of [pred_steps]; the two dicts are in insertion order. *)
Record StepData := mkStepData {
  sd_files : list string;
  sd_spans : list (string * list RawSpan);
  sd_symbols : list (string * list string);
}.

(** [data["traj_data"]]. *)
Record TrajData := mkTrajData {
  pred_steps : list StepData;
  pred_files : list string;
  pred_spans : list (string * list RawSpan);
  pred_symbols : list (string * list string);
}.

(** [Step] objects are mutable and shared: the store holds the objects in
    allocation order, and the values the parser returns are references. *)
Definition Ref : Type := nat.
Definition Store : Type := list Step.

Definition empty_step : Step := mkStep [] [] [].

Definition deref (store : Store) (r : Ref) : Step :=
  default empty_step (store !! r).

(** The conversion of a spans dict to the list format. *)
Definition spans_of_dict (spans_dict : list (string * list RawSpan)) : list Span :=
  flat_map (fun '(file_path, file_spans) =>
    List.map (fun span => mkSpan file_path (raw_start span) (raw_end span))
      file_spans) spans_dict.

Definition step_of_data (step_data : StepData) : Step :=
  mkStep (sd_files step_data) (spans_of_dict (sd_spans step_data))
         (sd_symbols step_data).

(** [parse_trajectory(data)]: the objects it creates, and the pair
    [(traj_steps, final_step)] of references it returns. *)
Definition parse_trajectory (traj_data : TrajData) : Store * (list Ref * Ref) :=
  let step_objs := List.map step_of_data (pred_steps traj_data) in
  let traj_steps := seq 0 (List.length step_objs) in
  let final_obj :=
    mkStep (pred_files traj_data) (spans_of_dict (pred_spans traj_data))
           (pred_symbols traj_data) in
  let final_step := List.length step_objs in
  let store := step_objs ++ [final_obj] in
  let traj_steps :=
    match traj_steps with
    | [] => [final_step]
    | _ => traj_steps
    end in
  (store, (traj_steps, final_step)).

End Parse.

(* ===================================================================== *)
(** ** evaluate.py: evaluate_instance and aggregate_results              *)
(* ===================================================================== *)

(** [parsers/diff.py] and the [Gold] class are used by the evaluator but are
    not part of the embedded files. *)
Record DiffParser := {
  (** [parse_diff_lines(patch, deletions_only)]: per file, the line ranges
      of the original file the patch touches *)
  parse_diff_lines :
    string -> bool -> gmap string (list LineIntervals.LineInterval);
  (** [parsers.diff._merge_line_intervals] *)
  diff_merge_line_intervals :
    list LineIntervals.LineInterval -> list LineIntervals.LineInterval;
}.

(** What the evaluator reads from a [Gold] object. *)
Record Gold := {
  (** [gold.files()] *)
  gold_files : list string;
  (** [gold.byte_spans(repo_dir)] *)
  gold_byte_spans : string -> gmap string (list TreeSitter.ByteInterval);
  (** [gold.line_spans_init()] *)
  gold_line_spans_init : gmap string (list LineIntervals.LineInterval);
  (** [gold._data.get("patch", "")] *)
  gold_patch : string;
}.

Module Evaluate.
Import PyStr Traj Parse LineIntervals TreeSitter Metrics Compute Resolver.

(** The dict under ["editloc"]. *)
Record EditLoc := mkEditLoc {
  recall : Q;
  el_precision : Q;
  el_intersection : Z;
  el_gold_size : Z;
  el_pred_size : Z;
}.

(** A result row. *)
Record Result := mkResult {
  instance_id : string;
  error : option string;
  num_steps : Z;
  final : option (Granular GranMetrics);
  trajectory : option TrajMetrics;
  editloc : option EditLoc;
}.

Definition error_row (instance_id error : string) : Result :=
  mkResult instance_id (Some error) 0 None None None.

(** The prediction record. *)
Record PredData := mkPredData {
  traj_data : TrajData;
  model_patch : string;
}.

(** [gold_start <= line_num <= gold_end] for some gold range. *)
Definition in_gold (gold_ranges : list LineInterval) (line_num : Z) : bool :=
  existsb (fun '(gold_start, gold_end) =>
    bool_decide (gold_start <= line_num) && bool_decide (line_num <= gold_end))
    gold_ranges.

(** [range(start, end + 1)]. *)
Definition range_incl (start end_ : Z) : list Z := seqZ start (end_ + 1 - start).

(** The list [pred_lines] of the EditLoc block. *)
Definition edit_pred_lines (pred_line_edits : gmap string (list LineInterval))
  : list (string * Z) :=
  flat_map (fun '(file_path, intervals) =>
    flat_map (fun '(start, end_) =>
      List.map (fun line_num => (file_path, line_num)) (range_incl start end_))
      intervals) (map_to_list pred_line_edits).

(** The list [pred_lines_in_gold]. *)
Definition edit_pred_lines_in_gold
    (gold_ranges_by_file : gmap string (list LineInterval))
    (pred_lines : list (string * Z)) : list (string * Z) :=
  List.filter (fun '(file_path, line_num) =>
    in_gold (get_list gold_ranges_by_file file_path) line_num) pred_lines.

(** The EditLoc block of [evaluate_instance], from the parsed line edits. *)
Definition editloc_of (pred_line_edits gold_line_spans : gmap string (list LineInterval))
  : EditLoc :=
  let pred_lines := edit_pred_lines pred_line_edits in
  let pred_lines_in_gold := edit_pred_lines_in_gold gold_line_spans pred_lines in
  let pred_line_count := Z.of_nat (List.length pred_lines) in
  let hit_count := Z.of_nat (List.length pred_lines_in_gold) in
  let recall :=
    if bool_decide (pred_line_count > 0) then div hit_count pred_line_count else 0%Q in
  let precision :=
    if bool_decide (pred_line_count > 0) then div hit_count pred_line_count else 0%Q in
  let gold_line_count := sum_values sum_lengths gold_line_spans in
  mkEditLoc recall precision hit_count gold_line_count pred_line_count.

Section WithEnv.
Variable os : OsPath.
Variable ts : Parsers.
Variable core : Core.
Variable dp : DiffParser.

(** The EditLoc block with its guard: the model patch, else the gold patch;
    no [editloc] key when both are empty. *)
Definition editloc_block (gold : Gold) (pred_data : PredData) : option EditLoc :=
  let model_patch :=
    if is_empty (model_patch pred_data) then gold_patch gold
    else model_patch pred_data in
  if is_empty model_patch then None
  else Some (editloc_of (parse_diff_lines dp model_patch true)
                        (gold_line_spans_init gold)).

(** [_step_lines(step)]. *)
Definition _step_lines (step : Step) : gmap string (list LineInterval) :=
  let result :=
    fold_left (fun result span =>
      let f := span_file span in
      if is_empty f then result
      else if bool_decide (start_line span > 0) && bool_decide (end_line span > 0)
      then setdefault_append result f (start_line span, end_line span)
      else result) (spans step) ∅ in
  diff_merge_line_intervals dp <$> result.

(** [_filter_step_to_repo] updates the object a reference points to. *)
Definition filter_in_place (repo_dir : string) (store : Store) (r : Ref) : Store :=
  match store !! r with
  | Some step => <[r := _filter_step_to_repo os step repo_dir]> store
  | None => store
  end.

(** The symbols of the final step. *)
Definition final_symbols_of (final_step : Step) (repo_dir : string)
    (final_spans : gmap string (list ByteInterval)) : Exc (gset Def) :=
  match symbols final_step with
  | _ :: _ => extract_def_set_from_symbol_names os ts (symbols final_step) repo_dir
  | [] => extract_def_set_in_spans os ts final_spans repo_dir
  end.

(** [evaluate_instance], from the checked-out [repo_dir] on. *)
Definition evaluate_instance (instance_id : string) (gold : Gold)
    (pred_data : PredData) (repo_dir : string) : Exc Result :=
  let '(store, (traj_steps, final_step)) := parse_trajectory (traj_data pred_data) in
  let store := fold_left (filter_in_place repo_dir) traj_steps store in
  let store := filter_in_place repo_dir store final_step in
  let final_obj := deref store final_step in
  match files final_obj, spans final_obj with
  | [], [] => Ok (error_row instance_id "no_context_extracted")
  | _, _ =>
      let gold_files : gset string := list_to_set (gold_files gold) in
      let gold_spans := gold_byte_spans gold repo_dir in
      gold_symbols ← extract_def_set_in_spans os ts gold_spans repo_dir;
      let gold_lines := gold_line_spans_init gold in
      let final_files : gset string := list_to_set (files final_obj) in
      let final_spans := _step_to_byte_spans os core final_obj repo_dir in
      let final_lines := _step_lines final_obj in
      final_symbols ← final_symbols_of final_obj repo_dir final_spans;
      let final_metrics :=
        compute_granularity_metrics core final_files final_symbols final_spans
          gold_files gold_symbols gold_spans (Some final_lines) (Some gold_lines) in
      traj ← compute_trajectory_metrics os ts core
                (List.map (deref store) traj_steps)
                gold_files gold_symbols gold_spans repo_dir (Some gold_lines);
      Ok (mkResult instance_id None (Z.of_nat (List.length traj_steps))
            (Some final_metrics) (Some traj) (editloc_block gold pred_data))
  end.

End WithEnv.

(** The dict [aggregate_results] returns; an absent key is [None]. *)
Record Aggregate := mkAggregate {
  num_valid : Z;
  num_total : Z;
  agg_final : option (Granular (Q * Q));
  agg_traj_auc : option (Granular Q);
  agg_traj_redundancy : option (Granular Q);
  agg_editloc : option (Q * Q);
}.

Definition sumZ (xs : list Z) : Z := foldr Z.add 0 xs.

(** [r.get("final", {}).get(gran, {}).get(field, 0)]. *)
Definition final_field (g : Granular GranMetrics -> GranMetrics)
    (field : GranMetrics -> Z) (r : Result) : Z :=
  match final r with
  | Some m => field (g m)
  | None => 0
  end.

(** [r.get("editloc", {}).get(field, 0)]. *)
Definition editloc_field (field : EditLoc -> Z) (r : Result) : Z :=
  match editloc r with
  | Some e => field e
  | None => 0
  end.

(** [r.get("trajectory", {}).get(key, {}).get(gran, 0.0)]. *)
Definition traj_field (key : TrajMetrics -> Granular Q) (g : Granular Q -> Q)
    (r : Result) : Q :=
  match trajectory r with
  | Some t => g (key t)
  | None => 0%Q
  end.

Definition is_some {A} (o : option A) : bool :=
  match o with Some _ => true | None => false end.

(** [aggregate_results(results)]. *)
Definition aggregate_results (results : list Result) : Aggregate :=
  let valid := List.filter (fun r => negb (is_some (error r))) results in
  let total := Z.of_nat (List.length results) in
  match valid with
  | [] => mkAggregate 0 total None None None None
  | _ =>
      let n := Z.of_nat (List.length valid) in
      let micro (g : Granular GranMetrics -> GranMetrics) : Q * Q :=
        coverage_precision_Z
          (sumZ (List.map (final_field g pred_size) valid))
          (sumZ (List.map (final_field g gold_size) valid))
          (sumZ (List.map (final_field g intersection) valid)) in
      let macro (key : TrajMetrics -> Granular Q) (g : Granular Q -> Q) : Q :=
        (sumQ (List.map (traj_field key g) valid) / inject_Z n)%Q in
      let agg_final :=
        if existsb (fun r => is_some (final r)) valid
        then Some (mkGranular (micro g_file) (micro g_symbol)
                              (micro g_span) (micro g_line))
        else None in
      let has_traj := existsb (fun r => is_some (trajectory r)) valid in
      let agg_auc :=
        if has_traj
        then Some (mkGranular (macro auc_coverage g_file) (macro auc_coverage g_symbol)
                              (macro auc_coverage g_span) (macro auc_coverage g_line))
        else None in
      let agg_red :=
        if has_traj
        then Some (mkGranular (macro redundancy g_file) (macro redundancy g_symbol)
                              (macro redundancy g_span) (macro redundancy g_line))
        else None in
      let agg_editloc :=
        if existsb (fun r => is_some (editloc r)) valid
        then Some (coverage_precision_Z
                     (sumZ (List.map (editloc_field el_pred_size) valid))
                     (sumZ (List.map (editloc_field el_gold_size) valid))
                     (sumZ (List.map (editloc_field el_intersection) valid)))
        else None in
      mkAggregate n total agg_final agg_auc agg_red agg_editloc
  end.

End Evaluate.

(* ===================================================================== *)
(** ** A small world to run the evaluator in                             *)
(* ===================================================================== *)

(** Implementations of the interfaces above, used by the examples: a POSIX
    file system holding a given list of regular files and no symbolic links,
    a tree-sitter that knows the syntax trees of given files, files whose
    lines all have ten bytes, and a diff parser given as a table. *)
Module World.
Import PyStr TreeSitter LineIntervals.

Definition posix_isabs (p : string) : bool := startswith p "/".

Definition ends_with_slash (p : string) : bool :=
  negb (String.eqb (rstrip_by (Ascii.eqb slash) p) p).

Definition posix_join (a b : string) : string :=
  if startswith b "/" then b
  else if is_empty a || ends_with_slash a then String.append a b
  else String.append a (String.append "/" b).

(** The components of a path with [.] dropped and [..] resolved. *)
Definition norm_components (p : string) : list string :=
  rev (fold_left (fun stack part =>
         if is_empty part || String.eqb part "." then stack
         else if String.eqb part ".." then tail stack
         else part :: stack) (split slash p) []).

Definition posix_realpath (p : string) : string :=
  String.append "/" (join "/" (norm_components p)).

Fixpoint common_prefix (a b : list string) : list string :=
  match a, b with
  | x :: a', y :: b' => if String.eqb x y then x :: common_prefix a' b' else []
  | _, _ => []
  end.

Definition posix_commonpath (a b : string) : option string :=
  if is_empty a || is_empty b then None
  else if negb (Bool.eqb (posix_isabs a) (posix_isabs b)) then None
  else
    let drop_dots := List.filter (fun c => negb (is_empty c || String.eqb c ".")) in
    let common := common_prefix (drop_dots (split slash a)) (drop_dots (split slash b)) in
    Some (String.append (if posix_isabs a then "/" else EmptyString)
                        (join "/" common)).

Definition posix_splitext_ext (p : string) : string :=
  let base := List.last (split slash p) EmptyString in
  let body := lstrip_by (Ascii.eqb dot) base in
  if is_empty body || negb (has_char dot body) then EmptyString
  else String.append "." (List.last (split dot body) EmptyString).

Definition posix (regular_files : list string) : OsPath := {|
  isabs := posix_isabs;
  path_join := posix_join;
  realpath := posix_realpath;
  commonpath := posix_commonpath;
  isfile := fun p => existsb (String.eqb p) regular_files;
  path_exists := fun p => existsb (String.eqb p) regular_files;
  splitext_ext := posix_splitext_ext;
|}.

Definition tree_sitter (trees : list (string * Node))
    (names : list (string * string)) : Parsers := {|
  _TS_AVAILABLE := true;
  _get_parser := fun _ => true;
  parse_file := fun _ file_path => table_get trees file_path;
  _best_name_for_def := fun _ node =>
    match node with
    | mkNode _ type _ _ _ => default EmptyString (table_get names type)
    end;
|}.

Fixpoint byte_merge_loop (last : ByteInterval) (rest : list ByteInterval)
  : list ByteInterval :=
  match rest with
  | [] => [last]
  | current :: rest' =>
      if bool_decide (current.1 <= last.2)
      then byte_merge_loop (last.1, Z.max last.2 current.2) rest'
      else last :: byte_merge_loop current rest'
  end.

Definition byte_merge (l : list ByteInterval) : list ByteInterval :=
  match sorted l with
  | [] => []
  | first :: rest => byte_merge_loop first rest
  end.

Definition byte_length (l : list ByteInterval) : Z :=
  foldr (fun iv acc => (iv.2 - iv.1) + acc) 0 (byte_merge l).

Definition byte_intersect_size (a b : list ByteInterval) : Z :=
  foldr (fun x acc =>
    foldr (fun y acc' => Z.max 0 (Z.min x.2 y.2 - Z.max x.1 y.1) + acc') acc
      (byte_merge b)) 0 (byte_merge a).

Definition ten_byte_lines : Core := {|
  core_merge := byte_merge;
  core_length := byte_length;
  core_intersect_size := byte_intersect_size;
  line_to_byte := fun _ start_line end_line =>
    if bool_decide (0 < start_line <= end_line)
    then Some (10 * (start_line - 1), 10 * end_line) else None;
|}.

Definition diff_table
    (table : list (string * gmap string (list LineInterval))) : DiffParser := {|
  parse_diff_lines := fun patch _ => default ∅ (table_get table patch);
  diff_merge_line_intervals := _merge_line_intervals;
|}.

End World.

(* ===================================================================== *)
(** ** The vocabulary of the properties                                  *)
(* ===================================================================== *)

(** Notions the statements below are written in: what a list of intervals
    covers, what a trajectory prefix has seen, when the extractor cannot
    raise, and so on.  None of them is part of the program. *)
Module Vocabulary.
Import PyStr Traj Parse LineIntervals TreeSitter Metrics Compute Resolver Evaluate.

(** *** Line intervals *)

(** A line [p] lies in one of the intervals of [l]. *)
Definition covered (p : Z) (l : list LineInterval) : Prop :=
  exists iv, iv ∈ l /\ iv.1 <= p <= iv.2.

(** [a] comes before [b] and ends at least one full line before [b] starts:
    the two neither overlap nor touch. *)
Definition separated (a b : LineInterval) : Prop :=
  tuple_le a b /\ a.2 + 1 < b.1.

(** The state of the merge loop: the remaining input is sorted and nothing
    in it sorts before [last]. *)
Definition loop_inv (last : LineInterval) (rest : list LineInterval) : Prop :=
  StronglySorted tuple_le rest /\ Forall (tuple_le last) rest.

(** An interval with [start <= end]. *)
Definition nondegenerate (iv : LineInterval) : Prop := iv.1 <= iv.2.

(** The lines of one interval and of a list of intervals. *)
Definition range_set (iv : LineInterval) : gset Z :=
  list_to_set (seqZ iv.1 (iv.2 - iv.1 + 1)).

Definition lines_of (ivs : list LineInterval) : gset Z :=
  ⋃ (range_set <$> ivs).

(** The (file, line) pairs of a dict of line intervals. *)
Definition file_lines (d : gmap string (list LineInterval)) : gset (string * Z) :=
  map_fold (fun f ivs acc =>
    acc ∪ list_to_set (pair f <$> elements (lines_of ivs))) ∅ d.

Definition pairs_of (f : string) (X : gset Z) : gset (string * Z) :=
  list_to_set (pair f <$> elements X).

(** All intervals of a dict have [start <= end]. *)
Definition nondegenerate_map (d : gmap string (list LineInterval)) : Prop :=
  map_Forall (fun _ ivs => Forall nondegenerate ivs) d.

(** *** The symbol extractor *)

(** tree-sitter is installed and has a parser for every language of
    [DEF_NODES]: the state in which the extractor raises nothing. *)
Definition parsers_ready (ts : Parsers) : Prop :=
  _TS_AVAILABLE ts = true
  /\ forall lang, is_Some (table_get DEF_NODES lang) -> _get_parser ts lang = true.

(** The definition records of a file of the repository: those of
    [extract_defs], none for a file that does not exist. *)
Definition file_defs (os : OsPath) (ts : Parsers) (repo_dir file_path : string)
  : list DefNode :=
  let abs_path := path_join os repo_dir file_path in
  if path_exists os abs_path then
    match extract_defs os ts abs_path with
    | Ok defs => defs
    | RuntimeError => []
    end
  else [].

(** The bytes of a definition: tree-sitter's [end_byte] is one past the
    last byte of the node ([_node_text] slices [src[start_byte:end_byte]]). *)
Definition def_byte (d : DefNode) (b : Z) : Prop := d.1.2 <= b < d.2.

(** The bytes of a requested interval.  [core.fileio.line_to_byte], which
    makes the intervals, is not among the embedded files, so whether the end
    of an interval is its last byte or one past it is a parameter: [closed]
    selects the reading. *)
Definition span_byte (closed : bool) (iv : ByteInterval) (b : Z) : Prop :=
  iv.1 <= b /\ (if closed then b <= iv.2 else b < iv.2).

(** The definition and the interval have a byte in common. *)
Definition shares_byte (closed : bool) (d : DefNode) (iv : ByteInterval) : Prop :=
  exists b, def_byte d b /\ span_byte closed iv b.

(** One of the two ends exactly at the offset where the other starts. *)
Definition abuts (d : DefNode) (iv : ByteInterval) : Prop :=
  d.2 = iv.1 \/ d.1.2 = iv.2.

(** The interval has a byte and all its bytes are bytes of the definition. *)
Definition inside (closed : bool) (iv : ByteInterval) (d : DefNode) : Prop :=
  (exists b, span_byte closed iv b)
  /\ forall b, span_byte closed iv b -> def_byte d b.

(** *** Trajectories *)

Inductive granularity := GFile | GSymbol | GSpan | GLine.

Definition at_gran {A} (g : granularity) (x : Granular A) : A :=
  match g with
  | GFile => g_file x
  | GSymbol => g_symbol x
  | GSpan => g_span x
  | GLine => g_line x
  end.

(** What a trajectory prefix has observed: the four cumulative unions and
    the four sums of per-step sizes. *)
Record Seen := mkSeen {
  seen_files : gset string;
  seen_symbols : gset Def;
  seen_spans : gmap string (list ByteInterval);
  seen_lines : gmap string (list LineInterval);
  total_files : Z;
  total_symbols : Z;
  total_spans : Z;
  total_lines : Z;
}.

Definition seen0 : Seen := mkSeen ∅ ∅ ∅ ∅ 0 0 0 0.

Definition seen_of_acc (a : Acc) : Seen :=
  mkSeen (union_files a) (union_symbols a) (union_spans a) (union_lines a)
         (sum_files a) (sum_symbols a) (sum_spans a) (sum_lines a).

Definition acc_of_seen (u : Seen) (per_step : list StepMetrics) : Acc :=
  mkAcc (seen_files u) (seen_symbols u) (seen_spans u) (seen_lines u)
        (total_files u) (total_symbols u) (total_spans u) (total_lines u)
        per_step.

Section Trajectory.
Variable os : OsPath.
Variable ts : Parsers.
Variable core : Core.
Variable gold_files : gset string.
Variable gold_symbols : gset Def.
Variable gold_spans : gmap string (list ByteInterval).
Variable repo_dir : string.
Variable gold_lines : gmap string (list LineInterval).

(** The symbols a step contributes. *)
Definition symbols_seen (step : Step) : gset Def :=
  match step_symbols_of os ts core repo_dir step with
  | Ok defs => defs
  | RuntimeError => ∅
  end.

(** One more step observed. *)
Definition observe (u : Seen) (step : Step) : Seen :=
  let step_files : gset string := list_to_set (files step) in
  let step_lines := _step_to_line_intervals step in
  let step_spans := _step_to_byte_spans os core step repo_dir in
  let step_symbols := symbols_seen step in
  mkSeen (seen_files u ∪ step_files)
         (seen_symbols u ∪ step_symbols)
         (union_update (core_merge core) (seen_spans u) step_spans)
         (union_update _merge_line_intervals (seen_lines u) step_lines)
         (total_files u + len step_files)
         (total_symbols u + len step_symbols)
         (total_spans u + span_total_bytes core step_spans)
         (total_lines u + line_total_lines step_lines).

(** The cumulative union of a prefix of the trajectory. *)
Definition cumulative (prefix : list Step) : Seen :=
  fold_left observe prefix seen0.

(** Coverage of what has been seen, against gold. *)
Definition coverage_of (u : Seen) : Granular Q :=
  coverage_at core gold_files gold_symbols gold_spans gold_lines
    (seen_files u) (seen_symbols u) (seen_spans u) (seen_lines u).

(** The entries the loop appends for the remaining steps, from what the
    steps before have seen. *)
Fixpoint entries (t : Z) (u : Seen) (steps : list Step) : list StepMetrics :=
  match steps with
  | [] => []
  | step :: steps' =>
      let u' := observe u step in
      mkStepMetrics (t + 1) (coverage_of u') :: entries (t + 1) u' steps'
  end.

(** The trajectory metrics in terms of what the prefixes have seen. *)
Definition metrics_of (steps : list Step) : TrajMetrics :=
  let T := Z.of_nat (List.length steps) in
  let per_step := entries 0 seen0 steps in
  let u := cumulative steps in
  mkTrajMetrics per_step
    (mkGranular (auc_of g_file per_step T) (auc_of g_symbol per_step T)
                (auc_of g_span per_step T) (auc_of g_line per_step T))
    (mkGranular
       (redundancy_of (len (seen_files u)) (total_files u))
       (redundancy_of (len (seen_symbols u)) (total_symbols u))
       (redundancy_of (span_total_bytes core (seen_spans u)) (total_spans u))
       (redundancy_of (line_total_lines (seen_lines u)) (total_lines u))).

End Trajectory.

(** The step observes line [p] of file [f]: one of its spans names the file,
    has positive bounds and contains the line. *)
Definition observes_line (step : Step) (f : string) (p : Z) : Prop :=
  exists span, span ∈ spans step /\ span_file span = f /\ f <> EmptyString
    /\ 0 < start_line span /\ 0 < end_line span
    /\ start_line span <= p <= end_line span.

(** Every span of the step has [start_line <= end_line]. *)
Definition well_formed (step : Step) : Prop :=
  Forall (fun span => start_line span <= end_line span) (spans step).

(** The (file, line) pairs a step observes. *)
Definition step_line_pairs (step : Step) : gset (string * Z) :=
  file_lines (_step_to_line_intervals step).

(** The body of the first loop of [_step_to_line_intervals]. *)
Definition add_span (result : gmap string (list LineInterval)) (span : Span)
  : gmap string (list LineInterval) :=
  let f := span_file span in
  if is_empty f then result
  else if bool_decide (start_line span > 0) && bool_decide (end_line span > 0)
  then setdefault_append result f (start_line span, end_line span)
  else result.

(** Sum of the sizes of the per-step sets. *)
Definition sum_sizes {A} `{Countable A} (sets : list (gset A)) : Z :=
  foldr (fun X acc => len X + acc) 0 sets.

Definition step_files (step : Step) : gset string := list_to_set (files step).

(** *** The evaluation driver *)

(** The final step object [parse_trajectory] builds. *)
Definition final_of (td : TrajData) : Step :=
  mkStep (pred_files td) (spans_of_dict (pred_spans td)) (pred_symbols td).

(** A step has context: files or spans. *)
Definition has_context (step : Step) : Prop :=
  files step <> [] \/ spans step <> [].

(** *** EditLoc *)

(** Two ranges have no line in common. *)
Definition no_common_line (a b : LineInterval) : Prop :=
  forall p, ~ (a.1 <= p <= a.2 /\ b.1 <= p <= b.2).

(** The ranges of every file are pairwise without a common line, as the
    ranges of the deleted lines of a diff are. *)
Definition disjoint_edits (edits : gmap string (list LineInterval)) : Prop :=
  map_Forall (fun _ ivs => StronglySorted no_common_line ivs) edits.

(** The lines of the ranges of one file, as the EditLoc loop lists them. *)
Definition lines_listed (intervals : list LineInterval) : list Z :=
  flat_map (fun '(start, end_) => range_incl start end_) intervals.

(** The entries one file adds to [pred_lines]. *)
Definition file_entries (kv : string * list LineInterval) : list (string * Z) :=
  pair kv.1 <$> lines_listed kv.2.

(** The patch the EditLoc block reads. *)
Definition patch_of (gold : Gold) (pred_data : PredData) : string :=
  if is_empty (model_patch pred_data) then gold_patch gold
  else model_patch pred_data.

(** *** The path resolver *)


End Vocabulary.

(* ===================================================================== *)
(** ** Scenarios                                                         *)
(* ===================================================================== *)

(** The inputs of the examples and counterexamples. *)
Module Scenarios.
Import PyStr Traj Parse LineIntervals TreeSitter Metrics Compute Evaluate World.

(** Parsers for everything, no files. *)
Definition bare_os : OsPath := posix [].
Definition bare_ts : Parsers := tree_sitter [] [].

(** The step of Scenario C: one read of lines 1 to 50 of a file. *)
Definition read_50 : Step := mkStep ["f.py"] [mkSpan "f.py" 1 50] [].

(** A repository with one file, and a prediction that names it as final
    context but has no exploration steps. *)
Definition one_file_os : OsPath := posix ["/repo/a.py"].

Definition final_only : PredData :=
  mkPredData (mkTrajData [] ["/testbed/a.py"] [] []) EmptyString.

Definition gold_a : Gold := {|
  gold_files := ["a.py"];
  gold_byte_spans := fun _ => ∅;
  gold_line_spans_init := ∅;
  gold_patch := EmptyString;
|}.

(** Scenario D: the patch deletes lines 12-14 of [f.py], gold is lines
    10-20 of that file. *)
Definition scenario_d_dp : DiffParser :=
  diff_table [("delete 12-14", {["f.py" := [(12, 14)]]})].

Definition scenario_d_gold : Gold := {|
  gold_files := ["f.py"];
  gold_byte_spans := fun _ => ∅;
  gold_line_spans_init := {["f.py" := [(10, 20)]]};
  gold_patch := EmptyString;
|}.

Definition scenario_d_pred : PredData :=
  mkPredData (mkTrajData [] ["f.py"] [] []) "delete 12-14".

(** The EditLoc block of Scenario D: 3 deleted lines, all inside the gold
    range of 11 lines. *)
Definition scenario_d_editloc : EditLoc :=
  editloc_of {["f.py" := [(12, 14)]]} {["f.py" := [(10, 20)]]}.

(** A valid row that carries only an EditLoc block. *)
Definition editloc_row (e : EditLoc) : Result :=
  mkResult "instance" None 1 None None (Some e).

(** A Python file with a class of one method: the module node, the class
    at bytes 0-100 and, inside it, the method at bytes 10-50. *)
Definition method_in_class : Node :=
  mkNode true "module" 0 100
    [mkNode true "class_definition" 0 100
       [mkNode true "identifier" 6 7 [];
        mkNode true "block" 10 100
          [mkNode true "function_definition" 10 50 [];
           mkNode true "comment" 60 70
             [mkNode true "function_definition" 61 69 []]]]].

Definition class_os : OsPath := posix ["/repo/m.py"].
Definition class_ts : Parsers := tree_sitter [("/repo/m.py", method_in_class)] [].

Definition plain_os : OsPath := posix ["/repo/src/a.py"].

End Scenarios.

(* ===================================================================== *)
(** ** evaluate.py: _normalize_repo_slug                                  *)
(* ===================================================================== *)

Module Slug.
Import PyStr.

(** [s[n:]] and [s[:n]] for a non-negative [n]. *)
Fixpoint drop_chars (n : nat) (s : string) : string :=
  match n, s with
  | O, _ => s
  | S _, EmptyString => EmptyString
  | S n', String _ s' => drop_chars n' s'
  end.

Fixpoint take_chars (n : nat) (s : string) : string :=
  match n, s with
  | O, _ => EmptyString
  | S _, EmptyString => EmptyString
  | S n', String c s' => String c (take_chars n' s')
  end.

(** [s.endswith(suffix)]. *)
Definition endswith (s suffix : string) : bool :=
  (String.length suffix <=? String.length s)%nat
  && String.eqb (drop_chars (String.length s - String.length suffix) s) suffix.

(** [re.sub(r"^https?://", "", s)]: the pattern is anchored at the start of
    the string, so at most one match is removed. *)
Definition drop_scheme (s : string) : string :=
  if startswith s "https://" then drop_chars 8 s
  else if startswith s "http://" then drop_chars 7 s
  else s.

(** [parts[-2:]]. *)
Definition last_two {A} (parts : list A) : list A :=
  List.skipn (List.length parts - 2) parts.

(** [_normalize_repo_slug(repo_url)]. *)
Definition _normalize_repo_slug (repo_url : string) : string :=
  let s := strip repo_url in
  let s := drop_scheme s in
  let s := rstrip_by (Ascii.eqb slash) s in
  let s := if endswith s ".git"
           then take_chars (String.length s - String.length ".git") s else s in
  let parts := split slash s in
  if (2 <=? List.length parts)%nat then lower (join "/" (last_two parts))
  else lower s.

End Slug.

(* ===================================================================== *)
(** * Properties                                                         *)
(* ===================================================================== *)

Module MetricsFacts.
Import Metrics.

Lemma Qpos_true x : Qpos x = true <-> (0 < x)%Q.
Proof.
  unfold Qpos. destruct (Qlt_le_dec 0 x) as [H|H]; split; intros; try done.
  exfalso. apply (Qlt_not_le _ _ H0 H).
Qed.

Lemma Qpos_false x : Qpos x = false <-> (x <= 0)%Q.
Proof.
  unfold Qpos. destruct (Qlt_le_dec 0 x) as [H|H]; split; intros; try done.
  exfalso. apply (Qlt_not_le _ _ H H0).
Qed.

Lemma Qpos_inject_Z z : Qpos (inject_Z z) = bool_decide (0 < z).
Proof.
  case_bool_decide as Hz.
  - apply Qpos_true. change 0%Q with (inject_Z 0). by rewrite <- Zlt_Qlt.
  - apply Qpos_false. change 0%Q with (inject_Z 0). rewrite <- Zle_Qle. lia.
Qed.

End MetricsFacts.

Module CoveragePrecision.
Import Metrics MetricsFacts.

Lemma Qpos_nonneg x : (0 <= x)%Q -> Qpos x = negb (Qeq_bool x 0).
Proof.
  intros Hx. destruct (Qeq_bool x 0) eqn:He; simpl.
  - apply Qeq_bool_eq in He. apply Qpos_false. rewrite He. apply Qle_refl.
  - apply Qpos_true. apply Qeq_bool_neq in He.
    apply Qle_lteq in Hx as [Hx|Hx]; [done|]. exfalso. apply He. by symmetry.
Qed.

(** C1: for non-negative arguments, [coverage_precision(pred_size, gold_size,
    inter_size)] returns coverage [inter_size / gold_size] when
    [gold_size > 0] and [1.0] when [gold_size = 0], and precision
    [inter_size / pred_size] when [pred_size > 0] and [1.0] when
    [pred_size = 0]; [coverage_precision(0,0,0) = (1.0,1.0)],
    [coverage_precision(5,0,0) = (1.0,0.0)] and
    [coverage_precision(0,5,0) = (0.0,1.0)]. *)
Theorem coverage_precision_spec (pred_size gold_size inter_size : Q) :
  (0 <= pred_size)%Q -> (0 <= gold_size)%Q -> (0 <= inter_size)%Q ->
  coverage_precision pred_size gold_size inter_size =
    (if Qeq_bool gold_size 0 then 1%Q else (inter_size / gold_size)%Q,
     if Qeq_bool pred_size 0 then 1%Q else (inter_size / pred_size)%Q)
  /\ ((0 < gold_size)%Q ->
        (coverage_precision pred_size gold_size inter_size).1 = (inter_size / gold_size)%Q)
  /\ ((0 < pred_size)%Q ->
        (coverage_precision pred_size gold_size inter_size).2 = (inter_size / pred_size)%Q)
  /\ coverage_precision 0 0 0 = (1%Q, 1%Q)
  /\ ((coverage_precision 5 0 0).1 = 1%Q /\ (coverage_precision 5 0 0).2 == 0)%Q
  /\ ((coverage_precision 0 5 0).1 == 0 /\ (coverage_precision 0 5 0).2 = 1%Q)%Q.
Proof.
  intros Hp Hg Hi. unfold coverage_precision.
  rewrite (Qpos_nonneg _ Hp), (Qpos_nonneg _ Hg).
  split; [by destruct (Qeq_bool gold_size 0), (Qeq_bool pred_size 0)|].
  split.
  { intros Hpos. simpl. destruct (Qeq_bool gold_size 0) eqn:He; [|done].
    apply Qeq_bool_eq in He. rewrite He in Hpos. by apply Qlt_irrefl in Hpos. }
  split.
  { intros Hpos. simpl. destruct (Qeq_bool pred_size 0) eqn:He; [|done].
    apply Qeq_bool_eq in He. rewrite He in Hpos. by apply Qlt_irrefl in Hpos. }
  repeat split; reflexivity.
Qed.

Lemma coverage_precision_spec_witness :
  coverage_precision 4 8 2 = ((2 / 8)%Q, (2 / 4)%Q).
Proof.
  refine (proj1 (coverage_precision_spec 4 8 2 _ _ _)); by vm_compute.
Defined.

End CoveragePrecision.

(* ===================================================================== *)
(** ** Line-interval merge                                               *)
(* ===================================================================== *)

Module LineIntervalsFacts.
Import LineIntervals Vocabulary.

Lemma covered_nil p : ~ covered p [].
Proof. intros (iv & Hin & _). by apply elem_of_nil in Hin. Qed.

Lemma covered_cons p a l :
  covered p (a :: l) <-> (a.1 <= p <= a.2) \/ covered p l.
Proof.
  unfold covered. split.
  - intros (iv & Hin & Hp). apply elem_of_cons in Hin as [->|Hin]; eauto.
  - intros [Hp | (iv & Hin & Hp)].
    + exists a. split; [left | done].
    + exists iv. split; [by right | done].
Qed.

Lemma covered_perm p l1 l2 : l1 ≡ₚ l2 -> covered p l1 -> covered p l2.
Proof.
  intros Hp (iv & Hin & Hiv). exists iv. split; [|done]. by rewrite <- Hp.
Qed.

Lemma covered_app p l1 l2 : covered p (l1 ++ l2) <-> covered p l1 \/ covered p l2.
Proof.
  unfold covered. split.
  - intros (iv & [Hin|Hin]%elem_of_app & Hp); [left | right]; by exists iv.
  - intros [(iv & Hin & Hp) | (iv & Hin & Hp)]; exists iv;
      (split; [apply elem_of_app; auto | done]).
Qed.

Lemma sorted_perm l : sorted l ≡ₚ l.
Proof. apply merge_sort_Permutation. Qed.

Lemma sorted_StronglySorted l : StronglySorted tuple_le (sorted l).
Proof. apply StronglySorted_merge_sort; apply _. Qed.

Lemma sorted_id l : StronglySorted tuple_le l -> sorted l = l.
Proof.
  intros Hl. apply (StronglySorted_unique tuple_le); [apply sorted_StronglySorted | done | apply sorted_perm].
Qed.

Lemma loop_inv_merge last current rest :
  tuple_le last current -> loop_inv last rest -> loop_inv current rest ->
  loop_inv (last.1, Z.max last.2 current.2) rest.
Proof.
  intros Hlc [Hs Hl] [_ Hc]. split; [done|].
  rewrite Forall_forall in Hl, Hc |- *. intros r Hr.
  specialize (Hl r Hr). specialize (Hc r Hr).
  destruct last as [l1 l2], current as [c1 c2], r as [r1 r2].
  unfold tuple_le in *; simpl in *. lia.
Qed.

Lemma loop_inv_cons last current rest :
  loop_inv last (current :: rest) ->
  tuple_le last current /\ loop_inv last rest /\ loop_inv current rest.
Proof.
  intros [Hs Hl]. apply StronglySorted_inv in Hs as [Hs Hc].
  apply Forall_cons in Hl as [Hlc Hl]. by repeat split.
Qed.

(** Every emitted interval starts where some input interval starts and ends
    no earlier than it. *)
Lemma merge_loop_origin rest : forall last o,
  o ∈ merge_loop last rest ->
  exists r, r ∈ last :: rest /\ o.1 = r.1 /\ r.2 <= o.2.
Proof.
  induction rest as [|current rest IH]; intros last o Ho; simpl in Ho.
  - apply list_elem_of_singleton in Ho as ->. exists last. split; [left|lia].
  - case_bool_decide as Hc.
    + apply IH in Ho as (r & Hr & H1 & H2).
      apply elem_of_cons in Hr as [->|Hr].
      * exists last. split; [left|]. simpl in *. lia.
      * exists r. split; [by do 2 right|done].
    + apply elem_of_cons in Ho as [->|Ho].
      * exists last. split; [left|lia].
      * apply IH in Ho as (r & Hr & H1 & H2). exists r. split; [by right|done].
Qed.

Lemma merge_loop_separated rest : forall last,
  loop_inv last rest -> StronglySorted separated (merge_loop last rest).
Proof.
  induction rest as [|current rest IH]; intros last Hinv; simpl.
  - repeat constructor.
  - apply loop_inv_cons in Hinv as (Hlc & Hl & Hc).
    case_bool_decide as Hadj.
    + apply IH. by apply loop_inv_merge.
    + constructor; [by apply IH|].
      rewrite Forall_forall. intros o Ho.
      apply merge_loop_origin in Ho as (r & Hr & H1 & H2).
      assert (tuple_le current r) as Hcr.
      { apply elem_of_cons in Hr as [->|Hr]; [done|].
        destruct Hc as [_ Hc]. rewrite Forall_forall in Hc. by apply Hc. }
      destruct last as [l1 l2], current as [c1 c2], r as [r1 r2], o as [o1 o2].
      unfold separated, tuple_le in *; simpl in *. lia.
Qed.

Lemma merge_loop_covered p rest : forall last,
  loop_inv last rest ->
  covered p (merge_loop last rest) <-> covered p (last :: rest).
Proof.
  induction rest as [|current rest IH]; intros last Hinv; simpl; [done|].
  apply loop_inv_cons in Hinv as (Hlc & Hl & Hc).
  case_bool_decide as Hadj.
  - rewrite IH by (by apply loop_inv_merge).
    rewrite !covered_cons. simpl.
    destruct last as [l1 l2], current as [c1 c2].
    unfold tuple_le in *; simpl in *.
    split; intros [H|H]; try tauto.
    + destruct (decide (p <= l2)); [left; lia | right; left; lia].
    + left; lia.
    + destruct H as [H|H]; [left; lia | tauto].
  - rewrite (covered_cons p last (merge_loop _ _)).
    rewrite IH by done. by rewrite <- covered_cons.
Qed.

Lemma merge_loop_nondegenerate rest : forall last,
  Forall (fun iv => iv.1 <= iv.2) (last :: rest) ->
  Forall (fun iv => iv.1 <= iv.2) (merge_loop last rest).
Proof.
  induction rest as [|current rest IH]; intros last Hall; simpl; [done|].
  apply Forall_cons in Hall as [Hl Hall]. apply Forall_cons in Hall as [Hc Hall].
  case_bool_decide as Hadj.
  - apply IH. constructor; [simpl; lia | done].
  - constructor; [done|]. apply IH. by constructor.
Qed.

(** On a list that is already separated the loop changes nothing. *)
Lemma merge_loop_fixpoint rest : forall last,
  StronglySorted separated (last :: rest) -> merge_loop last rest = last :: rest.
Proof.
  induction rest as [|current rest IH]; intros last Hs; simpl; [done|].
  apply StronglySorted_inv in Hs as [Hs Hl].
  apply Forall_cons in Hl as [[_ Hgap] _].
  rewrite bool_decide_eq_false_2 by lia. f_equal. by apply IH.
Qed.

Lemma separated_tuple_le l :
  StronglySorted separated l -> StronglySorted tuple_le l.
Proof.
  induction 1 as [|a l Hs IH Hall]; constructor; [done|].
  eapply Forall_impl; [exact Hall|]. by intros b [? _].
Qed.

Lemma sorted_loop_inv first rest :
  StronglySorted tuple_le (first :: rest) -> loop_inv first rest.
Proof. intros H. apply StronglySorted_inv in H as [? ?]. by split. Qed.

Lemma merge_separated x : StronglySorted separated (_merge_line_intervals x).
Proof.
  unfold _merge_line_intervals.
  pose proof (sorted_StronglySorted x) as Hs.
  destruct (sorted x) as [|first rest]; [constructor|].
  by apply merge_loop_separated, sorted_loop_inv.
Qed.

Lemma merge_covered p x : covered p (_merge_line_intervals x) <-> covered p x.
Proof.
  unfold _merge_line_intervals.
  pose proof (sorted_StronglySorted x) as Hs.
  pose proof (sorted_perm x) as Hp.
  destruct (sorted x) as [|first rest].
  - split; [by intros ?%covered_nil|].
    intros H. exfalso. eapply covered_nil, covered_perm; [symmetry; exact Hp | exact H].
  - rewrite merge_loop_covered by (by apply sorted_loop_inv).
    split; apply covered_perm; [done | by symmetry].
Qed.

Lemma merge_nondegenerate x :
  Forall (fun iv => iv.1 <= iv.2) x ->
  Forall (fun iv => iv.1 <= iv.2) (_merge_line_intervals x).
Proof.
  intros Hx. unfold _merge_line_intervals.
  pose proof (sorted_perm x) as Hp.
  destruct (sorted x) as [|first rest]; [constructor|].
  apply merge_loop_nondegenerate. by rewrite Hp.
Qed.

Lemma merge_fixpoint l :
  StronglySorted separated l -> _merge_line_intervals l = l.
Proof.
  intros Hs. unfold _merge_line_intervals.
  rewrite sorted_id by (by apply separated_tuple_le).
  destruct l as [|first rest]; [done|]. by apply merge_loop_fixpoint.
Qed.

Lemma sorted_pair a b : tuple_le a b -> sorted [b; a] = [a; b] /\ sorted [a; b] = [a; b].
Proof.
  intros Hab.
  assert (StronglySorted tuple_le [a; b]) as Hs.
  { apply SSorted_cons; [apply SSorted_cons; constructor|].
    apply Forall_cons. split; [exact Hab | apply Forall_nil_2]. }
  split; [|by apply sorted_id].
  apply (StronglySorted_unique tuple_le); [apply sorted_StronglySorted | done |].
  rewrite sorted_perm. apply Permutation_swap.
Qed.

(** C7: [_merge_line_intervals] coalesces intervals that overlap or are
    adjacent (the next start is at most the previous end plus one) into
    sorted, pairwise separated intervals covering exactly the lines of the
    input, and merging is idempotent: [merge(merge(x)) == merge(x)] for every
    list [x] of line intervals. *)
Theorem merge_line_intervals_idempotent (x : list LineInterval) :
  StronglySorted separated (_merge_line_intervals x)
  /\ (forall p, covered p (_merge_line_intervals x) <-> covered p x)
  /\ (forall a b,
        let lo := if decide (tuple_le a b) then a else b in
        let hi := if decide (tuple_le a b) then b else a in
        _merge_line_intervals [a; b] =
          if bool_decide (hi.1 <= lo.2 + 1)
          then [(lo.1, Z.max lo.2 hi.2)] else [lo; hi])
  /\ _merge_line_intervals (_merge_line_intervals x) = _merge_line_intervals x.
Proof.
  split; [apply merge_separated|].
  split; [intros p; apply merge_covered|].
  split; [|apply merge_fixpoint, merge_separated].
  intros a b lo hi. subst lo hi. unfold _merge_line_intervals.
  destruct (decide (tuple_le a b)) as [Hab|Hab].
  - by rewrite (proj2 (sorted_pair a b Hab)).
  - assert (tuple_le b a) as Hba by (by destruct (total tuple_le a b)).
    by rewrite (proj1 (sorted_pair b a Hba)).
Qed.

End LineIntervalsFacts.

(* ===================================================================== *)
(** ** Sums over dicts and the update of the unions                      *)
(* ===================================================================== *)

Module MapFacts.
Import LineIntervals Compute.

Lemma sum_values_empty {V} (f : V -> Z) : sum_values f ∅ = 0.
Proof. apply map_fold_empty. Qed.

Lemma sum_values_insert {V} (f : V -> Z) (d : gmap string V) k v :
  d !! k = None -> sum_values f (<[k:=v]> d) = f v + sum_values f d.
Proof.
  intros Hk. unfold sum_values. rewrite map_fold_insert_L; [done| |done].
  intros. lia.
Qed.

Lemma sum_values_singleton {V} (f : V -> Z) k v :
  sum_values f ({[k := v]} : gmap string V) = f v.
Proof.
  rewrite <- insert_empty, sum_values_insert by apply lookup_empty.
  rewrite sum_values_empty. lia.
Qed.

Lemma sum_values_fmap {V W} (f : W -> Z) (g : V -> W) (d : gmap string V) :
  sum_values f (g <$> d) = sum_values (fun v => f (g v)) d.
Proof.
  induction d as [|k v d Hk IH] using map_ind.
  - by rewrite fmap_empty, !sum_values_empty.
  - rewrite fmap_insert, !sum_values_insert, IH; [done..|].
    by rewrite lookup_fmap, Hk.
Qed.

Lemma sum_keys_empty {V W} (g : string -> Z) :
  sum_keys g (∅ : gmap string V) (∅ : gmap string W) = 0.
Proof.
  unfold sum_keys. rewrite !dom_empty_L, (left_id_L ∅ (∪)).
  apply set_fold_empty.
Qed.

Lemma get_list_empty {V} f : get_list (∅ : gmap string (list V)) f = [].
Proof. unfold get_list. by rewrite lookup_empty. Qed.

(** What the update loop leaves under each file. *)
Lemma union_update_lookup {V} (merge : list V -> list V)
    (union step : gmap string (list V)) f :
  union_update merge union step !! f =
    match step !! f with
    | Some ivs => Some (merge (get_list union f ++ ivs))
    | None => union !! f
    end.
Proof.
  unfold union_update. revert f.
  apply (map_fold_weak_ind (fun r m => forall f,
    r !! f = match m !! f with
             | Some ivs => Some (merge (get_list union f ++ ivs))
             | None => union !! f
             end)).
  - intros f. by rewrite lookup_empty.
  - intros i x m r Hi IH f. destruct (decide (i = f)) as [->|Hne].
    + rewrite !lookup_insert_eq. unfold get_list. by rewrite IH, Hi.
    + rewrite !lookup_insert_ne by done. apply IH.
Qed.

Lemma union_update_empty_r {V} (merge : list V -> list V) union :
  union_update merge union ∅ = union.
Proof. apply map_fold_empty. Qed.

End MapFacts.

(* ===================================================================== *)
(** ** The symbol extractor                                              *)
(* ===================================================================== *)

Module ExtractorFacts.
Import PyStr TreeSitter Vocabulary.

Section Facts.
Variable os : OsPath.
Variable ts : Parsers.
Hypothesis Hready : parsers_ready ts.

Local Abbreviation file_defs := (Vocabulary.file_defs os ts).

Lemma ready_available : available ts = true.
Proof.
  destruct Hready as [Ha Hp]. unfold available. rewrite Ha. simpl.
  apply Hp. by eexists.
Qed.

Lemma lang_of_known file_path lang target_types :
  lang_of os file_path = Some (lang, target_types) ->
  _get_parser_for_lang ts lang = true.
Proof.
  unfold lang_of, _get_parser_for_lang. rewrite ready_available. cbn [negb].
  destruct (table_get LANG_MAP (splitext_ext os (lower file_path))) as [l|]; [|done].
  destruct (is_empty l); [done|].
  destruct (table_get DEF_NODES l) as [tt|] eqn:Ht; [|done].
  intros [= -> ->]. apply Hready. by eexists.
Qed.

Lemma extract_defs_ok file_path : exists defs, extract_defs os ts file_path = Ok defs.
Proof.
  unfold extract_defs, _require_tree_sitter.
  destruct Hready as [-> _]. simpl.
  destruct (lang_of os file_path) as [[lang tt]|] eqn:Hl; [|by eexists].
  rewrite (lang_of_known _ _ _ Hl). simpl.
  destruct (parse_file ts lang file_path); by eexists.
Qed.

Lemma extract_named_defs_ok file_path :
  exists defs, extract_named_defs os ts file_path = Ok defs.
Proof.
  unfold extract_named_defs, _require_tree_sitter.
  destruct Hready as [-> _]. simpl.
  destruct (lang_of os file_path) as [[lang tt]|] eqn:Hl; [|by eexists].
  rewrite (lang_of_known _ _ _ Hl). simpl.
  destruct (parse_file ts lang file_path); by eexists.
Qed.

Lemma extract_def_set_from_symbol_names_ok names repo_dir :
  exists S, extract_def_set_from_symbol_names os ts names repo_dir = Ok S.
Proof.
  unfold extract_def_set_from_symbol_names.
  generalize (∅ : gset Def). induction names as [|[rel symbols] names IH]; intros S0.
  - by eexists.
  - simpl.
    destruct (is_empty rel); [apply IH|].
    destruct symbols as [|sym symbols]; [apply IH|].
    destruct (negb (path_exists os _)); [apply IH|].
    destruct (extract_named_defs_ok (path_join os repo_dir rel)) as [nd ->].
    simpl. apply IH.
Qed.

Lemma overlaps_spec s e iv :
  overlaps s e iv = true <-> iv.1 <= e /\ s <= iv.2.
Proof.
  unfold overlaps. rewrite negb_true_iff, orb_false_iff.
  rewrite !bool_decide_eq_false. lia.
Qed.

(** Whatever shares a byte with the interval passes the overlap test. *)
Lemma shares_byte_overlaps closed kind s e iv :
  shares_byte closed (kind, s, e) iv -> overlaps s e iv = true.
Proof.
  intros (b & [H1 H2] & [H3 H4]). simpl in *. apply overlaps_spec.
  destruct closed; lia.
Qed.

(** What passes the overlap test shares a byte with the interval, unless
    one of the two ends where the other starts. *)
Lemma overlaps_shares_byte closed kind s e iv :
  s < e -> (exists b, span_byte closed iv b) -> ~ abuts (kind, s, e) iv ->
  overlaps s e iv = true -> shares_byte closed (kind, s, e) iv.
Proof.
  intros Hd (b0 & H3 & H4) Hab [H1 H2]%overlaps_spec.
  unfold abuts in Hab. simpl in Hab.
  exists (Z.max s iv.1). unfold def_byte, span_byte. simpl.
  destruct closed; lia.
Qed.

Lemma elem_of_defs_in_spans file_path all_defs ivs f kind s e :
  (f, kind, s, e) ∈ defs_in_spans file_path all_defs ivs <->
  f = file_path /\ (kind, s, e) ∈ all_defs
  /\ exists iv, iv ∈ ivs /\ overlaps s e iv = true.
Proof.
  unfold defs_in_spans. rewrite elem_of_list_to_set, list_elem_of_In, in_flat_map.
  split.
  - intros ([[k ds] de] & Hin & Hd).
    destruct (existsb _ ivs) eqn:Hex; [|done].
    destruct Hd as [Hd|[]]. injection Hd as <- <- <- <-.
    apply existsb_exists in Hex as (iv & Hiv & Ho).
    apply list_elem_of_In in Hin. apply list_elem_of_In in Hiv. eauto.
  - intros (-> & Hin & iv & Hiv & Ho).
    exists (kind, s, e). rewrite <- list_elem_of_In. split; [done|].
    replace (existsb (overlaps s e) ivs) with true; [left; done|].
    symmetry. apply existsb_exists. exists iv. by rewrite <- list_elem_of_In.
Qed.

(** The set [extract_def_set_in_spans] builds, file by file. *)
Lemma extract_def_set_in_spans_spec spans repo_dir :
  exists S, extract_def_set_in_spans os ts spans repo_dir = Ok S
  /\ forall f kind s e,
       (f, kind, s, e) ∈ S <->
       (kind, s, e) ∈ file_defs repo_dir f
       /\ exists ivs iv, spans !! f = Some ivs /\ iv ∈ ivs /\ overlaps s e iv = true.
Proof.
  unfold extract_def_set_in_spans.
  apply (map_fold_weak_ind (fun r m => exists S, r = Ok S
    /\ forall f kind s e,
       (f, kind, s, e) ∈ S <->
       (kind, s, e) ∈ file_defs repo_dir f
       /\ exists ivs iv, m !! f = Some ivs /\ iv ∈ ivs /\ overlaps s e iv = true)).
  - exists ∅. split; [done|]. intros f kind s e. split.
    + intros H. by apply not_elem_of_empty in H.
    + intros (_ & ivs & iv & H & _). by rewrite lookup_empty in H.
  - intros i x m r Hi (S & -> & HS). simpl.
    destruct (path_exists os (path_join os repo_dir i)) eqn:Hex; simpl.
    + destruct (extract_defs_ok (path_join os repo_dir i)) as [defs Hdefs].
      rewrite Hdefs. simpl. eexists. split; [done|].
      intros f kind s e. rewrite elem_of_union, HS, elem_of_defs_in_spans.
      assert (file_defs repo_dir i = defs) as Hfd.
      { unfold Vocabulary.file_defs. by rewrite Hex, Hdefs. }
      split.
      * intros [(Hd & ivs & iv & Hm & Hiv & Ho) | (-> & Hd & iv & Hiv & Ho)].
        -- split; [done|]. exists ivs, iv. split; [|done].
           rewrite lookup_insert_ne; [done|]. intros ->. by rewrite Hi in Hm.
        -- rewrite Hfd. split; [done|]. exists x, iv. by rewrite lookup_insert_eq.
      * intros (Hd & ivs & iv & Hm & Hiv & Ho).
        destruct (decide (i = f)) as [->|Hne].
        -- rewrite lookup_insert_eq in Hm. injection Hm as ->.
           right. rewrite <- Hfd. split; [done|]. split; [done|]. by exists iv.
        -- rewrite lookup_insert_ne in Hm by done. left. split; [done|].
           by exists ivs, iv.
    + exists S. split; [done|]. intros f kind s e. rewrite HS.
      split; intros (Hd & ivs & iv & Hm & Hiv & Ho); (split; [done|]).
      * exists ivs, iv. split; [|done].
        rewrite lookup_insert_ne; [done|]. intros ->. by rewrite Hi in Hm.
      * destruct (decide (i = f)) as [->|Hne].
        -- exfalso. unfold Vocabulary.file_defs in Hd. rewrite Hex in Hd.
           by apply elem_of_nil in Hd.
        -- rewrite lookup_insert_ne in Hm by done. by exists ivs, iv.
Qed.

Lemma extract_def_set_in_spans_ok spans repo_dir :
  exists S, extract_def_set_in_spans os ts spans repo_dir = Ok S.
Proof. destruct (extract_def_set_in_spans_spec spans repo_dir) as (S & ? & _). eauto. Qed.

End Facts.
End ExtractorFacts.

(* ===================================================================== *)
(** ** Trajectory metrics                                                *)
(* ===================================================================== *)

Module TrajectoryFacts.
Import PyStr Traj LineIntervals TreeSitter Metrics Compute.
Import Vocabulary MetricsFacts MapFacts ExtractorFacts.

Lemma seen_of_acc_of_seen u per_step : seen_of_acc (acc_of_seen u per_step) = u.
Proof. by destruct u. Qed.

Section Facts.
Variable os : OsPath.
Variable ts : Parsers.
Variable core : Core.
Hypothesis Hready : parsers_ready ts.

Variable gold_files : gset string.
Variable gold_symbols : gset Def.
Variable gold_spans : gmap string (list ByteInterval).
Variable repo_dir : string.
Variable gold_lines : gmap string (list LineInterval).

Local Abbreviation symbols_seen := (Vocabulary.symbols_seen os ts core repo_dir).
Local Abbreviation observe := (Vocabulary.observe os ts core repo_dir).
Local Abbreviation coverage_of :=
  (Vocabulary.coverage_of core gold_files gold_symbols gold_spans gold_lines).
Local Abbreviation entries :=
  (Vocabulary.entries os ts core gold_files gold_symbols gold_spans repo_dir
     gold_lines).

Lemma step_symbols_of_ok step :
  step_symbols_of os ts core repo_dir step = Ok (symbols_seen step).
Proof.
  unfold Vocabulary.symbols_seen, step_symbols_of.
  destruct (symbols step) as [|x l].
  - by destruct (extract_def_set_in_spans_ok os ts Hready
                   (_step_to_byte_spans os core step repo_dir) repo_dir) as [S ->].
  - by destruct (extract_def_set_from_symbol_names_ok os ts Hready
                   (x :: l) repo_dir) as [S ->].
Qed.

Local Abbreviation loop := (traj_loop os ts core gold_files gold_symbols gold_spans
                    repo_dir gold_lines).

Lemma traj_step_spec t step a :
  traj_step os ts core gold_files gold_symbols gold_spans repo_dir gold_lines
    t step a =
  Ok (acc_of_seen (observe (seen_of_acc a) step)
        (per_step_metrics a
           ++ [mkStepMetrics (t + 1) (coverage_of (observe (seen_of_acc a) step))])).
Proof. unfold traj_step. by rewrite step_symbols_of_ok. Qed.

Lemma traj_loop_spec steps : forall t a,
  exists a', loop t steps a = Ok a'
  /\ seen_of_acc a' = fold_left observe steps (seen_of_acc a)
  /\ per_step_metrics a' = per_step_metrics a ++ entries t (seen_of_acc a) steps.
Proof.
  induction steps as [|step steps IH]; intros t a; simpl.
  - exists a. by rewrite app_nil_r.
  - rewrite traj_step_spec. cbn [mbind Exc_bind bindE].
    destruct (IH (t + 1) (acc_of_seen (observe (seen_of_acc a) step)
                (per_step_metrics a
                 ++ [mkStepMetrics (t + 1) (coverage_of (observe (seen_of_acc a) step))])))
      as (a' & Hl & Hs & Hp).
    exists a'. split; [done|].
    rewrite seen_of_acc_of_seen in Hs, Hp. split; [done|].
    rewrite Hp. cbn [acc_of_seen per_step_metrics]. by rewrite <- app_assoc.
Qed.

Lemma length_entries steps : forall t u, List.length (entries t u steps) = List.length steps.
Proof. induction steps as [|s steps IH]; intros; simpl; [done|]. by rewrite IH. Qed.

Lemma entries_lookup steps : forall t u i step,
  steps !! i = Some step ->
  entries t u steps !! i =
    Some (mkStepMetrics (t + Z.of_nat i + 1)
            (coverage_of (fold_left observe (take (S i) steps) u))).
Proof.
  induction steps as [|s steps IH]; intros t u i step Hi; [done|].
  destruct i as [|i]; simpl.
  - do 3 f_equal. lia.
  - simpl in Hi. rewrite (IH _ _ _ _ Hi). do 3 f_equal. lia.
Qed.

End Facts.

(** With the parsers in place [compute_trajectory_metrics] returns, and
    returns [metrics_of] for a trajectory with at least one step. *)
Lemma compute_trajectory_metrics_spec os ts core steps gold_files gold_symbols
    gold_spans repo_dir gold_lines :
  parsers_ready ts ->
  compute_trajectory_metrics os ts core steps gold_files gold_symbols
    gold_spans repo_dir gold_lines =
  Ok (match steps with
      | [] => mkTrajMetrics [] zero4 zero4
      | _ => metrics_of os ts core gold_files gold_symbols gold_spans repo_dir
               (default ∅ gold_lines) steps
      end).
Proof.
  intros Hready. unfold compute_trajectory_metrics.
  destruct steps as [|s steps]; [done|].
  rewrite bool_decide_eq_false_2 by (simpl; lia).
  destruct (traj_loop_spec os ts core Hready gold_files gold_symbols gold_spans
              repo_dir (default ∅ gold_lines) (s :: steps) 0 acc0)
    as (a & -> & Hs & Hp).
  simpl in Hp. cbn [mbind Exc_bind bindE]. unfold metrics_of.
  change (seen_of_acc acc0) with seen0 in Hs.
  fold (cumulative os ts core repo_dir (s :: steps)) in Hs.
  rewrite <- Hs, Hp. by destruct a.
Qed.

End TrajectoryFacts.

(* ===================================================================== *)
(** ** Lines as sets                                                     *)
(* ===================================================================== *)

Module LineSetFacts.
Import PyStr Traj LineIntervals Compute Vocabulary LineIntervalsFacts MapFacts.

Lemma elem_of_range_set p iv : p ∈ range_set iv <-> iv.1 <= p <= iv.2.
Proof. unfold range_set. rewrite elem_of_list_to_set, elem_of_seqZ. lia. Qed.

Lemma size_range_set iv : nondegenerate iv ->
  Z.of_nat (size (range_set iv)) = iv.2 - iv.1 + 1.
Proof.
  unfold nondegenerate, range_set. intros H.
  rewrite size_list_to_set by apply NoDup_seqZ. rewrite length_seqZ. lia.
Qed.

Lemma elem_of_lines_of p ivs : p ∈ lines_of ivs <-> covered p ivs.
Proof.
  unfold lines_of, covered. rewrite elem_of_union_list. split.
  - intros (X & HX & Hp). apply list_elem_of_fmap in HX as (iv & -> & Hiv).
    exists iv. split; [done|]. by apply elem_of_range_set.
  - intros (iv & Hiv & Hp). exists (range_set iv). split.
    + apply list_elem_of_fmap. by exists iv.
    + by apply elem_of_range_set.
Qed.

Lemma lines_of_cons iv ivs : lines_of (iv :: ivs) = range_set iv ∪ lines_of ivs.
Proof. done. Qed.

Lemma lines_of_app l1 l2 : lines_of (l1 ++ l2) = lines_of l1 ∪ lines_of l2.
Proof.
  apply set_eq. intros p.
  rewrite elem_of_union, !elem_of_lines_of. apply covered_app.
Qed.

Lemma lines_of_merge x : lines_of (_merge_line_intervals x) = lines_of x.
Proof.
  apply set_eq. intros p. rewrite !elem_of_lines_of. apply merge_covered.
Qed.

(** On separated intervals the lengths add up to the number of lines. *)
Lemma size_lines_of_separated l :
  StronglySorted separated l -> Forall nondegenerate l ->
  Z.of_nat (size (lines_of l)) = sum_lengths l.
Proof.
  induction 1 as [|a l Hs IH Hall]; intros Hnd.
  - done.
  - apply Forall_cons in Hnd as [Ha Hnd].
    rewrite lines_of_cons, size_union.
    + rewrite Nat2Z.inj_add, size_range_set, IH by done. simpl. lia.
    + intros p Hp1 Hp2. apply elem_of_range_set in Hp1.
      apply elem_of_lines_of in Hp2 as (b & Hb & Hp2).
      rewrite Forall_forall in Hall, Hnd.
      destruct (Hall b Hb) as [_ Hgap]. lia.
Qed.

(** [_line_interval_length] counts the lines of the intervals. *)
Lemma line_interval_length_size x :
  Forall nondegenerate x ->
  _line_interval_length x = Z.of_nat (size (lines_of x)).
Proof.
  intros Hx. unfold _line_interval_length.
  rewrite <- size_lines_of_separated.
  - by rewrite lines_of_merge.
  - apply merge_separated.
  - by apply merge_nondegenerate.
Qed.

Lemma elem_of_pairs_of f X g p : (g, p) ∈ pairs_of f X <-> g = f /\ p ∈ X.
Proof.
  unfold pairs_of. rewrite elem_of_list_to_set, list_elem_of_fmap.
  setoid_rewrite elem_of_elements. split.
  - intros (q & [= -> ->] & Hq). done.
  - intros [-> Hp]. by exists p.
Qed.

Lemma size_pairs_of f X : size (pairs_of f X) = size X.
Proof.
  unfold pairs_of. rewrite size_list_to_set.
  - by rewrite length_fmap.
  - apply NoDup_fmap_2; [|apply NoDup_elements]. by intros ?? [=].
Qed.

Lemma file_lines_empty : file_lines ∅ = ∅.
Proof. apply map_fold_empty. Qed.

Lemma file_lines_insert d k v :
  d !! k = None ->
  file_lines (<[k:=v]> d) = file_lines d ∪ pairs_of k (lines_of v).
Proof.
  intros Hk. unfold file_lines. rewrite map_fold_insert_L; [done| |done].
  intros. set_solver.
Qed.

Lemma elem_of_file_lines d f p :
  (f, p) ∈ file_lines d <-> p ∈ lines_of (get_list d f).
Proof.
  induction d as [|k v d Hk IH] using map_ind.
  - rewrite file_lines_empty, get_list_empty. split.
    + intros H. by apply not_elem_of_empty in H.
    + intros H. by apply elem_of_lines_of, covered_nil in H.
  - rewrite file_lines_insert, elem_of_union, elem_of_pairs_of, IH by done.
    unfold get_list. destruct (decide (k = f)) as [->|Hne].
    + rewrite lookup_insert_eq, Hk. simpl.
      split; [intros [H|[_ H]]; [|done] | by right].
      by apply elem_of_lines_of, covered_nil in H.
    + rewrite lookup_insert_ne by done. split; [intros [H|[-> _]] | by left]; done.
Qed.

(** [line_total_lines] counts the (file, line) pairs of the dict. *)
Lemma line_total_lines_size d :
  nondegenerate_map d ->
  line_total_lines d = Z.of_nat (size (file_lines d)).
Proof.
  unfold line_total_lines, nondegenerate_map.
  induction d as [|k v d Hk IH] using map_ind; intros Hnd.
  - by rewrite sum_values_empty, file_lines_empty, size_empty.
  - apply map_Forall_insert in Hnd as [Hv Hnd]; [|done].
    rewrite sum_values_insert, file_lines_insert, size_union by
      (try done; intros [g p] H1 H2;
       apply elem_of_file_lines in H1; apply elem_of_pairs_of in H2 as [-> _];
       unfold get_list in H1; rewrite Hk in H1;
       by apply elem_of_lines_of, covered_nil in H1).
    rewrite size_pairs_of, IH, line_interval_length_size by done. lia.
Qed.

Lemma get_list_union_update U D f :
  lines_of (get_list (union_update _merge_line_intervals U D) f) =
    lines_of (get_list U f) ∪ lines_of (get_list D f).
Proof.
  unfold get_list at 1 3. rewrite union_update_lookup.
  destruct (D !! f) as [ivs|]; simpl.
  - by rewrite lines_of_merge, lines_of_app.
  - change (lines_of []) with (∅ : gset Z). by rewrite (right_id_L ∅ (∪)).
Qed.

Lemma file_lines_union_update U D :
  file_lines (union_update _merge_line_intervals U D) = file_lines U ∪ file_lines D.
Proof.
  apply set_eq. intros [f p].
  by rewrite elem_of_union, !elem_of_file_lines, get_list_union_update, elem_of_union.
Qed.

Lemma nondegenerate_union_update U D :
  nondegenerate_map U -> nondegenerate_map D ->
  nondegenerate_map (union_update _merge_line_intervals U D).
Proof.
  intros HU HS f ivs. rewrite union_update_lookup.
  destruct (D !! f) as [new|] eqn:Hf.
  - intros [= <-]. apply merge_nondegenerate, Forall_app. split.
    + unfold get_list. destruct (U !! f) as [old|] eqn:Ho; [|constructor].
      apply (HU f old Ho).
    + apply (HS f new Hf).
  - apply HU.
Qed.

End LineSetFacts.

(* ===================================================================== *)
(** ** What a trajectory has seen                                        *)
(* ===================================================================== *)

Module SeenFacts.
Import PyStr Traj LineIntervals TreeSitter Compute.
Import Vocabulary LineIntervalsFacts MapFacts LineSetFacts ExtractorFacts TrajectoryFacts.

Lemma is_empty_true s : is_empty s = true <-> s = EmptyString.
Proof. by destruct s. Qed.

Lemma is_empty_false s : is_empty s = false <-> s <> EmptyString.
Proof. by destruct s. Qed.

Lemma add_span_covered result span f p :
  covered p (get_list (add_span result span) f) <->
  covered p (get_list result f)
  \/ (span_file span = f /\ f <> EmptyString
      /\ 0 < start_line span /\ 0 < end_line span
      /\ start_line span <= p <= end_line span).
Proof.
  unfold add_span.
  destruct (is_empty (span_file span)) eqn:He.
  { apply is_empty_true in He. split; [by left|]. intros [H|(H1 & H2 & _)]; [done|].
    congruence. }
  apply is_empty_false in He.
  destruct (bool_decide (start_line span > 0)) eqn:Hs;
    [apply bool_decide_eq_true in Hs | apply bool_decide_eq_false in Hs]; simpl.
  2: { split; [by left|]. intros [H|H]; [done|]. lia. }
  destruct (bool_decide (end_line span > 0)) eqn:Hen;
    [apply bool_decide_eq_true in Hen | apply bool_decide_eq_false in Hen]; simpl.
  2: { split; [by left|]. intros [H|H]; [done|]. lia. }
  unfold setdefault_append, get_list at 1.
  destruct (decide (span_file span = f)) as [Hf|Hf].
  - rewrite Hf, lookup_insert_eq. simpl. rewrite covered_app, covered_cons. simpl.
    split.
    + intros [H|[H|H]]; [by left | right | by apply covered_nil in H].
      repeat split; try done; try lia. by rewrite <- Hf.
    + intros [H|H]; [by left | right; left; lia].
  - rewrite lookup_insert_ne by done. fold (get_list result f).
    split; [by left|]. intros [H|[H _]]; done.
Qed.

Lemma fold_add_span_covered spans : forall result f p,
  covered p (get_list (fold_left add_span spans result) f) <->
  covered p (get_list result f)
  \/ exists span, span ∈ spans /\ span_file span = f /\ f <> EmptyString
      /\ 0 < start_line span /\ 0 < end_line span
      /\ start_line span <= p <= end_line span.
Proof.
  induction spans as [|span spans IH]; intros result f p; simpl.
  - split; [by left|]. intros [H|(span & Hin & _)]; [done|].
    by apply elem_of_nil in Hin.
  - rewrite IH, add_span_covered. split.
    + intros [[H|H]|(s & Hin & H)]; [by left | right | right].
      * exists span. split; [left | done].
      * exists s. split; [by right | done].
    + intros [H|(s & Hin & H)]; [by left; left|].
      apply elem_of_cons in Hin as [->|Hin]; [left; by right | right; by exists s].
Qed.

Lemma add_span_nondegenerate result span :
  start_line span <= end_line span ->
  nondegenerate_map result -> nondegenerate_map (add_span result span).
Proof.
  intros Hwf Hnd. unfold add_span.
  destruct (is_empty _); [done|].
  destruct (_ && _); [|done].
  unfold setdefault_append. intros f ivs.
  destruct (decide (span_file span = f)) as [Hf|Hf].
  - rewrite Hf, lookup_insert_eq. intros [= <-]. apply Forall_app. split.
    + unfold get_list. destruct (result !! f) as [old|] eqn:Ho; [|constructor].
      apply (Hnd f old Ho).
    + by repeat constructor.
  - rewrite lookup_insert_ne by done. apply Hnd.
Qed.

Lemma fold_add_span_nondegenerate spans : forall result,
  Forall (fun span => start_line span <= end_line span) spans ->
  nondegenerate_map result -> nondegenerate_map (fold_left add_span spans result).
Proof.
  induction spans as [|span spans IH]; intros result Hwf Hnd; [done|].
  apply Forall_cons in Hwf as [Hs Hwf]. simpl.
  apply IH; [done|]. by apply add_span_nondegenerate.
Qed.

Lemma step_to_line_intervals_unfold step :
  _step_to_line_intervals step =
  _merge_line_intervals <$> fold_left add_span (spans step) ∅.
Proof. done. Qed.

Lemma merge_nil : _merge_line_intervals [] = [].
Proof. done. Qed.

Lemma get_list_fmap_merge (d : gmap string (list LineInterval)) f :
  get_list (_merge_line_intervals <$> d) f = _merge_line_intervals (get_list d f).
Proof.
  unfold get_list. rewrite lookup_fmap. by destruct (d !! f).
Qed.

(** The pairs of a step are the lines it observes. *)
Lemma elem_of_step_line_pairs step f p :
  (f, p) ∈ step_line_pairs step <-> observes_line step f p.
Proof.
  unfold step_line_pairs, observes_line.
  rewrite elem_of_file_lines, elem_of_lines_of, step_to_line_intervals_unfold.
  rewrite get_list_fmap_merge, merge_covered, fold_add_span_covered.
  rewrite get_list_empty. split; [intros [H|H] | by right]; [|done].
  by apply covered_nil in H.
Qed.

Lemma step_to_line_intervals_nondegenerate step :
  well_formed step -> nondegenerate_map (_step_to_line_intervals step).
Proof.
  intros Hwf. rewrite step_to_line_intervals_unfold.
  intros f ivs. rewrite lookup_fmap.
  destruct (fold_left add_span (spans step) ∅ !! f) as [raw|] eqn:Hraw; [|done].
  intros [= <-]. apply merge_nondegenerate.
  eapply (fold_add_span_nondegenerate (spans step) ∅ Hwf); [|exact Hraw].
  intros ??. by rewrite lookup_empty.
Qed.

(** A step of well-formed spans has as many lines as [line_total_lines]
    says. *)
Lemma step_lines_size step :
  well_formed step ->
  line_total_lines (_step_to_line_intervals step) =
    Z.of_nat (size (step_line_pairs step)).
Proof.
  intros Hwf. by apply line_total_lines_size, step_to_line_intervals_nondegenerate.
Qed.

Section Cumulative.
Variable os : OsPath.
Variable ts : Parsers.
Variable core : Core.
Variable repo_dir : string.

Local Abbreviation observe := (Vocabulary.observe os ts core repo_dir).
Local Abbreviation symbols_seen := (Vocabulary.symbols_seen os ts core repo_dir).

Lemma sum_sizes_cons {A} `{Countable A} (X : gset A) sets :
  sum_sizes (X :: sets) = len X + sum_sizes sets.
Proof. done. Qed.

Lemma sum_sizes_nil {A} `{Countable A} : sum_sizes ([] : list (gset A)) = 0.
Proof. done. Qed.

Lemma seen_files_fold steps : forall u,
  seen_files (fold_left observe steps u) = seen_files u ∪ ⋃ (step_files <$> steps)
  /\ total_files (fold_left observe steps u) =
       total_files u + sum_sizes (step_files <$> steps).
Proof.
  induction steps as [|s steps IH]; intros u.
  - unfold sum_sizes. simpl. rewrite (right_id_L ∅ (∪)).
    split; [done | lia].
  - cbn [fold_left]. destruct (IH (observe u s)) as [-> ->].
    rewrite fmap_cons, sum_sizes_cons, union_list_cons.
    cbn [Vocabulary.observe seen_files total_files]. fold (step_files s).
    split; [by rewrite (assoc_L (∪)) | lia].
Qed.

Lemma seen_symbols_fold steps : forall u,
  seen_symbols (fold_left observe steps u) =
    seen_symbols u ∪ ⋃ (symbols_seen <$> steps)
  /\ total_symbols (fold_left observe steps u) =
       total_symbols u + sum_sizes (symbols_seen <$> steps).
Proof.
  induction steps as [|s steps IH]; intros u.
  - unfold sum_sizes. simpl. rewrite (right_id_L ∅ (∪)).
    split; [done | lia].
  - cbn [fold_left]. destruct (IH (observe u s)) as [-> ->].
    rewrite fmap_cons, sum_sizes_cons, union_list_cons.
    cbn [Vocabulary.observe seen_symbols total_symbols].
    split; [by rewrite (assoc_L (∪)) | lia].
Qed.

Lemma seen_lines_fold steps : forall u,
  Forall well_formed steps -> nondegenerate_map (seen_lines u) ->
  nondegenerate_map (seen_lines (fold_left observe steps u))
  /\ file_lines (seen_lines (fold_left observe steps u)) =
       file_lines (seen_lines u) ∪ ⋃ (step_line_pairs <$> steps)
  /\ total_lines (fold_left observe steps u) =
       total_lines u + sum_sizes (step_line_pairs <$> steps).
Proof.
  induction steps as [|s steps IH]; intros u Hwf Hnd.
  - unfold sum_sizes. simpl. rewrite (right_id_L ∅ (∪)).
    split; [done|]. split; [done | lia].
  - apply Forall_cons in Hwf as [Hs Hwf]. cbn [fold_left].
    destruct (IH (observe u s) Hwf) as (Hnd' & -> & ->).
    { cbn [Vocabulary.observe seen_lines].
      apply nondegenerate_union_update; [done|].
      by apply step_to_line_intervals_nondegenerate. }
    split; [done|].
    rewrite fmap_cons, sum_sizes_cons, union_list_cons.
    cbn [Vocabulary.observe seen_lines total_lines].
    rewrite file_lines_union_update, step_lines_size by done.
    fold (step_line_pairs s). unfold len.
    split; [by rewrite (assoc_L (∪)) | lia].
Qed.

(** The spans seen, as the code accumulates them. *)
Lemma seen_spans_fold steps : forall u,
  seen_spans (fold_left observe steps u) =
    fold_left (fun U step =>
      union_update (core_merge core) U (_step_to_byte_spans os core step repo_dir))
      steps (seen_spans u)
  /\ total_spans (fold_left observe steps u) =
       total_spans u
       + foldr (fun step acc =>
           span_total_bytes core (_step_to_byte_spans os core step repo_dir) + acc)
           0 steps.
Proof.
  induction steps as [|s steps IH]; intros u; simpl.
  - split; [done | lia].
  - destruct (IH (observe u s)) as [-> ->]. simpl. split; [done | lia].
Qed.

End Cumulative.
End SeenFacts.

(* ===================================================================== *)
(** ** AUC-Coverage, Redundancy and the line convention                  *)
(* ===================================================================== *)

Module TrajectoryClaims.
Import PyStr Traj LineIntervals TreeSitter Metrics Compute World.
Import Vocabulary Scenarios MetricsFacts LineIntervalsFacts MapFacts LineSetFacts ExtractorFacts.
Import TrajectoryFacts SeenFacts.

Lemma sumQ_single c : (sumQ [c] / inject_Z 1 == c)%Q.
Proof.
  unfold sumQ, Qdiv. simpl. change (/ inject_Z 1)%Q with 1%Q.
  by rewrite Qmult_1_r, Qplus_0_r.
Qed.




Lemma bare_ts_ready : parsers_ready bare_ts.
Proof. by split. Qed.



(** C4: for a trajectory with at least one step, Redundancy at each
    granularity is one minus the size of the union of all steps over the sum
    of the per-step sizes, and [0.0] when that sum is zero; three steps that
    each read the same 50 lines have line Redundancy [1 - 50/150]. *)
Theorem redundancy_union_over_sum os ts core (steps : list Step) gold_files
    gold_symbols gold_spans repo_dir gold_lines :
  parsers_ready ts -> steps <> [] ->
  exists m,
    compute_trajectory_metrics os ts core steps gold_files gold_symbols
      gold_spans repo_dir gold_lines = Ok m
    /\ g_file (redundancy m) =
         redundancy_of (len (⋃ (step_files <$> steps)))
                       (sum_sizes (step_files <$> steps))
    /\ g_symbol (redundancy m) =
         redundancy_of (len (⋃ (symbols_seen os ts core repo_dir <$> steps)))
                       (sum_sizes (symbols_seen os ts core repo_dir <$> steps))
    /\ g_span (redundancy m) =
         redundancy_of
           (span_total_bytes core
              (fold_left (fun U step =>
                 union_update (core_merge core) U
                   (_step_to_byte_spans os core step repo_dir)) steps ∅))
           (foldr (fun step acc =>
              span_total_bytes core (_step_to_byte_spans os core step repo_dir) + acc)
              0 steps)
    /\ (Forall well_formed steps ->
          g_line (redundancy m) =
            redundancy_of (len (⋃ (step_line_pairs <$> steps)))
                          (sum_sizes (step_line_pairs <$> steps)))
    /\ (forall union total, total > 0 ->
          redundancy_of union total = (1 - inject_Z union / inject_Z total)%Q)
    /\ (forall union total, total <= 0 -> redundancy_of union total = 0%Q)
    /\ (steps = [read_50; read_50; read_50] ->
          (g_line (redundancy m) == 1 - 50 / 150)%Q).
Proof.
  intros Hready Hne. eexists. split; [by apply compute_trajectory_metrics_spec|].
  destruct steps as [|s0 steps0]; [done|]. set (steps := s0 :: steps0).
  unfold metrics_of, cumulative. cbn [redundancy g_file g_symbol g_span g_line].
  destruct (seen_files_fold os ts core repo_dir steps seen0) as [-> ->].
  destruct (seen_symbols_fold os ts core repo_dir steps seen0) as [-> ->].
  destruct (seen_spans_fold os ts core repo_dir steps seen0) as [-> ->].
  cbn [seen0 seen_files seen_symbols seen_spans total_files total_symbols total_spans].
  rewrite !(left_id_L ∅ (∪)), !Z.add_0_l.
  do 3 (split; [done|]).
  split.
  { intros Hwf.
    destruct (seen_lines_fold os ts core repo_dir steps seen0 Hwf) as (Hnd & Hfl & ->).
    { intros ??. simpl. by rewrite lookup_empty. }
    rewrite (line_total_lines_size _ Hnd), Hfl. simpl.
    by rewrite file_lines_empty, (left_id_L ∅ (∪)), Z.add_0_l. }
  split.
  { intros union total Hpos. unfold redundancy_of.
    by rewrite bool_decide_eq_true_2 by done. }
  split.
  { intros union total Hpos. unfold redundancy_of.
    by rewrite bool_decide_eq_false_2 by lia. }
  intros Heq. subst steps. rewrite Heq. by vm_compute.
Qed.

Lemma redundancy_union_over_sum_witness :
  exists m,
    compute_trajectory_metrics bare_os bare_ts ten_byte_lines
      [read_50; read_50; read_50] ∅ ∅ ∅ "/repo" None = Ok m
    /\ (g_line (redundancy m) == 1 - 50 / 150)%Q.
Proof.
  assert ([read_50; read_50; read_50] <> []) as Hne by done.
  destruct (redundancy_union_over_sum bare_os bare_ts ten_byte_lines
              [read_50; read_50; read_50] ∅ ∅ ∅ "/repo" None bare_ts_ready Hne)
    as (m & Hm & _ & _ & _ & _ & _ & _ & Hc).
  exists m. split; [exact Hm | by apply Hc].
Defined.

(** C10: at the line granularity the gold-empty convention is inverted:
    [compute_granularity_metrics] returns line coverage and precision [0.0]
    whenever [pred_lines] or [gold_lines] is [None], and
    [compute_trajectory_metrics] reports per-step line coverage [0.0] for
    every step when the gold line-span map is empty; at the file, symbol
    and span granularities an empty gold gives coverage [1.0]. *)
Theorem line_gold_empty_inverted os ts core (steps : list Step)
    pred_files pred_defs pred_spans pred_lines
    gold_files gold_symbols gold_spans repo_dir gold_lines :
  parsers_ready ts ->
  let final :=
    compute_granularity_metrics core pred_files pred_defs pred_spans
      gold_files gold_symbols gold_spans pred_lines gold_lines in
  (pred_lines = None \/ gold_lines = None ->
     coverage (g_line final) = 0%Q /\ precision (g_line final) = 0%Q)
  /\ (gold_files = ∅ -> coverage (g_file final) = 1%Q)
  /\ (gold_symbols = ∅ -> coverage (g_symbol final) = 1%Q)
  /\ (gold_spans = ∅ -> coverage (g_span final) = 1%Q)
  /\ exists m,
       compute_trajectory_metrics os ts core steps gold_files gold_symbols
         gold_spans repo_dir gold_lines = Ok m
       /\ List.length (Compute.steps m) = List.length steps
       /\ (gold_lines = None \/ gold_lines = Some ∅ ->
             Forall (fun s => g_line (step_coverage s) = 0%Q) (Compute.steps m))
       /\ (gold_files = ∅ ->
             Forall (fun s => g_file (step_coverage s) = 1%Q) (Compute.steps m))
       /\ (gold_symbols = ∅ ->
             Forall (fun s => g_symbol (step_coverage s) = 1%Q) (Compute.steps m))
       /\ (gold_spans = ∅ ->
             Forall (fun s => g_span (step_coverage s) = 1%Q) (Compute.steps m)).
Proof.
  intros Hready final. subst final.
  split.
  { unfold compute_granularity_metrics. cbn [g_line].
    intros [-> | ->]; [done|]. by destruct pred_lines. }
  split.
  { intros ->. unfold compute_granularity_metrics, gran, coverage_precision_Z,
      coverage_precision. cbn [g_file]. by rewrite !Qpos_inject_Z. }
  split.
  { intros ->. unfold compute_granularity_metrics, gran, coverage_precision_Z,
      coverage_precision. cbn [g_symbol]. by rewrite !Qpos_inject_Z. }
  split.
  { intros ->. unfold compute_granularity_metrics, gran, coverage_precision_Z,
      coverage_precision. cbn [g_span]. unfold span_total_bytes at 2.
      rewrite sum_values_empty. by rewrite !Qpos_inject_Z. }
  eexists. split; [by apply compute_trajectory_metrics_spec|].
  assert (forall (P : Granular Q -> Prop),
            (forall u, P (coverage_of core gold_files gold_symbols gold_spans
                            (default ∅ gold_lines) u)) ->
            forall t u l, Forall (fun s => P (step_coverage s))
              (entries os ts core gold_files gold_symbols gold_spans repo_dir
                 (default ∅ gold_lines) t u l)) as Hall.
  { intros P HP t u l. revert t u.
    induction l as [|s l IH]; intros t u; simpl; constructor; [apply HP | apply IH]. }
  destruct steps as [|s0 steps0]; [by repeat split|].
  unfold metrics_of. cbn [Compute.steps]. split; [by rewrite length_entries|].
  split.
  { intros Hg. apply (Hall (fun c => g_line c = 0%Q)). intros u.
    unfold coverage_of, coverage_at. cbn [g_line].
    by destruct Hg as [-> | ->]. }
  split.
  { intros ->. apply (Hall (fun c => g_file c = 1%Q)). intros u.
    unfold coverage_of, coverage_at. by cbn [g_file]. }
  split.
  { intros ->. apply (Hall (fun c => g_symbol c = 1%Q)). intros u.
    unfold coverage_of, coverage_at. by cbn [g_symbol]. }
  intros ->. apply (Hall (fun c => g_span c = 1%Q)). intros u.
  unfold coverage_of, coverage_at. cbn [g_span]. unfold span_total_bytes.
  by rewrite sum_values_empty.
Qed.

Lemma line_gold_empty_inverted_witness :
  exists m,
    compute_trajectory_metrics bare_os bare_ts ten_byte_lines
      [read_50] ∅ ∅ ∅ "/repo" (Some ∅) = Ok m
    /\ Forall (fun s => g_line (step_coverage s) = 0%Q) (Compute.steps m)
    /\ Forall (fun s => g_file (step_coverage s) = 1%Q) (Compute.steps m).
Proof.
  destruct (line_gold_empty_inverted bare_os bare_ts ten_byte_lines
              [read_50] ∅ ∅ ∅ None ∅ ∅ ∅ "/repo" (Some ∅) bare_ts_ready)
    as (_ & _ & _ & _ & m & Hm & _ & Hline & Hfile & _).
  exists m. split; [exact Hm|]. split; [apply Hline; by right | by apply Hfile].
Defined.

End TrajectoryClaims.

(* ===================================================================== *)
(** ** The evaluation driver                                             *)
(* ===================================================================== *)

Module EvaluateClaims.
Import PyStr Traj Parse LineIntervals TreeSitter Metrics Compute Resolver Evaluate World.
Import Vocabulary Scenarios MetricsFacts MapFacts ExtractorFacts TrajectoryFacts TrajectoryClaims.

Lemma parse_trajectory_no_steps td :
  pred_steps td = [] -> parse_trajectory td = ([final_of td], ([0%nat], 0%nat)).
Proof. intros H. unfold parse_trajectory. by rewrite H. Qed.

Lemma len_pos_nonempty `{Countable A} (X : gset A) :
  bool_decide (0 < len X) = bool_decide (X <> ∅).
Proof.
  apply bool_decide_ext. unfold len.
  rewrite <- (leibniz_equiv_iff X ∅), <- size_non_empty_iff. lia.
Qed.

(** Coverage against gold as [coverage_precision] computes it is the
    coverage of the trajectory loop. *)
Lemma coverage_precision_cov `{Countable A} (X G : gset A) :
  (coverage_precision_Z (len X) (len G) (len (X ∩ G))).1 =
    if decide (G = ∅) then 1%Q else div (len (X ∩ G)) (len G).
Proof.
  unfold coverage_precision_Z, coverage_precision. cbn [fst].
  rewrite Qpos_inject_Z, len_pos_nonempty.
  destruct (decide (G = ∅)) as [->|Hne].
  - by rewrite bool_decide_eq_false_2 by (by intros ?).
  - by rewrite bool_decide_eq_true_2.
Qed.

Lemma coverage_gran pred gold inter :
  coverage (gran pred gold inter) = (coverage_precision_Z pred gold inter).1.
Proof. unfold gran. by destruct (coverage_precision_Z pred gold inter). Qed.

(** C9: when [pred_steps] is empty, [parse_trajectory] returns the final
    step as the single trajectory step, so an instance with no exploration
    steps and a non-empty final context is scored as a one-step trajectory
    that is its final context, not as a zero-step trajectory with AUC
    [0.0]. *)
Theorem empty_pred_steps_fallback os ts core dp instance_id gold pred_data repo_dir :
  parsers_ready ts ->
  pred_steps (traj_data pred_data) = [] ->
  parse_trajectory (traj_data pred_data)
    = ([final_of (traj_data pred_data)], ([0%nat], 0%nat))
  /\ exists row final_seen,
       evaluate_instance os ts core dp instance_id gold pred_data repo_dir = Ok row
       /\ final_seen =
            _filter_step_to_repo os
              (_filter_step_to_repo os (final_of (traj_data pred_data)) repo_dir)
              repo_dir
       /\ (error row = None <-> has_context final_seen)
       /\ (has_context final_seen ->
             num_steps row = 1
             /\ exists m fm,
                  trajectory row = Some m /\ final row = Some fm
                  /\ compute_trajectory_metrics os ts core [final_seen]
                       (list_to_set (gold_files gold))
                       (match extract_def_set_in_spans os ts
                                (gold_byte_spans gold repo_dir) repo_dir with
                        | Ok defs => defs
                        | RuntimeError => ∅
                        end)
                       (gold_byte_spans gold repo_dir) repo_dir
                       (Some (gold_line_spans_init gold)) = Ok m
                  /\ List.length (Compute.steps m) = 1%nat
                  /\ (g_file (auc_coverage m) == coverage (g_file fm))%Q
                  /\ (g_symbol (auc_coverage m) == coverage (g_symbol fm))%Q).
Proof.
  intros Hready Hnil.
  pose proof (parse_trajectory_no_steps _ Hnil) as Hparse.
  split; [exact Hparse|].
  unfold evaluate_instance. rewrite Hparse.
  cbn [fold_left filter_in_place lookup list_lookup insert list_insert deref
       default from_option id].
  set (F := _filter_step_to_repo os (_filter_step_to_repo os _ repo_dir) repo_dir).
  destruct (extract_def_set_in_spans_ok os ts Hready
              (gold_byte_spans gold repo_dir) repo_dir) as [gsyms Hgs].
  rewrite Hgs. cbn [mbind Exc_bind bindE].
  assert (exists fsyms,
    final_symbols_of os ts F repo_dir (_step_to_byte_spans os core F repo_dir)
      = Ok fsyms
    /\ symbols_seen os ts core repo_dir F = fsyms) as (fsyms & Hfs & Hseen).
  { unfold final_symbols_of, symbols_seen, step_symbols_of.
    destruct (symbols F) as [|x l].
    - destruct (extract_def_set_in_spans_ok os ts Hready
                  (_step_to_byte_spans os core F repo_dir) repo_dir) as [d Hd].
      rewrite Hd. by exists d.
    - destruct (extract_def_set_from_symbol_names_ok os ts Hready
                  (x :: l) repo_dir) as [d Hd].
      rewrite Hd. by exists d. }
  change (List.map (deref [F]) [0%nat]) with [F].
  rewrite Hfs. cbn [mbind Exc_bind bindE].
  rewrite (compute_trajectory_metrics_spec os ts core [F] _ _ _ _ _ Hready).
  cbn [mbind Exc_bind bindE].
  destruct (files F) as [|f fs] eqn:Hfiles; [destruct (spans F) as [|sp sps] eqn:Hspans|].
  - eexists _, F. split; [done|]. split; [done|].
    unfold has_context. rewrite Hfiles, Hspans.
    split; [split; [done | by intros [?|?]] | by intros [?|?]].
  - eexists _, F. split; [done|]. split; [done|].
    unfold has_context. rewrite Hfiles, Hspans.
    split; [split; [by right | done]|]. intros _. split; [done|].
    eexists _, _. split; [done|]. split; [done|].
    split; [by apply compute_trajectory_metrics_spec|].
    unfold metrics_of. cbn [Compute.steps entries List.length auc_coverage g_file g_symbol].
    split; [done|].
    unfold auc_of. cbn [List.map step_coverage]. rewrite !sumQ_single.
    unfold compute_granularity_metrics. cbn [g_file g_symbol].
    rewrite !coverage_gran, !coverage_precision_cov.
    unfold coverage_of, coverage_at.
    cbn [g_file g_symbol observe seen_files seen_symbols seen0].
    rewrite Hseen, !(left_id_L ∅ (∪)), Hfiles. split; reflexivity.
  - eexists _, F. split; [done|]. split; [done|].
    unfold has_context. rewrite Hfiles.
    split; [split; [by left | done]|]. intros _. split; [done|].
    eexists _, _. split; [done|]. split; [done|].
    split; [by apply compute_trajectory_metrics_spec|].
    unfold metrics_of. cbn [Compute.steps entries List.length auc_coverage g_file g_symbol].
    split; [done|].
    unfold auc_of. cbn [List.map step_coverage]. rewrite !sumQ_single.
    unfold compute_granularity_metrics. cbn [g_file g_symbol].
    rewrite !coverage_gran, !coverage_precision_cov.
    unfold coverage_of, coverage_at.
    cbn [g_file g_symbol observe seen_files seen_symbols seen0].
    rewrite Hseen, !(left_id_L ∅ (∪)), Hfiles. split; reflexivity.
Qed.

Lemma empty_pred_steps_fallback_witness :
  exists row,
    evaluate_instance one_file_os bare_ts ten_byte_lines (diff_table [])
      "i-1" gold_a final_only "/repo" = Ok row
    /\ num_steps row = 1.
Proof.
  destruct (empty_pred_steps_fallback one_file_os bare_ts ten_byte_lines
              (diff_table []) "i-1" gold_a final_only "/repo"
              bare_ts_ready eq_refl)
    as (_ & row & final_seen & Hrow & Hseen & _ & Hscore).
  exists row. split; [exact Hrow|].
  apply Hscore. rewrite Hseen. left. by vm_compute.
Defined.

End EvaluateClaims.

(* ===================================================================== *)
(** ** EditLoc                                                           *)
(* ===================================================================== *)

Module EditLocClaims.
Import PyStr Traj Parse LineIntervals TreeSitter Metrics Compute Evaluate World.
Import Vocabulary Scenarios MetricsFacts LineIntervalsFacts MapFacts LineSetFacts.

Lemma elem_of_range_incl p a b : p ∈ range_incl a b <-> a <= p <= b.
Proof. unfold range_incl. rewrite elem_of_seqZ. lia. Qed.

Lemma elem_of_lines_listed p ivs : p ∈ lines_listed ivs <-> covered p ivs.
Proof.
  unfold lines_listed, covered. rewrite list_elem_of_In, in_flat_map. split.
  - intros ([a b] & Hin & Hp). exists (a, b).
    apply list_elem_of_In in Hin. apply list_elem_of_In, elem_of_range_incl in Hp.
    done.
  - intros ([a b] & Hin & Hp). exists (a, b).
    rewrite <- !list_elem_of_In. split; [done|]. by apply elem_of_range_incl.
Qed.

Lemma NoDup_lines_listed ivs :
  StronglySorted no_common_line ivs -> NoDup (lines_listed ivs).
Proof.
  induction 1 as [|[a b] l Hs IH Hall]; [constructor|].
  unfold lines_listed. simpl. apply NoDup_app. split; [apply NoDup_seqZ|].
  split; [|exact IH].
  intros p Hp1 Hp2. apply elem_of_range_incl in Hp1.
  apply elem_of_lines_listed in Hp2 as (iv & Hiv & Hp2).
  rewrite Forall_forall in Hall. by apply (Hall iv Hiv p).
Qed.

Lemma edit_pred_lines_unfold edits :
  edit_pred_lines edits = flat_map file_entries (map_to_list edits).
Proof.
  unfold edit_pred_lines. apply flat_map_ext. intros [f ivs].
  unfold file_entries, lines_listed. simpl.
  induction ivs as [|[a b] ivs IH]; [done|].
  simpl. rewrite fmap_app. by rewrite <- IH.
Qed.

Lemma elem_of_edit_pred_lines edits f p :
  (f, p) ∈ edit_pred_lines edits <-> covered p (get_list edits f).
Proof.
  rewrite edit_pred_lines_unfold, list_elem_of_In, in_flat_map. split.
  - intros ([g ivs] & Hin & Hp).
    apply list_elem_of_In, elem_of_map_to_list in Hin.
    apply list_elem_of_In, list_elem_of_fmap in Hp as (q & [= -> ->] & Hq).
    simpl in *. unfold get_list. rewrite Hin. by apply elem_of_lines_listed.
  - unfold get_list. destruct (edits !! f) as [ivs|] eqn:Hf.
    + intros Hc. exists (f, ivs). rewrite <- !list_elem_of_In. split.
      * by apply elem_of_map_to_list.
      * apply list_elem_of_fmap. exists p. split; [done|].
        by apply elem_of_lines_listed.
    + by intros ?%covered_nil.
Qed.

Lemma NoDup_flat_map_entries (l : list (string * list LineInterval)) :
  NoDup (l.*1) ->
  Forall (fun kv => StronglySorted no_common_line kv.2) l ->
  NoDup (flat_map file_entries l).
Proof.
  induction l as [|[f ivs] l IH]; intros Hk Hd; [constructor|].
  apply NoDup_cons in Hk as [Hf Hk]. apply Forall_cons in Hd as [Hivs Hd].
  simpl. apply NoDup_app. split.
  - apply NoDup_fmap_2; [by intros ?? [=] | by apply NoDup_lines_listed].
  - split; [|by apply IH].
    intros [g p] H1 H2. apply list_elem_of_fmap in H1 as (q & [= -> ->] & _).
    apply list_elem_of_In, in_flat_map in H2 as ([g ivs'] & Hin & Hp).
    apply list_elem_of_In, list_elem_of_fmap in Hp as (q' & [= <- ->] & _).
    apply Hf. apply list_elem_of_fmap. exists (f, ivs'). split; [done|].
    by apply list_elem_of_In.
Qed.

Lemma NoDup_edit_pred_lines edits :
  disjoint_edits edits -> NoDup (edit_pred_lines edits).
Proof.
  intros Hd. rewrite edit_pred_lines_unfold. apply NoDup_flat_map_entries.
  - apply NoDup_fst_map_to_list.
  - rewrite Forall_forall. intros [f ivs] Hin.
    apply elem_of_map_to_list in Hin. by apply (Hd f ivs).
Qed.

Lemma in_gold_covered ranges p : in_gold ranges p = true <-> covered p ranges.
Proof.
  unfold in_gold, covered. rewrite existsb_exists. split.
  - intros ([a b] & Hin & Hp). exists (a, b).
    apply list_elem_of_In in Hin. apply andb_true_iff in Hp as [H1 H2].
    apply bool_decide_eq_true in H1, H2. done.
  - intros ([a b] & Hin & Hp). exists (a, b).
    rewrite <- list_elem_of_In. split; [done|].
    apply andb_true_iff. rewrite !bool_decide_eq_true. simpl in Hp. lia.
Qed.

(** With disjoint ranges the two counters of the EditLoc block are the
    number of deleted lines and the number of those inside gold. *)
Lemma editloc_counts edits gold_spans :
  disjoint_edits edits ->
  el_pred_size (editloc_of edits gold_spans) = len (file_lines edits)
  /\ el_intersection (editloc_of edits gold_spans) =
       len (file_lines edits ∩ file_lines gold_spans).
Proof.
  intros Hd. pose proof (NoDup_edit_pred_lines edits Hd) as Hnd.
  unfold editloc_of. cbn [el_pred_size el_intersection]. unfold len. split.
  - rewrite <- (size_list_to_set (C:=gset (string * Z))) by done.
    do 2 f_equal. apply set_eq. intros [f p].
    by rewrite elem_of_list_to_set, elem_of_edit_pred_lines, elem_of_file_lines,
      elem_of_lines_of.
  - unfold edit_pred_lines_in_gold.
    rewrite <- (size_list_to_set (C:=gset (string * Z)))
      by (apply NoDup_ListNoDup, List.NoDup_filter, NoDup_ListNoDup, Hnd).
    do 2 f_equal. apply set_eq. intros [f p].
    rewrite elem_of_list_to_set, list_elem_of_In, filter_In, <- list_elem_of_In.
    rewrite elem_of_intersection, elem_of_edit_pred_lines, in_gold_covered.
    by rewrite !elem_of_file_lines, !elem_of_lines_of.
Qed.

Lemma is_empty_false' s : s <> EmptyString -> is_empty s = false.
Proof. by destruct s. Qed.

(** C6: for an instance with a non-empty diff, EditLoc considers the
    deleted lines only and reports recall = precision = (deleted lines
    inside a gold range) / (deleted lines), both [0.0] when the diff deletes
    no line; deleting lines 12-14 inside gold range 10-20 scores [1.0] and
    deleting lines 30-31 outside every gold range scores [0.0]. *)
Theorem editloc_hit_rate dp gold pred_data :
  let edits := parse_diff_lines dp (patch_of gold pred_data) true in
  let deleted := file_lines edits in
  let hits := deleted ∩ file_lines (gold_line_spans_init gold) in
  patch_of gold pred_data <> EmptyString ->
  disjoint_edits edits ->
  exists e,
    editloc_block dp gold pred_data = Some e
    /\ el_pred_size e = len deleted
    /\ el_intersection e = len hits
    /\ recall e =
         (if bool_decide (len deleted > 0)
          then (inject_Z (len hits) / inject_Z (len deleted))%Q else 0%Q)
    /\ el_precision e = recall e
    /\ (len deleted = 0 -> recall e = 0%Q /\ el_precision e = 0%Q)
    /\ (forall f, edits = {[f := [(12, 14)]]} ->
          gold_line_spans_init gold = {[f := [(10, 20)]]} ->
          (recall e == 1 /\ el_precision e == 1)%Q)
    /\ (forall f, edits = {[f := [(30, 31)]]} ->
          gold_line_spans_init gold = {[f := [(10, 20)]]} ->
          (recall e == 0 /\ el_precision e == 0)%Q).
Proof.
  intros edits deleted hits Hpatch Hdisj.
  exists (editloc_of edits (gold_line_spans_init gold)).
  split.
  { unfold editloc_block. fold (patch_of gold pred_data).
    apply is_empty_false' in Hpatch. by rewrite Hpatch. }
  destruct (editloc_counts edits (gold_line_spans_init gold) Hdisj) as [Hp Hi].
  split; [exact Hp|]. split; [exact Hi|].
  assert (recall (editloc_of edits (gold_line_spans_init gold)) =
          (if bool_decide (len deleted > 0)
           then (inject_Z (len hits) / inject_Z (len deleted))%Q else 0%Q)) as Hr.
  { unfold editloc_of in *. cbn [recall el_pred_size el_intersection] in *.
    by rewrite Hp, Hi. }
  split; [exact Hr|]. split; [done|].
  split.
  { intros H0. rewrite Hr at 1.
    assert (el_precision (editloc_of edits (gold_line_spans_init gold)) =
            recall (editloc_of edits (gold_line_spans_init gold))) as -> by done.
    rewrite Hr. rewrite bool_decide_eq_false_2 by lia. done. }
  split.
  - intros f -> ->. unfold editloc_of. cbn [recall el_precision].
    unfold edit_pred_lines, edit_pred_lines_in_gold.
    rewrite map_to_list_singleton. cbn [flat_map app].
    change (range_incl 12 14) with [12; 13; 14].
    cbn [List.map]. unfold get_list. rewrite !app_nil_r. cbn [List.filter].
    rewrite !lookup_singleton_eq. by vm_compute.
  - intros f -> ->. unfold editloc_of. cbn [recall el_precision].
    unfold edit_pred_lines, edit_pred_lines_in_gold.
    rewrite map_to_list_singleton. cbn [flat_map app].
    change (range_incl 30 31) with [30; 31].
    cbn [List.map]. unfold get_list. rewrite !app_nil_r. cbn [List.filter].
    rewrite !lookup_singleton_eq. by vm_compute.
Qed.

Lemma editloc_hit_rate_witness :
  exists e,
    editloc_block scenario_d_dp scenario_d_gold scenario_d_pred = Some e
    /\ (recall e == 1 /\ el_precision e == 1)%Q.
Proof.
  assert (patch_of scenario_d_gold scenario_d_pred <> EmptyString) as Hpatch
    by (by vm_compute).
  assert (parse_diff_lines scenario_d_dp
            (patch_of scenario_d_gold scenario_d_pred) true
          = {["f.py" := [(12, 14)]]}) as Hedits by reflexivity.
  assert (disjoint_edits (parse_diff_lines scenario_d_dp
            (patch_of scenario_d_gold scenario_d_pred) true)) as Hdisj.
  { rewrite Hedits. apply map_Forall_singleton. repeat constructor. }
  destruct (editloc_hit_rate scenario_d_dp scenario_d_gold scenario_d_pred
              Hpatch Hdisj) as (e & He & _ & _ & _ & _ & _ & Hin & _).
  exists e. split; [exact He|]. by apply (Hin "f.py").
Defined.

(** *** Aggregation *)

(** C8 (the code departs from it): [aggregate_results] passes the summed
    [gold_size] to [coverage_precision], so the aggregated EditLoc recall is
    the sum of the hits over the sum of the gold line counts, not over the
    sum of the deleted-line counts.  On the one row of Scenario D the
    instance has recall 3/3 and the aggregate has recall 3/11. *)
Theorem aggregate_editloc_recall_over_gold_size :
  (recall scenario_d_editloc == 1)%Q
  /\ el_intersection scenario_d_editloc = 3
  /\ el_pred_size scenario_d_editloc = 3
  /\ el_gold_size scenario_d_editloc = 11
  /\ exists agg_recall agg_precision,
       agg_editloc (aggregate_results [editloc_row scenario_d_editloc])
         = Some (agg_recall, agg_precision)
       /\ (agg_recall == 3 / 11)%Q
       /\ (agg_precision == 3 / 3)%Q
       /\ ~ (agg_recall == 3 / 3)%Q.
Proof.
  split; [by vm_compute|]. split; [by vm_compute|].
  split; [by vm_compute|]. split; [by vm_compute|].
  eexists _, _. split; [by vm_compute|].
  split; [by vm_compute|]. split; by vm_compute.
Qed.

(** In general the aggregated pair is [coverage_precision] of the three
    sums, whose first component divides by the summed [gold_size]. *)
Lemma aggregate_editloc_general (results : list Result) :
  let valid := List.filter (fun r => negb (is_some (error r))) results in
  existsb (fun r => is_some (editloc r)) valid = true ->
  agg_editloc (aggregate_results results) =
    Some (coverage_precision_Z
            (sumZ (List.map (editloc_field el_pred_size) valid))
            (sumZ (List.map (editloc_field el_gold_size) valid))
            (sumZ (List.map (editloc_field el_intersection) valid))).
Proof.
  intros valid Hex. unfold aggregate_results. fold valid.
  destruct valid as [|r valid']; [done|].
  cbn [agg_editloc]. by rewrite Hex.
Qed.

End EditLocClaims.

(* ===================================================================== *)
(** ** Definitions touched by spans                                      *)
(* ===================================================================== *)

Module ExtractorClaims.
Import PyStr TreeSitter World Vocabulary Scenarios ExtractorFacts.

Lemma class_ts_ready : parsers_ready class_ts.
Proof. by split. Qed.

Lemma file_defs_class :
  file_defs class_os class_ts "/repo" "m.py" =
    [("class_definition", 0, 100); ("function_definition", 10, 50)].
Proof. by vm_compute. Qed.

(** C5 as stated fails: a span lying inside a method also touches the class
    around it, and both records are returned. *)
Lemma span_inside_method_two_records :
  ("function_definition", 10, 50) ∈ file_defs class_os class_ts "/repo" "m.py"
  /\ 10 <= 20 /\ 30 <= 50
  /\ exists result,
       extract_def_set_in_spans class_os class_ts {["m.py" := [(20, 30)]]} "/repo"
         = Ok result
       /\ ("m.py", "function_definition", 10, 50) ∈ result
       /\ ("m.py", "class_definition", 0, 100) ∈ result
       /\ result <> {[("m.py", "function_definition", 10, 50)]}.
Proof.
  split; [rewrite file_defs_class, !elem_of_cons; auto|].
  split; [lia|]. split; [lia|].
  destruct (extract_def_set_in_spans_spec class_os class_ts class_ts_ready
              {["m.py" := [(20, 30)]]} "/repo") as (result & Hres & Hin).
  exists result. split; [exact Hres|].
  assert (("m.py", "function_definition", 10, 50) ∈ result) as Hf.
  { apply Hin. rewrite file_defs_class. split; [rewrite !elem_of_cons; auto|].
    exists [(20, 30)], (20, 30). split; [apply lookup_singleton_eq|].
    split; [by left | done]. }
  assert (("m.py", "class_definition", 0, 100) ∈ result) as Hc.
  { apply Hin. rewrite file_defs_class. split; [rewrite !elem_of_cons; auto|].
    exists [(20, 30)], (20, 30). split; [apply lookup_singleton_eq|].
    split; [by left | done]. }
  split; [exact Hf|]. split; [exact Hc|].
  intros Heq. rewrite Heq in Hc. clear -Hc.
  apply elem_of_singleton in Hc. discriminate Hc.
Qed.

(** C5, amended: with the parsers in place, [extract_def_set_in_spans]
    returns only definition records of the requested files, and among them
    every one that shares a byte with some requested interval (touch, not
    containment); a returned definition that has at least one byte shares a
    byte with a requested interval of its file, a definition and an
    interval one of which ends exactly where the other starts being left
    aside.  A span inside a function yields the record of that function
    whatever the length of the span, and only that record when no other
    definition of the file touches or abuts the span.  This holds for both
    readings of the end of a requested interval. *)
Theorem extract_def_set_in_spans_touch os ts
    (spans : gmap string (list ByteInterval)) repo_dir (closed : bool) :
  parsers_ready ts ->
  exists result,
    extract_def_set_in_spans os ts spans repo_dir = Ok result
    /\ (forall f kind s e,
          (f, kind, s, e) ∈ result ->
          (kind, s, e) ∈ file_defs os ts repo_dir f /\ is_Some (spans !! f))
    /\ (forall f kind s e ivs iv,
          (kind, s, e) ∈ file_defs os ts repo_dir f ->
          spans !! f = Some ivs -> iv ∈ ivs ->
          shares_byte closed (kind, s, e) iv ->
          (f, kind, s, e) ∈ result)
    /\ (forall f kind s e ivs,
          (f, kind, s, e) ∈ result -> spans !! f = Some ivs -> s < e ->
          Forall (fun iv => (exists b, span_byte closed iv b)
                            /\ ~ abuts (kind, s, e) iv) ivs ->
          exists iv, iv ∈ ivs /\ shares_byte closed (kind, s, e) iv)
    /\ (forall f iv kind s e,
          spans = {[f := [iv]]} ->
          (kind, s, e) ∈ file_defs os ts repo_dir f ->
          inside closed iv (kind, s, e) ->
          (f, kind, s, e) ∈ result
          /\ ((forall d, d ∈ file_defs os ts repo_dir f -> d <> (kind, s, e) ->
                 d.1.2 < d.2 /\ ~ shares_byte closed d iv /\ ~ abuts d iv) ->
              result = {[(f, kind, s, e)]})).
Proof.
  intros Hready.
  destruct (extract_def_set_in_spans_spec os ts Hready spans repo_dir)
    as (result & Hres & Hin).
  exists result. split; [exact Hres|].
  assert (forall f kind s e ivs iv,
    (kind, s, e) ∈ file_defs os ts repo_dir f ->
    spans !! f = Some ivs -> iv ∈ ivs ->
    shares_byte closed (kind, s, e) iv ->
    (f, kind, s, e) ∈ result) as Hcomplete.
  { intros f kind s e ivs iv Hd Hm Hiv Hsh. apply Hin. split; [done|].
    exists ivs, iv. split; [done|]. split; [done|].
    by apply (shares_byte_overlaps closed kind). }
  assert (forall f kind s e ivs,
    (f, kind, s, e) ∈ result -> spans !! f = Some ivs -> s < e ->
    Forall (fun iv => (exists b, span_byte closed iv b)
                      /\ ~ abuts (kind, s, e) iv) ivs ->
    exists iv, iv ∈ ivs /\ shares_byte closed (kind, s, e) iv) as Hsound.
  { intros f kind s e ivs Hx Hm Hse Hall.
    apply Hin in Hx as (Hd & ivs' & iv & Hm' & Hiv & Ho).
    rewrite Hm in Hm'. injection Hm' as <-.
    rewrite Forall_forall in Hall. destruct (Hall iv Hiv) as [Hne Hab].
    exists iv. split; [done|]. by apply overlaps_shares_byte. }
  split.
  { intros f kind s e Hx. apply Hin in Hx as (Hd & ivs & iv & Hm & _).
    split; [done | by eexists]. }
  split; [exact Hcomplete|]. split; [exact Hsound|].
  intros f iv kind s e -> Hd [[b0 Hb0] Hsub].
  assert ((f, kind, s, e) ∈ result) as Hmem.
  { apply (Hcomplete f kind s e [iv] iv Hd (lookup_singleton_eq _ _)).
    - left.
    - exists b0. split; [by apply Hsub | done]. }
  split; [exact Hmem|].
  intros Honly. apply set_eq. intros [[[g k] s'] e'].
  rewrite elem_of_singleton. split.
  - intros Hx.
    assert ((k, s', e') ∈ file_defs os ts repo_dir g
            /\ ({[f := [iv]]} : gmap string (list ByteInterval)) !! g = Some [iv])
      as [Hd' Hm].
    { apply Hin in Hx as (Hd' & ivs & iv' & Hm & Hiv' & _).
      pose proof Hm as Hm2. apply lookup_singleton_Some in Hm2 as [<- <-].
      done. }
    pose proof Hm as Hm2. apply lookup_singleton_Some in Hm2 as [<- _].
    destruct (decide ((k, s', e') = (kind, s, e))) as [[= -> -> ->]|Hne]; [done|].
    exfalso. destruct (Honly (k, s', e') Hd' Hne) as (Hlt & Hnsh & Hnab).
    destruct (Hsound f k s' e' [iv] Hx Hm Hlt) as (iv' & Hiv' & Hsh).
    { repeat constructor; [by exists b0 | done]. }
    apply list_elem_of_singleton in Hiv' as ->. done.
  - by intros [= -> -> -> ->].
Qed.

Lemma extract_def_set_in_spans_touch_witness :
  exists result,
    extract_def_set_in_spans class_os class_ts {["m.py" := [(20, 30)]]} "/repo"
      = Ok result
    /\ ("m.py", "function_definition", 10, 50) ∈ result.
Proof.
  destruct (extract_def_set_in_spans_touch class_os class_ts
              {["m.py" := [(20, 30)]]} "/repo" false class_ts_ready)
    as (result & Hres & _ & _ & _ & Hone).
  exists result. split; [exact Hres|].
  apply (Hone "m.py" (20, 30) "function_definition" 10 50 eq_refl).
  - rewrite file_defs_class, !elem_of_cons. auto.
  - split.
    + exists 20. unfold span_byte. simpl. lia.
    + intros b [H1 H2]. unfold def_byte. simpl in *. lia.
Defined.

(** The case left aside is not empty: the overlap test compares with the
    end offsets themselves, so the method at bytes 10 to 49 is returned for
    an interval that starts at offset 50, where the method has no byte. *)
Lemma abutting_definition_returned (closed : bool) :
  exists result,
    extract_def_set_in_spans class_os class_ts {["m.py" := [(50, 55)]]} "/repo"
      = Ok result
    /\ ("m.py", "function_definition", 10, 50) ∈ result
    /\ ~ shares_byte closed ("function_definition", 10, 50) (50, 55).
Proof.
  destruct (extract_def_set_in_spans_spec class_os class_ts class_ts_ready
              {["m.py" := [(50, 55)]]} "/repo") as (result & Hres & Hin).
  exists result. split; [exact Hres|]. split.
  - apply Hin. rewrite file_defs_class. split; [rewrite !elem_of_cons; auto|].
    exists [(50, 55)], (50, 55). split; [apply lookup_singleton_eq|].
    split; [by left | done].
  - intros (b & [H1 H2] & [H3 _]). simpl in *. lia.
Qed.

End ExtractorClaims.

(* ===================================================================== *)
(** ** The path resolver                                                 *)
(* ===================================================================== *)

Module ResolverClaims.
Import PyStr Traj Resolver World Vocabulary Scenarios.

Lemma is_repo_file_nonempty os repo_dir cand :
  _is_repo_file os repo_dir cand = true -> cand <> EmptyString.
Proof.
  intros H ->. unfold _is_repo_file in H. simpl in H.
  by rewrite orb_true_r in H.
Qed.



Lemma split_no_sep sep s : Forall (fun x => has_char sep x = false) (split sep s).
Proof.
  induction s as [|c s IH]; simpl; [by repeat constructor|].
  destruct (Ascii.eqb c sep) eqn:Hc.
  - by constructor.
  - destruct (split sep s) as [|w ws]; [by repeat constructor; simpl; rewrite Ascii.eqb_sym, Hc|].
    apply Forall_cons in IH as [Hw Hws]. constructor; [|done].
    simpl. by rewrite Ascii.eqb_sym, Hc.
Qed.





End ResolverClaims.

(* ===================================================================== *)
(** ** Line-interval intersection                                        *)
(* ===================================================================== *)

Module IntersectFacts.
Import PyStr Traj LineIntervals Compute Vocabulary.
Import LineIntervalsFacts MapFacts LineSetFacts.

(** One iteration of the sweep. *)
Lemma intersect_sweep_cons x a' y b' :
  intersect_sweep (x :: a') (y :: b') =
    (if bool_decide (Z.max x.1 y.1 <= Z.min x.2 y.2)
     then [(Z.max x.1 y.1, Z.min x.2 y.2)] else [])
    ++ (if bool_decide (x.2 < y.2) then intersect_sweep a' (y :: b')
        else if bool_decide (y.2 < x.2) then intersect_sweep (x :: a') b'
        else intersect_sweep a' b').
Proof. done. Qed.

Lemma intersect_sweep_nil_r a : intersect_sweep a [] = [].
Proof. by destruct a. Qed.

Lemma covered_overlap p (x y : LineInterval) :
  covered p (if bool_decide (Z.max x.1 y.1 <= Z.min x.2 y.2)
             then [(Z.max x.1 y.1, Z.min x.2 y.2)] else [])
  <-> (x.1 <= p <= x.2) /\ (y.1 <= p <= y.2).
Proof.
  case_bool_decide as H.
  - rewrite covered_cons. simpl. split.
    + intros [Hp|Hp%covered_nil]; [lia | done].
    + intros Hp. left. lia.
  - split; [by intros ?%covered_nil | lia].
Qed.

(** In a separated list everything after the head starts after the head
    ends. *)
Lemma covered_after_head p y l :
  StronglySorted separated (y :: l) -> covered p l -> y.2 + 1 < p.
Proof.
  intros Hs (b & Hb & Hp). apply StronglySorted_inv in Hs as [_ Hall].
  rewrite Forall_forall in Hall. destruct (Hall b Hb) as [_ Hgap]. lia.
Qed.

Lemma intersect_sweep_covered p a : forall b,
  StronglySorted separated a -> StronglySorted separated b ->
  covered p (intersect_sweep a b) <-> covered p a /\ covered p b.
Proof.
  induction a as [|x a' IHa]; intros b Ha Hb.
  { simpl. split; [by intros ?%covered_nil | by intros [?%covered_nil _]]. }
  induction b as [|y b' IHb].
  { rewrite intersect_sweep_nil_r.
    split; [by intros ?%covered_nil | by intros [_ ?%covered_nil]]. }
  pose proof (StronglySorted_inv Ha) as [Ha' _].
  pose proof (StronglySorted_inv Hb) as [Hb' _].
  rewrite intersect_sweep_cons, covered_app, covered_overlap.
  pose proof (covered_after_head p x a' Ha) as Hxa.
  pose proof (covered_after_head p y b' Hb) as Hyb.
  rewrite (covered_cons p x a'), (covered_cons p y b').
  case_bool_decide as H1; [|case_bool_decide as H2].
  - rewrite (IHa (y :: b') Ha' Hb), (covered_cons p y b').
    clear IHa IHb. naive_solver lia.
  - rewrite (IHb Hb'), (covered_cons p x a').
    clear IHa IHb. naive_solver lia.
  - rewrite (IHa b' Ha' Hb').
    clear IHa IHb. naive_solver lia.
Qed.

Lemma intersect_sweep_nondegenerate a : forall b,
  Forall nondegenerate (intersect_sweep a b).
Proof.
  induction a as [|x a' IHa]; intros b; [constructor|].
  induction b as [|y b' IHb]; [rewrite intersect_sweep_nil_r; constructor|].
  rewrite intersect_sweep_cons. apply Forall_app. split.
  - case_bool_decide; repeat constructor. done.
  - repeat case_bool_decide; [apply IHa | apply IHb | apply IHa].
Qed.

Lemma line_interval_intersect_covered p a b :
  covered p (_line_interval_intersect a b) <-> covered p a /\ covered p b.
Proof.
  unfold _line_interval_intersect.
  rewrite intersect_sweep_covered by apply merge_separated.
  by rewrite !merge_covered.
Qed.

Lemma lines_of_intersect a b :
  lines_of (_line_interval_intersect a b) = lines_of a ∩ lines_of b.
Proof.
  apply set_eq. intros p.
  by rewrite elem_of_intersection, !elem_of_lines_of, line_interval_intersect_covered.
Qed.

Lemma line_interval_intersect_size_eq a b :
  _line_interval_intersect_size a b = Z.of_nat (size (lines_of a ∩ lines_of b)).
Proof.
  unfold _line_interval_intersect_size.
  rewrite line_interval_length_size, lines_of_intersect; [done|].
  apply intersect_sweep_nondegenerate.
Qed.

(** X1: the sweep of [_line_interval_intersect] returns intervals with
    [start <= end] that cover exactly the lines covered by both arguments,
    so [_line_interval_intersect_size] is the number of common lines, for
    every pair of interval lists. *)
Theorem line_interval_intersect_common_lines (a b : list LineInterval) :
  (forall p, covered p (_line_interval_intersect a b) <-> covered p a /\ covered p b)
  /\ Forall nondegenerate (_line_interval_intersect a b)
  /\ _line_interval_intersect_size a b = Z.of_nat (size (lines_of a ∩ lines_of b)).
Proof.
  split; [intros p; apply line_interval_intersect_covered|].
  split; [apply intersect_sweep_nondegenerate|].
  apply line_interval_intersect_size_eq.
Qed.

(** X2: the size of the intersection does not depend on the order of the
    arguments, is never negative, and intersecting a list with itself gives
    the number of its lines. *)
Theorem line_interval_intersect_size_symmetric (a b : list LineInterval) :
  _line_interval_intersect_size a b = _line_interval_intersect_size b a
  /\ 0 <= _line_interval_intersect_size a b
  /\ _line_interval_intersect_size a a = Z.of_nat (size (lines_of a)).
Proof.
  rewrite !line_interval_intersect_size_eq. split.
  - by rewrite (comm_L (∩)).
  - split; [lia|]. by rewrite (idemp_L (∩)).
Qed.

(** X3: for intervals with [start <= end], [_line_interval_length] is the
    number of distinct lines covered, however the intervals overlap, and
    the intersection with any other list is at most that. *)
Theorem line_interval_length_counts_lines (x y : list LineInterval) :
  Forall nondegenerate x ->
  _line_interval_length x = Z.of_nat (size (lines_of x))
  /\ _line_interval_length (_merge_line_intervals x) = _line_interval_length x
  /\ _line_interval_intersect_size x y <= _line_interval_length x.
Proof.
  intros Hx. rewrite line_interval_intersect_size_eq.
  rewrite !line_interval_length_size, lines_of_merge;
    [|by apply merge_nondegenerate | done].
  split; [done|]. split; [done|].
  apply inj_le, subseteq_size. set_solver.
Qed.

Lemma line_interval_length_counts_lines_witness :
  _line_interval_length [(1, 5); (3, 8); (20, 20)] = 9.
Proof.
  assert (Forall nondegenerate [(1, 5); (3, 8); (20, 20)]) as Hx.
  { repeat constructor; unfold nondegenerate; simpl; lia. }
  destruct (line_interval_length_counts_lines [(1, 5); (3, 8); (20, 20)] [] Hx)
    as (_ & <- & _).
  reflexivity.
Defined.

End IntersectFacts.

(* ===================================================================== *)
(** ** Ratios, and the metrics of one comparison                         *)
(* ===================================================================== *)

Module RatioFacts.
Import Metrics Compute MetricsFacts.

Lemma div_pos_denominator i p : div i (Z.pos p) = (i * 1 # 1 * p)%Q.
Proof. done. Qed.

Lemma div_le_mono i j n : 0 < n -> i <= j -> (div i n <= div j n)%Q.
Proof.
  intros Hn Hij. destruct n as [|p|p]; try lia.
  rewrite !div_pos_denominator. unfold Qle. simpl. nia.
Qed.

Lemma div_nonneg i n : 0 <= i -> 0 < n -> (0 <= div i n)%Q.
Proof.
  intros Hi Hn. destruct n as [|p|p]; try lia.
  rewrite div_pos_denominator. unfold Qle. simpl. lia.
Qed.

Lemma div_le_1 i n : i <= n -> 0 < n -> (div i n <= 1)%Q.
Proof.
  intros Hi Hn. destruct n as [|p|p]; try lia.
  rewrite div_pos_denominator. unfold Qle. simpl. lia.
Qed.

Lemma div_eq_1 i n : 0 < n -> (div i n == 1)%Q <-> i = n.
Proof.
  intros Hn. destruct n as [|p|p]; try lia.
  rewrite div_pos_denominator. unfold Qeq. simpl. lia.
Qed.

Lemma div_eq_0 i n : 0 < n -> (div i n == 0)%Q <-> i = 0.
Proof.
  intros Hn. destruct n as [|p|p]; try lia.
  rewrite div_pos_denominator. unfold Qeq. simpl. lia.
Qed.

(** The two ratios of [coverage_precision] on integers. *)
Lemma coverage_precision_Z_eq pred gold inter :
  coverage_precision_Z pred gold inter =
    (if bool_decide (0 < gold) then div inter gold else 1%Q,
     if bool_decide (0 < pred) then div inter pred else 1%Q).
Proof.
  unfold coverage_precision_Z, coverage_precision.
  by rewrite !Qpos_inject_Z.
Qed.

Lemma gran_fields pred gold inter :
  gran pred gold inter =
    mkGranMetrics (if bool_decide (0 < gold) then div inter gold else 1%Q)
                  (if bool_decide (0 < pred) then div inter pred else 1%Q)
                  inter gold pred.
Proof. unfold gran. by rewrite coverage_precision_Z_eq. Qed.

Lemma ratio_or_one_bounds inter n :
  0 <= inter <= n ->
  (0 <= (if bool_decide (0 < n)%Z then div inter n else 1) <= 1)%Q.
Proof.
  intros [H0 Hn]. case_bool_decide; [|done].
  split; [by apply div_nonneg | by apply div_le_1].
Qed.

End RatioFacts.

Module DictFacts.
Import PyStr Traj LineIntervals Compute Vocabulary.
Import LineIntervalsFacts MapFacts LineSetFacts IntersectFacts.

Lemma lines_of_nil : lines_of [] = ∅.
Proof. done. Qed.

Lemma elem_of_lines_dom (d : gmap string (list LineInterval)) f p :
  p ∈ lines_of (get_list d f) -> f ∈ dom d.
Proof.
  unfold get_list. rewrite elem_of_dom.
  destruct (d !! f); [by eexists|]. simpl. rewrite lines_of_nil.
  by intros ?%not_elem_of_empty.
Qed.

(** The sum over a list of distinct files of the per-file common lines. *)
Lemma sum_common_lines (a b : gmap string (list LineInterval)) (l : list string) :
  NoDup l ->
  foldr (fun f acc =>
    _line_interval_intersect_size (get_list a f) (get_list b f) + acc) 0 l
  = Z.of_nat (size (⋃ ((fun f =>
      pairs_of f (lines_of (get_list a f) ∩ lines_of (get_list b f))) <$> l))).
Proof.
  induction 1 as [|f l Hf Hl IH]; [done|].
  cbn [foldr fmap list_fmap]. rewrite IH, union_list_cons, size_union.
  - rewrite size_pairs_of, line_interval_intersect_size_eq. lia.
  - intros [g p] H1 H2. apply elem_of_pairs_of in H1 as [-> _].
    apply elem_of_union_list in H2 as (X & HX & Hp).
    apply list_elem_of_fmap in HX as (f' & -> & Hf').
    apply elem_of_pairs_of in Hp as [-> _]. done.
Qed.

Lemma line_intersection_lines_size a b :
  line_intersection_lines a b = Z.of_nat (size (file_lines a ∩ file_lines b)).
Proof.
  unfold line_intersection_lines, sum_keys, set_fold. simpl.
  rewrite sum_common_lines by apply NoDup_elements.
  do 2 f_equal. apply set_eq. intros [f p].
  rewrite elem_of_union_list, elem_of_intersection, !elem_of_file_lines. split.
  - intros (X & HX & Hp). apply list_elem_of_fmap in HX as (f' & -> & Hf').
    apply elem_of_pairs_of in Hp as [-> Hp]. by apply elem_of_intersection in Hp.
  - intros [Ha Hb]. eexists. split.
    + apply list_elem_of_fmap. exists f. split; [done|].
      apply elem_of_elements, elem_of_union. left. by eapply elem_of_lines_dom.
    + apply elem_of_pairs_of. split; [done|]. by apply elem_of_intersection.
Qed.

Lemma line_intersection_lines_comm a b :
  line_intersection_lines a b = line_intersection_lines b a.
Proof. by rewrite !line_intersection_lines_size, (comm_L (∩)). Qed.

Lemma line_intersection_lines_common_pairs_aux a b :
  nondegenerate_map a ->
  line_total_lines a = Z.of_nat (size (file_lines a))
  /\ 0 <= line_intersection_lines a b <= line_total_lines a.
Proof.
  intros Ha. rewrite line_intersection_lines_size, (line_total_lines_size a Ha).
  split; [done|]. split; [lia|]. apply inj_le, subseteq_size. set_solver.
Qed.

(** X4: [line_intersection_lines] is the number of (file, line) pairs the
    two dicts have in common, whatever their keys and however their
    intervals overlap; it is symmetric, and for intervals with
    [start <= end] it is at most [line_total_lines] of either dict, which
    is the number of pairs of that dict. *)
Theorem line_intersection_lines_common_pairs
    (a b : gmap string (list LineInterval)) :
  line_intersection_lines a b = Z.of_nat (size (file_lines a ∩ file_lines b))
  /\ line_intersection_lines a b = line_intersection_lines b a
  /\ (nondegenerate_map a ->
        line_total_lines a = Z.of_nat (size (file_lines a))
        /\ 0 <= line_intersection_lines a b <= line_total_lines a).
Proof.
  rewrite !line_intersection_lines_size.
  split; [done|]. split; [by rewrite (comm_L (∩))|].
  intros Ha. rewrite (line_total_lines_size a Ha). split; [done|].
  split; [lia|]. apply inj_le, subseteq_size. set_solver.
Qed.

Lemma line_intersection_lines_common_pairs_witness :
  0 <= line_intersection_lines {["f.py" := [(12, 30)]]} {["f.py" := [(10, 20)]]}
    <= line_total_lines {["f.py" := [(12, 30)]]}.
Proof.
  assert (nondegenerate_map {["f.py" := [(12, 30)]]}) as Hnd.
  { apply map_Forall_singleton, Forall_cons.
    split; [unfold nondegenerate; simpl; lia | constructor]. }
  destruct (line_intersection_lines_common_pairs
              {["f.py" := [(12, 30)]]} {["f.py" := [(10, 20)]]}) as (_ & _ & H).
  exact (proj2 (H Hnd)).
Defined.

End DictFacts.

Module GranularityFacts.
Import PyStr Traj LineIntervals TreeSitter Metrics Compute Vocabulary.
Import MetricsFacts LineIntervalsFacts MapFacts LineSetFacts IntersectFacts.
Import RatioFacts DictFacts.

Lemma len_nonneg `{Countable A} (X : gset A) : 0 <= len X.
Proof. unfold len. lia. Qed.

Lemma len_inter_le `{Countable A} (X G : gset A) :
  len (X ∩ G) <= len G /\ len (X ∩ G) <= len X.
Proof. unfold len. split; apply inj_le, subseteq_size; set_solver. Qed.

Lemma len_zero `{Countable A} (X : gset A) : len X = 0 <-> X = ∅.
Proof.
  unfold len. rewrite <- (leibniz_equiv_iff X ∅), <- size_empty_iff. lia.
Qed.

(** The ratio against [G] is one exactly when [G] is contained. *)
Lemma ratio_one_iff_subset `{Countable A} (X G : gset A) :
  ((if bool_decide (0 < len G)%Z then div (len (X ∩ G)) (len G) else 1) == 1)%Q
  <-> G ⊆ X.
Proof.
  case_bool_decide as Hpos.
  - rewrite div_eq_1 by done. unfold len. split.
    + intros Heq. assert (X ∩ G = G) as <-; [|set_solver].
      apply set_subseteq_size_eq; [set_solver | lia].
    + intros Hsub. assert (X ∩ G = G) as -> by set_solver. done.
  - assert (G = ∅) as -> by (apply len_zero; pose proof (len_nonneg G); lia).
    split; [set_solver | done].
Qed.

(** The ratio against [G] is zero exactly when [G] is not empty and
    nothing of it is met. *)
Lemma ratio_zero_iff_disjoint `{Countable A} (X G : gset A) :
  ((if bool_decide (0 < len G)%Z then div (len (X ∩ G)) (len G) else 1) == 0)%Q
  <-> G <> ∅ /\ X ∩ G = ∅.
Proof.
  case_bool_decide as Hpos.
  - rewrite div_eq_0, len_zero by done. split; [|by intros [_ ?]].
    intros H0. split; [|done]. intros ->. unfold len in Hpos.
    rewrite size_empty in Hpos. lia.
  - split; [done|]. intros [Hne _]. exfalso. apply Hne, len_zero.
    pose proof (len_nonneg G). lia.
Qed.

Section OneComparison.
Variable core : Core.
Variables (pred_files gold_files : gset string) (pred_defs gold_defs : gset Def).
Variables pred_spans gold_spans : gmap string (list ByteInterval).
Variables pred_lines gold_lines : gmap string (list LineInterval).

Local Abbreviation final :=
  (compute_granularity_metrics core pred_files pred_defs pred_spans
     gold_files gold_defs gold_spans (Some pred_lines) (Some gold_lines)).

Lemma final_file :
  g_file final = gran (len pred_files) (len gold_files) (len (pred_files ∩ gold_files)).
Proof. done. Qed.

Lemma final_symbol :
  g_symbol final = gran (len pred_defs) (len gold_defs) (len (pred_defs ∩ gold_defs)).
Proof. done. Qed.

Lemma final_line :
  g_line final =
    gran (line_total_lines pred_lines) (line_total_lines gold_lines)
         (line_intersection_lines pred_lines gold_lines).
Proof. done. Qed.

(** X5: with line intervals of [start <= end], the file, symbol and line
    metrics of [compute_granularity_metrics] have an intersection between
    zero and both sizes, and coverage and precision between 0 and 1. *)
Theorem granularity_metrics_bounds (g : granularity) :
  nondegenerate_map pred_lines -> nondegenerate_map gold_lines ->
  g <> GSpan ->
  0 <= intersection (at_gran g final) <= gold_size (at_gran g final)
  /\ intersection (at_gran g final) <= pred_size (at_gran g final)
  /\ (0 <= coverage (at_gran g final) <= 1)%Q
  /\ (0 <= precision (at_gran g final) <= 1)%Q.
Proof.
  intros Hp Hg Hne.
  assert (forall pred gold inter,
    0 <= inter <= gold -> inter <= pred ->
    0 <= intersection (gran pred gold inter) <= gold_size (gran pred gold inter)
    /\ intersection (gran pred gold inter) <= pred_size (gran pred gold inter)
    /\ (0 <= coverage (gran pred gold inter) <= 1)%Q
    /\ (0 <= precision (gran pred gold inter) <= 1)%Q) as Hgran.
  { intros pred gold inter H1 H2. rewrite gran_fields.
    cbn [intersection gold_size pred_size coverage precision].
    split; [done|]. split; [done|].
    split; apply ratio_or_one_bounds; lia. }
  destruct g; [| | done |]; cbn [at_gran].
  - rewrite final_file. apply Hgran.
    + pose proof (len_inter_le pred_files gold_files).
      pose proof (len_nonneg (pred_files ∩ gold_files)). lia.
    + apply len_inter_le.
  - rewrite final_symbol. apply Hgran.
    + pose proof (len_inter_le pred_defs gold_defs).
      pose proof (len_nonneg (pred_defs ∩ gold_defs)). lia.
    + apply len_inter_le.
  - rewrite final_line.
    destruct (line_intersection_lines_common_pairs_aux pred_lines gold_lines Hp)
      as (H1 & H2).
    destruct (line_intersection_lines_common_pairs_aux gold_lines pred_lines Hg)
      as (H3 & H4).
    rewrite (line_intersection_lines_comm gold_lines pred_lines) in H4.
    apply Hgran; lia.
Qed.

(** X6: file coverage is 1 exactly when every gold file is predicted and
    file precision is 1 exactly when every predicted file is gold; the
    same holds for symbols and, for line intervals with [start <= end], for
    the (file, line) pairs. *)
Theorem granularity_metrics_full_coverage :
  nondegenerate_map pred_lines -> nondegenerate_map gold_lines ->
  ((coverage (g_file final) == 1)%Q <-> gold_files ⊆ pred_files)
  /\ ((precision (g_file final) == 1)%Q <-> pred_files ⊆ gold_files)
  /\ ((coverage (g_symbol final) == 1)%Q <-> gold_defs ⊆ pred_defs)
  /\ ((precision (g_symbol final) == 1)%Q <-> pred_defs ⊆ gold_defs)
  /\ ((coverage (g_line final) == 1)%Q <->
        file_lines gold_lines ⊆ file_lines pred_lines)
  /\ ((precision (g_line final) == 1)%Q <->
        file_lines pred_lines ⊆ file_lines gold_lines).
Proof.
  intros Hp Hg.
  rewrite final_file, final_symbol, final_line, !gran_fields.
  cbn [coverage precision].
  rewrite line_intersection_lines_size, !line_total_lines_size by done.
  fold (len (file_lines pred_lines ∩ file_lines gold_lines)).
  fold (len (file_lines pred_lines)). fold (len (file_lines gold_lines)).
  split; [apply ratio_one_iff_subset|].
  split; [rewrite (comm_L (∩) pred_files); apply ratio_one_iff_subset|].
  split; [apply ratio_one_iff_subset|].
  split; [rewrite (comm_L (∩) pred_defs); apply ratio_one_iff_subset|].
  split; [apply ratio_one_iff_subset|].
  rewrite (comm_L (∩) (file_lines pred_lines)). apply ratio_one_iff_subset.
Qed.

End OneComparison.

Lemma nondegenerate_singleton f a b :
  a <= b -> nondegenerate_map {[f := [(a, b)]]}.
Proof.
  intros Hab. apply map_Forall_singleton. repeat constructor. exact Hab.
Qed.

Lemma granularity_metrics_bounds_witness :
  (0 <= coverage (g_line
     (compute_granularity_metrics World.ten_byte_lines {["f.py"]} ∅ ∅
        {["f.py"]} ∅ ∅ (Some {["f.py" := [(12, 30)%Z]]})
        (Some {["f.py" := [(10, 20)%Z]]}))) <= 1)%Q.
Proof.
  assert (GLine <> GSpan) as Hne by done.
  assert (12 <= 30) as H1 by lia. assert (10 <= 20) as H2 by lia.
  apply (granularity_metrics_bounds World.ten_byte_lines {["f.py"]} {["f.py"]}
           ∅ ∅ ∅ ∅ {["f.py" := [(12, 30)%Z]]} {["f.py" := [(10, 20)%Z]]} GLine
           (nondegenerate_singleton "f.py" 12 30 H1)
           (nondegenerate_singleton "f.py" 10 20 H2) Hne).
Defined.

Lemma granularity_metrics_full_coverage_witness :
  (coverage (g_line
     (compute_granularity_metrics World.ten_byte_lines {["f.py"]} ∅ ∅
        {["f.py"]} ∅ ∅ (Some {["f.py" := [(10, 20)%Z]]})
        (Some {["f.py" := [(10, 20)%Z]]}))) == 1)%Q
  /\ (coverage (g_file
     (compute_granularity_metrics World.ten_byte_lines {["f.py"]} ∅ ∅
        {["f.py"]} ∅ ∅ (Some {["f.py" := [(10, 20)%Z]]})
        (Some {["f.py" := [(10, 20)%Z]]}))) == 1)%Q.
Proof.
  assert (10 <= 20) as H2 by lia.
  destruct (granularity_metrics_full_coverage World.ten_byte_lines
              {["f.py"]} {["f.py"]} ∅ ∅ ∅ ∅
              {["f.py" := [(10, 20)%Z]]} {["f.py" := [(10, 20)%Z]]}
              (nondegenerate_singleton "f.py" 10 20 H2)
              (nondegenerate_singleton "f.py" 10 20 H2))
    as (Hfile & _ & _ & _ & Hline & _).
  split; [by apply Hline | by apply Hfile].
Defined.

End GranularityFacts.

(** ** Bounds and monotonicity of the trajectory metrics *)

Module TrajectoryBounds.
Import PyStr Traj LineIntervals TreeSitter Metrics Compute Vocabulary.
Import MetricsFacts LineIntervalsFacts MapFacts LineSetFacts SeenFacts.
Import TrajectoryFacts RatioFacts DictFacts GranularityFacts.

Ltac qconst := unfold Qle, Qlt, Qeq; simpl; lia.

Lemma sumQ_cons x l : sumQ (x :: l) = (x + sumQ l)%Q.
Proof. done. Qed.

Lemma inject_Z_succ (n : nat) :
  (inject_Z (Z.of_nat (S n)) == 1 + inject_Z (Z.of_nat n))%Q.
Proof. rewrite Nat2Z.inj_succ, <- Z.add_1_l, inject_Z_plus. reflexivity. Qed.

(** The exact sum of rationals that all lie between [a] and [b]. *)
Lemma sumQ_between (a b : Q) l :
  Forall (fun x => (a <= x <= b)%Q) l ->
  (inject_Z (Z.of_nat (List.length l)) * a <= sumQ l
   <= inject_Z (Z.of_nat (List.length l)) * b)%Q.
Proof.
  induction 1 as [|x l [Ha Hb] _ [IHa IHb]].
  - simpl. rewrite !Qmult_0_l. split; apply Qle_refl.
  - rewrite sumQ_cons. cbn [List.length]. rewrite inject_Z_succ. split.
    + rewrite Qmult_plus_distr_l, Qmult_1_l. by apply Qplus_le_compat.
    + rewrite Qmult_plus_distr_l, Qmult_1_l. by apply Qplus_le_compat.
Qed.

(** The exact mean of rationals that all lie between [a] and [b]; used
    below only for bounds that rounding cannot cross. *)
Lemma mean_between (a b : Q) l :
  l <> [] -> Forall (fun x => (a <= x <= b)%Q) l ->
  (a <= sumQ l / inject_Z (Z.of_nat (List.length l)) <= b)%Q.
Proof.
  intros Hne Hall. destruct (sumQ_between a b l Hall) as [Ha Hb].
  assert (0 < inject_Z (Z.of_nat (List.length l)))%Q as Hpos.
  { change 0%Q with (inject_Z 0). rewrite <- Zlt_Qlt.
    destruct l; [done | simpl; lia]. }
  split.
  - apply Qle_shift_div_l; [done|]. by rewrite Qmult_comm.
  - apply Qle_shift_div_r; [done|]. by rewrite Qmult_comm.
Qed.

Lemma redundancy_of_bounds u t :
  0 <= u <= t -> (t > 0 -> 0 < u) ->
  (0 <= redundancy_of u t)%Q /\ (redundancy_of u t < 1)%Q
  /\ ((redundancy_of u t == 0)%Q <-> u = t).
Proof.
  intros [H0 Hut] Hpos. unfold redundancy_of. case_bool_decide as Ht.
  - specialize (Hpos Ht). destruct t as [|p|p]; try lia.
    rewrite div_pos_denominator. unfold Qle, Qlt, Qeq, Qminus, Qplus, Qopp.
    simpl. split; [|split]; nia.
  - split; [qconst|]. split; [qconst|]. split; [lia | reflexivity].
Qed.

(** The size of a union of sets against the sum of their sizes. *)
Lemma len_union_list_le `{Countable A} (sets : list (gset A)) :
  0 <= len (⋃ sets) <= sum_sizes sets
  /\ (sum_sizes sets > 0 -> 0 < len (⋃ sets)).
Proof.
  induction sets as [|X sets [[IH0 IH] IHpos]].
  - change (⋃ ([] : list (gset A))) with (∅ : gset A).
    unfold sum_sizes, len. rewrite size_empty. simpl. lia.
  - rewrite sum_sizes_cons, union_list_cons.
    assert (len (X ∪ ⋃ sets) <= len X + len (⋃ sets)) as Hle.
    { unfold len. rewrite size_union_alt.
      assert (size (⋃ sets ∖ X) <= size (⋃ sets))%nat
        by (apply subseteq_size; set_solver).
      lia. }
    assert (len X <= len (X ∪ ⋃ sets)) as HX.
    { unfold len. apply inj_le, subseteq_size. set_solver. }
    assert (len (⋃ sets) <= len (X ∪ ⋃ sets)) as HU.
    { unfold len. apply inj_le, subseteq_size. set_solver. }
    pose proof (len_nonneg X). split; [lia|]. intros Hs.
    destruct (decide (len X > 0)); [lia|].
    assert (sum_sizes sets > 0) as Hs' by lia. specialize (IHpos Hs'). lia.
Qed.

(** The union is as large as the sum exactly when no element is in two of
    the sets. *)
Lemma len_union_list_eq `{Countable A} (sets : list (gset A)) :
  len (⋃ sets) = sum_sizes sets
  <-> forall i j X Y, (i < j)%nat -> sets !! i = Some X -> sets !! j = Some Y ->
        X ## Y.
Proof.
  induction sets as [|X sets IH].
  - split; [by intros _ i j X Y _ Hi | done].
  - rewrite sum_sizes_cons, union_list_cons.
    destruct (len_union_list_le sets) as [[_ Hle] _].
    assert (len (X ∪ ⋃ sets) = len X + len (⋃ sets ∖ X)) as Hsz.
    { unfold len. rewrite <- Nat2Z.inj_add. f_equal. apply size_union_alt. }
    assert (len (⋃ sets ∖ X) <= len (⋃ sets)) as Hd.
    { unfold len. apply inj_le, subseteq_size. set_solver. }
    split.
    + intros Heq.
      assert (len (⋃ sets) = sum_sizes sets) as Heq1 by lia.
      assert (len (⋃ sets ∖ X) = len (⋃ sets)) as Heq2 by lia.
      assert (⋃ sets ∖ X = ⋃ sets) as Hdiff.
      { apply set_subseteq_size_eq; [set_solver|].
        unfold len in Heq2. lia. }
      intros [|i] [|j] X1 Y1 Hij Hi Hj; try lia.
      * simpl in Hi, Hj. injection Hi as <-.
        assert (Y1 ⊆ ⋃ sets) as HY.
        { intros y Hy. apply elem_of_union_list. exists Y1.
          split; [|done]. by eapply list_elem_of_lookup_2. }
        set_solver.
      * simpl in Hi, Hj. apply (proj1 IH Heq1 i j); [lia|done|done].
    + intros Hdisj.
      assert (len (⋃ sets) = sum_sizes sets) as Heq1.
      { apply IH. intros i j X1 Y1 Hij Hi Hj.
        apply (Hdisj (S i) (S j)); [lia|done|done]. }
      assert (⋃ sets ∖ X = ⋃ sets) as Hdiff.
      { apply set_eq. intros y. rewrite elem_of_difference. split; [tauto|].
        intros Hy. split; [done|]. intros HyX.
        apply elem_of_union_list in Hy as (Y1 & HY1 & Hy).
        apply list_elem_of_lookup in HY1 as [j Hj].
        specialize (Hdisj 0%nat (S j) X Y1). set_solver by lia. }
      rewrite Hsz, Hdiff. lia.
Qed.

Section Growth.
Variable os : OsPath.
Variable ts : Parsers.
Variable core : Core.
Variable gold_files : gset string.
Variable gold_symbols : gset Def.
Variable gold_spans : gmap string (list ByteInterval).
Variable repo_dir : string.
Variable gold_lines : gmap string (list LineInterval).

Local Abbreviation observe := (Vocabulary.observe os ts core repo_dir).
Local Abbreviation cumulative := (Vocabulary.cumulative os ts core repo_dir).
Local Abbreviation coverage_of :=
  (Vocabulary.coverage_of core gold_files gold_symbols gold_spans gold_lines).
Local Abbreviation entries :=
  (Vocabulary.entries os ts core gold_files gold_symbols gold_spans repo_dir
     gold_lines).
Local Abbreviation seen_le u u' :=
  (seen_files u ⊆ seen_files u' /\ seen_symbols u ⊆ seen_symbols u'
   /\ file_lines (seen_lines u) ⊆ file_lines (seen_lines u')).

Lemma seen_le_observe u step : seen_le u (observe u step).
Proof.
  cbn [Vocabulary.observe seen_files seen_symbols seen_lines].
  rewrite file_lines_union_update. set_solver.
Qed.

Lemma seen_le_fold steps : forall u, seen_le u (fold_left observe steps u).
Proof.
  induction steps as [|s steps IH]; intros u; [done|].
  cbn [fold_left]. destruct (IH (observe u s)) as (H1 & H2 & H3).
  destruct (seen_le_observe u s) as (G1 & G2 & G3).
  split; [|split]; etrans; eauto.
Qed.

Lemma ratio_mono `{Countable A} (X X' G : gset A) :
  X ⊆ X' ->
  ((if decide (G = ∅) then 1 else div (len (X ∩ G)) (len G))
   <= (if decide (G = ∅) then 1 else div (len (X' ∩ G)) (len G)))%Q.
Proof.
  intros HX. destruct (decide (G = ∅)) as [|Hne]; [qconst|].
  apply div_le_mono.
  - pose proof (len_nonneg G).
    destruct (decide (len G = 0)) as [Hz|]; [by apply len_zero in Hz | lia].
  - unfold len. apply inj_le, subseteq_size. set_solver.
Qed.

Lemma ratio_bounds `{Countable A} (X G : gset A) :
  (0 <= (if decide (G = ∅) then 1 else div (len (X ∩ G)) (len G)) <= 1)%Q.
Proof.
  destruct (decide (G = ∅)) as [|Hne]; [split; qconst|].
  assert (0 < len G) as Hpos.
  { pose proof (len_nonneg G).
    destruct (decide (len G = 0)) as [Hz|]; [by apply len_zero in Hz | lia]. }
  split.
  - apply div_nonneg; [apply len_nonneg | done].
  - apply div_le_1; [apply len_inter_le | done].
Qed.

Lemma coverage_of_mono u u' g :
  g <> GSpan -> seen_le u u' ->
  (at_gran g (coverage_of u) <= at_gran g (coverage_of u'))%Q.
Proof.
  intros Hg (Hf & Hs & Hl).
  destruct g; [| |done|]; cbn [at_gran].
  - by apply ratio_mono.
  - by apply ratio_mono.
  - unfold Vocabulary.coverage_of, coverage_at. cbn [g_line].
    destruct (decide (gold_lines = ∅)); [qconst|].
    case_bool_decide; [|qconst]. apply div_le_mono; [lia|].
    rewrite !line_intersection_lines_size.
    apply inj_le, subseteq_size. set_solver.
Qed.

Lemma coverage_of_bounds u g :
  g <> GSpan ->
  (0 <= at_gran g (coverage_of u))%Q
  /\ ((g = GLine -> nondegenerate_map gold_lines) ->
        (at_gran g (coverage_of u) <= 1)%Q).
Proof.
  intros Hg. destruct g; [| |done|]; cbn [at_gran].
  - split; [|intros _]; apply ratio_bounds.
  - split; [|intros _]; apply ratio_bounds.
  - unfold Vocabulary.coverage_of, coverage_at. cbn [g_line].
    destruct (decide (gold_lines = ∅)); [split; [|intros _]; qconst|].
    case_bool_decide as Hpos; [|split; [|intros _]; qconst]. split.
    + apply div_nonneg; [|lia]. rewrite line_intersection_lines_size. lia.
    + intros Hnd. apply div_le_1; [|lia].
      rewrite line_intersection_lines_comm.
      by apply line_intersection_lines_common_pairs_aux, Hnd.
Qed.

(** Every entry the loop appends lies between the coverage before the
    remaining steps and the coverage after them. *)
Lemma entries_between steps : forall t u e g,
  g <> GSpan -> e ∈ entries t u steps ->
  (at_gran g (coverage_of u) <= at_gran g (step_coverage e))%Q
  /\ (at_gran g (step_coverage e)
      <= at_gran g (coverage_of (fold_left observe steps u)))%Q.
Proof.
  induction steps as [|s steps IH]; intros t u e g Hg He.
  - by apply elem_of_nil in He.
  - cbn [Vocabulary.entries] in He. apply elem_of_cons in He as [->|He].
    + cbn [step_coverage fold_left]. split.
      * apply coverage_of_mono; [done | apply seen_le_observe].
      * apply coverage_of_mono; [done | apply seen_le_fold].
    + cbn [fold_left]. destruct (IH _ _ _ g Hg He) as [H1 H2].
      split; [|done]. eapply Qle_trans; [|exact H1].
      apply coverage_of_mono; [done | apply seen_le_observe].
Qed.

Lemma entries_first t u s steps e g :
  g <> GSpan -> e ∈ entries t u (s :: steps) ->
  (at_gran g (coverage_of (observe u s)) <= at_gran g (step_coverage e))%Q.
Proof.
  intros Hg He. cbn [Vocabulary.entries] in He.
  apply elem_of_cons in He as [->|He]; [apply Qle_refl|].
  by apply (entries_between steps (t + 1) (observe u s) e g Hg).
Qed.

Lemma entries_last steps : forall t u,
  steps <> [] ->
  last (entries t u steps) =
    Some (mkStepMetrics (t + Z.of_nat (List.length steps))
            (coverage_of (fold_left observe steps u))).
Proof.
  intros t u Hne. rewrite last_lookup, length_entries.
  destruct (List.length steps) as [|n] eqn:Hlen; [by destruct steps|].
  cbn [Nat.pred].
  destruct (lookup_lt_is_Some_2 steps n) as [step Hstep]; [lia|].
  rewrite (entries_lookup os ts core gold_files gold_symbols gold_spans
             repo_dir gold_lines steps t u n step Hstep).
  rewrite firstn_all2 by lia. do 2 f_equal. lia.
Qed.

End Growth.

Lemma at_gran_auc_of g per_step T :
  at_gran g (mkGranular (auc_of g_file per_step T) (auc_of g_symbol per_step T)
                        (auc_of g_span per_step T) (auc_of g_line per_step T))
  = (sumQ (List.map (fun s => at_gran g (step_coverage s)) per_step)
     / inject_Z T)%Q.
Proof. by destruct g. Qed.

Lemma disjoint_fmap `{Countable B} {A} (f : A -> gset B) (l : list A) :
  (forall i j X Y, (i < j)%nat -> (f <$> l) !! i = Some X ->
     (f <$> l) !! j = Some Y -> X ## Y)
  <-> (forall i j a b, (i < j)%nat -> l !! i = Some a -> l !! j = Some b ->
         f a ## f b).
Proof.
  split.
  - intros Hd i j a b Hij Hi Hj. apply (Hd i j); [done| |].
    + by rewrite list_lookup_fmap, Hi.
    + by rewrite list_lookup_fmap, Hj.
  - intros Hd i j X Y Hij Hi Hj. rewrite list_lookup_fmap in Hi, Hj.
    apply fmap_Some in Hi as (a & Ha & ->). apply fmap_Some in Hj as (b & Hb & ->).
    by apply (Hd i j).
Qed.

Lemma redundancy_of_sets `{Countable B} {A} (f : A -> gset B) (l : list A) :
  (0 <= redundancy_of (len (⋃ (f <$> l))) (sum_sizes (f <$> l)) < 1)%Q
  /\ ((redundancy_of (len (⋃ (f <$> l))) (sum_sizes (f <$> l)) == 0)%Q
      <-> forall i j a b, (i < j)%nat -> l !! i = Some a -> l !! j = Some b ->
            f a ## f b).
Proof.
  destruct (len_union_list_le (f <$> l)) as [Hle Hpos].
  destruct (redundancy_of_bounds _ _ Hle Hpos) as (H0 & H1 & Hz).
  split; [done|]. by rewrite Hz, len_union_list_eq, disjoint_fmap.
Qed.

Lemma bare_parsers_ready : parsers_ready Scenarios.bare_ts.
Proof. by split. Qed.

(** X7: with the parsers available, the per-step coverage that
    [compute_trajectory_metrics] reports never decreases from one step to a
    later one at the file, symbol and line granularities, it is never
    negative, and it is at most [1.0] (at the line granularity provided no
    gold line interval has its end before its start); step [i] of the list
    carries the number [i + 1]. *)
Theorem step_coverage_monotone os ts core (steps : list Step) gold_files
    gold_symbols gold_spans repo_dir gold_lines :
  parsers_ready ts ->
  exists m,
    compute_trajectory_metrics os ts core steps gold_files gold_symbols
      gold_spans repo_dir gold_lines = Ok m
    /\ (forall i ci, Compute.steps m !! i = Some ci ->
          step_no ci = Z.of_nat i + 1)
    /\ forall g, g <> GSpan ->
         (forall i j ci cj, (i <= j)%nat ->
            Compute.steps m !! i = Some ci -> Compute.steps m !! j = Some cj ->
            (at_gran g (step_coverage ci) <= at_gran g (step_coverage cj))%Q)
         /\ (forall c, c ∈ Compute.steps m ->
               (0 <= at_gran g (step_coverage c))%Q
               /\ ((g = GLine -> nondegenerate_map (default ∅ gold_lines)) ->
                     (at_gran g (step_coverage c) <= 1)%Q)).
Proof.
  intros Hready.
  rewrite (compute_trajectory_metrics_spec os ts core steps gold_files
             gold_symbols gold_spans repo_dir gold_lines Hready).
  eexists. split; [reflexivity|].
  destruct steps as [|s0 steps0] eqn:Hsteps.
  { split; [done|]. intros g Hg. split; [done|].
    intros c Hc. by apply elem_of_nil in Hc. }
  rewrite <- Hsteps. clear Hsteps s0 steps0.
  cbn [Vocabulary.metrics_of Compute.steps].
  assert (forall i ci,
    entries os ts core gold_files gold_symbols gold_spans repo_dir
      (default ∅ gold_lines) 0 seen0 steps !! i = Some ci ->
    ci = mkStepMetrics (0 + Z.of_nat i + 1)
           (coverage_of core gold_files gold_symbols gold_spans
              (default ∅ gold_lines)
              (fold_left (observe os ts core repo_dir) (take (S i) steps) seen0)))
    as Hentry.
  { intros i ci Hi.
    destruct (lookup_lt_is_Some_2 steps i) as [step Hstep].
    { apply lookup_lt_Some in Hi. by rewrite length_entries in Hi. }
    rewrite (entries_lookup os ts core gold_files gold_symbols gold_spans
               repo_dir (default ∅ gold_lines) steps 0 seen0 i step Hstep) in Hi.
    by injection Hi as <-. }
  split.
  { intros i ci Hi. rewrite (Hentry i ci Hi). cbn [step_no]. lia. }
  intros g Hg. split.
  - intros i j ci cj Hij Hi Hj.
    rewrite (Hentry i ci Hi), (Hentry j cj Hj). cbn [step_coverage].
    apply coverage_of_mono; [done|].
    rewrite <- (take_drop (S i) (take (S j) steps)), take_take.
    replace (S i `min` S j)%nat with (S i) by lia.
    rewrite fold_left_app. apply seen_le_fold.
  - intros c Hc. apply list_elem_of_lookup in Hc as [i Hi].
    rewrite (Hentry i c Hi). cbn [step_coverage].
    by apply coverage_of_bounds.
Qed.

Lemma step_coverage_monotone_witness :
  exists m,
    compute_trajectory_metrics Scenarios.bare_os Scenarios.bare_ts
      World.ten_byte_lines
      [mkStep [] [] []; mkStep ["a.py"] [] []] {["a.py"]} ∅ ∅ "/repo" None
      = Ok m
    /\ forall i j ci cj, (i <= j)%nat ->
         Compute.steps m !! i = Some ci -> Compute.steps m !! j = Some cj ->
         (g_file (step_coverage ci) <= g_file (step_coverage cj))%Q.
Proof.
  destruct (step_coverage_monotone Scenarios.bare_os Scenarios.bare_ts
              World.ten_byte_lines [mkStep [] [] []; mkStep ["a.py"] [] []]
              {["a.py"]} ∅ ∅ "/repo" None bare_parsers_ready)
    as (m & Hm & _ & Hg).
  exists m. split; [exact Hm|].
  assert (GFile <> GSpan) as Hne by done.
  exact (proj1 (Hg GFile Hne)).
Defined.

(** A sum of non-negative numbers is at least each of them, so their mean
    is zero only when all of them are. *)
Lemma elem_le_sumQ (l : list Q) x :
  Forall (fun y => (0 <= y)%Q) l -> x ∈ l -> (x <= sumQ l)%Q.
Proof.
  induction 1 as [|y l Hy Hl IH]; intros Hx; [by apply elem_of_nil in Hx|].
  assert (0 <= sumQ l)%Q as Hs.
  { clear -Hl. induction Hl as [|z l Hz _ IH]; [apply Qle_refl|].
    rewrite sumQ_cons. rewrite <- (Qplus_0_r 0). by apply Qplus_le_compat. }
  rewrite sumQ_cons. apply elem_of_cons in Hx as [->|Hx].
  - rewrite <- (Qplus_0_r y) at 1. apply Qplus_le_compat; [apply Qle_refl | done].
  - rewrite <- (Qplus_0_l x). apply Qplus_le_compat; [done | by apply IH].
Qed.

Lemma mean_zero (l : list Q) x :
  Forall (fun y => (0 <= y)%Q) l -> x ∈ l ->
  (sumQ l / inject_Z (Z.of_nat (List.length l)) == 0)%Q -> (x == 0)%Q.
Proof.
  intros Hl Hx Hmean.
  assert (0 < inject_Z (Z.of_nat (List.length l)))%Q as Hpos.
  { change 0%Q with (inject_Z 0). rewrite <- Zlt_Qlt.
    destruct l; [by apply elem_of_nil in Hx | simpl; lia]. }
  assert (sumQ l == 0)%Q as Hsum.
  { rewrite <- (Qdiv_mult_l (sumQ l) (inject_Z (Z.of_nat (List.length l)))).
    - unfold Qdiv in *. rewrite <- Qmult_assoc,
        (Qmult_comm (inject_Z _)), Qmult_assoc, Hmean. apply Qmult_0_l.
    - intros H0. rewrite H0 in Hpos. by apply Qlt_irrefl in Hpos. }
  apply Qle_antisym.
  - rewrite <- Hsum. by apply elem_le_sumQ.
  - rewrite Forall_forall in Hl. by apply Hl.
Qed.

(** X8: for a trajectory with at least one step and the parsers available,
    AUC-coverage at the file, symbol and line granularities is never
    negative and never above [1.0]; it is [0.0] exactly when the whole
    trajectory covers nothing of gold, that is when the coverage of the
    last step, the coverage of everything the trajectory has seen, is
    [0.0]; and it is [1.0] when the first step already covers all of
    gold. *)
Theorem auc_coverage_bounds os ts core (steps : list Step) gold_files
    gold_symbols gold_spans repo_dir gold_lines :
  parsers_ready ts -> steps <> [] ->
  exists m first final,
    compute_trajectory_metrics os ts core steps gold_files gold_symbols
      gold_spans repo_dir gold_lines = Ok m
    /\ head (Compute.steps m) = Some first
    /\ last (Compute.steps m) = Some final
    /\ step_coverage final =
         coverage_of core gold_files gold_symbols gold_spans
           (default ∅ gold_lines) (cumulative os ts core repo_dir steps)
    /\ forall g, g <> GSpan ->
         (0 <= at_gran g (auc_coverage m))%Q
         /\ ((at_gran g (auc_coverage m) == 0)%Q <->
               (at_gran g (step_coverage final) == 0)%Q)
         /\ ((g = GLine -> nondegenerate_map (default ∅ gold_lines)) ->
               (at_gran g (auc_coverage m) <= 1)%Q
               /\ ((at_gran g (step_coverage first) == 1)%Q ->
                     (at_gran g (auc_coverage m) == 1)%Q)).
Proof.
  intros Hready Hne.
  rewrite (compute_trajectory_metrics_spec os ts core steps gold_files
             gold_symbols gold_spans repo_dir gold_lines Hready).
  destruct steps as [|s steps0] eqn:Hsteps; [done|].
  rewrite <- Hsteps in *.
  eexists. eexists. eexists. split; [reflexivity|].
  cbn [Vocabulary.metrics_of Compute.steps auc_coverage].
  split.
  { rewrite Hsteps. cbn [Vocabulary.entries head]. reflexivity. }
  pose proof (entries_last os ts core gold_files gold_symbols gold_spans
                repo_dir (default ∅ gold_lines) steps 0 seen0 Hne) as Hlast.
  split; [exact Hlast|].
  cbn [step_coverage]. split; [done|].
  intros g Hg. rewrite at_gran_auc_of.
  destruct (coverage_of_bounds core gold_files gold_symbols gold_spans
              (default ∅ gold_lines)
              (observe os ts core repo_dir seen0 s) g Hg) as [H0 _].
  destruct (coverage_of_bounds core gold_files gold_symbols gold_spans
              (default ∅ gold_lines)
              (fold_left (observe os ts core repo_dir) steps seen0) g Hg)
    as [Hf0 H1].
  rewrite <- (length_entries os ts core gold_files gold_symbols gold_spans
                repo_dir (default ∅ gold_lines) steps 0 seen0).
  rewrite <- (length_map (fun s1 => at_gran g (step_coverage s1))).
  set (l := List.map (fun s1 => at_gran g (step_coverage s1))
              (entries os ts core gold_files gold_symbols gold_spans
                 repo_dir (default ∅ gold_lines) 0 seen0 steps)).
  set (c_first := at_gran g (coverage_of core gold_files gold_symbols gold_spans
                    (default ∅ gold_lines)
                    (observe os ts core repo_dir seen0 s))) in *.
  set (c_final := at_gran g (coverage_of core gold_files gold_symbols gold_spans
                    (default ∅ gold_lines)
                    (fold_left (observe os ts core repo_dir) steps seen0))) in *.
  assert (Forall (fun x => (c_first <= x <= c_final)%Q) l) as Hall.
  { apply Forall_forall. intros x Hx.
    apply list_elem_of_In, List.in_map_iff in Hx as (e & <- & He).
    apply list_elem_of_In in He. split.
    + rewrite Hsteps in He.
      by apply (entries_first os ts core gold_files gold_symbols gold_spans
                  repo_dir (default ∅ gold_lines) 0 seen0 s steps0 e g Hg).
    + by apply (entries_between os ts core gold_files gold_symbols gold_spans
                  repo_dir (default ∅ gold_lines) steps 0 seen0 e g Hg). }
  assert (l <> []) as Hl by (unfold l; rewrite Hsteps; done).
  destruct (mean_between c_first c_final l Hl Hall) as [Hlo Hhi].
  assert (c_final ∈ l) as Hin.
  { apply last_Some_elem_of in Hlast. apply list_elem_of_In.
    apply List.in_map_iff. eexists. split; [|by apply list_elem_of_In].
    done. }
  assert (Forall (fun y => (0 <= y)%Q) l) as Hnonneg.
  { eapply Forall_impl; [exact Hall|]. intros x [Hx _].
    by apply (Qle_trans _ c_first). }
  split; [by apply (Qle_trans _ c_first)|].
  split.
  - split.
    + intros Hz. by apply (mean_zero l).
    + intros Hz. apply Qle_antisym.
      * by rewrite <- Hz.
      * by apply (Qle_trans _ c_first).
  - intros Hnd. specialize (H1 Hnd). split.
    + by apply (Qle_trans _ c_final).
    + intros Hone. apply Qle_antisym.
      * by apply (Qle_trans _ c_final).
      * by rewrite <- Hone.
Qed.

Lemma auc_coverage_bounds_witness :
  exists m,
    compute_trajectory_metrics Scenarios.bare_os Scenarios.bare_ts
      World.ten_byte_lines
      [mkStep ["a.py"] [] []; mkStep ["b.py"] [] []] {["a.py"]} ∅ ∅ "/repo" None
      = Ok m
    /\ (g_file (auc_coverage m) == 1)%Q.
Proof.
  assert ([mkStep ["a.py"] [] []; mkStep ["b.py"] [] []] <> []) as Hne by done.
  destruct (auc_coverage_bounds Scenarios.bare_os Scenarios.bare_ts
              World.ten_byte_lines [mkStep ["a.py"] [] []; mkStep ["b.py"] [] []]
              {["a.py"]} ∅ ∅ "/repo" None bare_parsers_ready Hne)
    as (m & first & final & Hm & Hfirst & _ & _ & Hg).
  exists m. split; [exact Hm|].
  assert (GFile <> GSpan) as Hgf by done.
  destruct (Hg GFile Hgf) as (_ & _ & Hone).
  apply Hone; [done|]. clear Hg Hone.
  rewrite (compute_trajectory_metrics_spec Scenarios.bare_os Scenarios.bare_ts
             World.ten_byte_lines _ {["a.py"]} ∅ ∅ "/repo" None
             bare_parsers_ready) in Hm.
  injection Hm as <-.
  cbn [Vocabulary.metrics_of Compute.steps Vocabulary.entries head] in Hfirst.
  injection Hfirst as <-. by vm_compute.
Defined.

(** X9: with the parsers available, Redundancy at the file and symbol
    granularities is at least [0.0] and strictly below [1.0], and it is
    [0.0] exactly when no file (no definition) is seen by two different
    steps; the same holds at the line granularity for the (file, line)
    pairs when every span of every step has [start_line <= end_line]. *)
Theorem redundancy_bounds os ts core (steps : list Step) gold_files
    gold_symbols gold_spans repo_dir gold_lines :
  parsers_ready ts ->
  exists m,
    compute_trajectory_metrics os ts core steps gold_files gold_symbols
      gold_spans repo_dir gold_lines = Ok m
    /\ (0 <= g_file (redundancy m) < 1)%Q
    /\ ((g_file (redundancy m) == 0)%Q <->
          forall i j a b, (i < j)%nat -> steps !! i = Some a ->
            steps !! j = Some b -> step_files a ## step_files b)
    /\ (0 <= g_symbol (redundancy m) < 1)%Q
    /\ ((g_symbol (redundancy m) == 0)%Q <->
          forall i j a b, (i < j)%nat -> steps !! i = Some a ->
            steps !! j = Some b ->
            symbols_seen os ts core repo_dir a ## symbols_seen os ts core repo_dir b)
    /\ (Forall well_formed steps ->
          (0 <= g_line (redundancy m) < 1)%Q
          /\ ((g_line (redundancy m) == 0)%Q <->
                forall i j a b, (i < j)%nat -> steps !! i = Some a ->
                  steps !! j = Some b -> step_line_pairs a ## step_line_pairs b)).
Proof.
  intros Hready.
  rewrite (compute_trajectory_metrics_spec os ts core steps gold_files
             gold_symbols gold_spans repo_dir gold_lines Hready).
  eexists. split; [reflexivity|].
  destruct steps as [|s0 steps0] eqn:Hsteps.
  { cbn [redundancy zero4 g_file g_symbol g_line].
    repeat split; try qconst; try reflexivity; intros; done. }
  rewrite <- Hsteps. clear Hsteps s0 steps0.
  cbn [Vocabulary.metrics_of redundancy g_file g_symbol g_line].
  unfold Vocabulary.cumulative.
  destruct (seen_files_fold os ts core repo_dir steps seen0) as [-> ->].
  destruct (seen_symbols_fold os ts core repo_dir steps seen0) as [-> ->].
  cbn [seen0 seen_files seen_symbols total_files total_symbols].
  rewrite !(left_id_L ∅ (∪)), !Z.add_0_l.
  destruct (redundancy_of_sets step_files steps) as [Hf1 Hf2].
  destruct (redundancy_of_sets (symbols_seen os ts core repo_dir) steps)
    as [Hs1 Hs2].
  split; [exact Hf1|]. split; [exact Hf2|].
  split; [exact Hs1|]. split; [exact Hs2|].
  intros Hwf.
  destruct (seen_lines_fold os ts core repo_dir steps seen0 Hwf)
    as (Hnd & Hl & ->); [apply map_Forall_empty|].
  rewrite (line_total_lines_size _ Hnd), Hl.
  cbn [seen0 seen_lines total_lines].
  rewrite file_lines_empty, (left_id_L ∅ (∪)), Z.add_0_l.
  apply (redundancy_of_sets step_line_pairs steps).
Qed.

Lemma redundancy_bounds_witness :
  exists m,
    compute_trajectory_metrics Scenarios.bare_os Scenarios.bare_ts
      World.ten_byte_lines
      [mkStep ["a.py"] [] []; mkStep ["b.py"] [] []] {["a.py"]} ∅ ∅ "/repo" None
      = Ok m
    /\ (g_file (redundancy m) == 0)%Q.
Proof.
  destruct (redundancy_bounds Scenarios.bare_os Scenarios.bare_ts
              World.ten_byte_lines
              [mkStep ["a.py"] [] []; mkStep ["b.py"] [] []]
              {["a.py"]} ∅ ∅ "/repo" None bare_parsers_ready)
    as (m & Hm & _ & Hz & _).
  exists m. split; [exact Hm|]. apply Hz.
  intros [|[|i]] [|[|j]] a b Hij Ha Hb; try lia; try done.
  injection Ha as <-. injection Hb as <-.
  unfold step_files. cbn [files].
  apply elem_of_disjoint. intros x Hx Hy.
  apply elem_of_list_to_set, list_elem_of_singleton in Hx.
  apply elem_of_list_to_set, list_elem_of_singleton in Hy.
  rewrite Hx in Hy. discriminate Hy.
Defined.

End TrajectoryBounds.

(** ** What a step's spans become *)

Module StepLineFacts.
Import PyStr Traj LineIntervals TreeSitter Metrics Compute Vocabulary.
Import MetricsFacts LineIntervalsFacts MapFacts LineSetFacts SeenFacts.

Local Abbreviation positive iv := (0 < fst iv /\ 0 < snd iv).
Local Abbreviation kept span :=
  (span_file span <> EmptyString /\ 0 < start_line span /\ 0 < end_line span).

Lemma add_span_kept result span :
  add_span result span =
    if decide (kept span)
    then setdefault_append result (span_file span) (start_line span, end_line span)
    else result.
Proof.
  unfold add_span. destruct (is_empty (span_file span)) eqn:He.
  - apply is_empty_true in He. rewrite decide_False; [done | tauto].
  - apply is_empty_false in He.
    destruct (decide (kept span)) as [(_ & Hs & He')|Hn].
    + by rewrite !bool_decide_eq_true_2 by lia.
    + destruct (bool_decide (start_line span > 0)) eqn:H1;
        destruct (bool_decide (end_line span > 0)) eqn:H2; try done.
      apply bool_decide_eq_true_1 in H1, H2. exfalso. apply Hn.
      split; [done | lia].
Qed.

Lemma add_span_dom result span f :
  is_Some (add_span result span !! f) <->
  is_Some (result !! f) \/ (kept span /\ span_file span = f).
Proof.
  rewrite add_span_kept. destruct (decide (kept span)) as [Hk|Hn].
  - unfold setdefault_append.
    destruct (decide (span_file span = f)) as [<-|Hf].
    + rewrite lookup_insert_eq. split; [by right | by eexists].
    + rewrite lookup_insert_ne by done. split; [by left | tauto].
  - split; [by left | tauto].
Qed.

Lemma fold_add_span_dom spans : forall result f,
  is_Some (fold_left add_span spans result !! f) <->
  is_Some (result !! f)
  \/ exists span, span ∈ spans /\ kept span /\ span_file span = f.
Proof.
  induction spans as [|span spans IH]; intros result f; simpl.
  - split; [by left|]. intros [H|(span & Hin & _)]; [done|].
    by apply elem_of_nil in Hin.
  - rewrite IH, add_span_dom. split.
    + intros [[H|[Hk Hf]]|(s & Hin & Hk & Hf)].
      * by left.
      * right. exists span. split; [left | done].
      * right. exists s. split; [by right | done].
    + intros [H|(s & Hin & Hk & Hf)]; [by left; left|].
      apply elem_of_cons in Hin as [->|Hin].
      * left. by right.
      * right. by exists s.
Qed.

Lemma add_span_positive result span :
  map_Forall (fun _ raw => raw <> [] /\ Forall (fun iv => positive iv) raw) result ->
  map_Forall (fun _ raw => raw <> [] /\ Forall (fun iv => positive iv) raw)
    (add_span result span).
Proof.
  intros Hinv. rewrite add_span_kept.
  destruct (decide (kept span)) as [(Hne & Hs & He)|Hn]; [|done].
  unfold setdefault_append. intros f raw.
  destruct (decide (span_file span = f)) as [<-|Hf].
  - rewrite lookup_insert_eq. intros [= <-]. split.
    + by destruct (get_list result (span_file span)).
    + apply Forall_app. split; [|by repeat constructor].
      unfold get_list. destruct (result !! span_file span) as [raw|] eqn:Hraw.
      * by apply (Hinv _ _ Hraw).
      * constructor.
  - rewrite lookup_insert_ne by done. apply Hinv.
Qed.

Lemma fold_add_span_positive spans : forall result,
  map_Forall (fun _ raw => raw <> [] /\ Forall (fun iv => positive iv) raw) result ->
  map_Forall (fun _ raw => raw <> [] /\ Forall (fun iv => positive iv) raw)
    (fold_left add_span spans result).
Proof.
  induction spans as [|span spans IH]; intros result Hinv; [done|].
  simpl. by apply IH, add_span_positive.
Qed.

Lemma merge_loop_nonempty rest : forall last, merge_loop last rest <> [].
Proof.
  induction rest as [|c rest IH]; intros last; simpl; [done|].
  case_bool_decide; [apply IH | done].
Qed.

Lemma merge_nonempty x : x <> [] -> _merge_line_intervals x <> [].
Proof.
  intros Hx. unfold _merge_line_intervals.
  pose proof (sorted_perm x) as Hp.
  destruct (sorted x) as [|first rest].
  - by apply Permutation_nil_l in Hp.
  - apply merge_loop_nonempty.
Qed.

Lemma merge_positive x :
  Forall (fun iv => positive iv) x ->
  Forall (fun iv => positive iv) (_merge_line_intervals x).
Proof.
  intros Hx. unfold _merge_line_intervals.
  pose proof (sorted_perm x) as Hp.
  destruct (sorted x) as [|first rest]; [constructor|].
  apply Forall_forall. intros o Ho.
  apply merge_loop_origin in Ho as (r & Hr & H1 & H2).
  rewrite <- Hp in Hx. rewrite Forall_forall in Hx.
  specialize (Hx r Hr). simpl in Hx. lia.
Qed.

(** X10: [_step_to_line_intervals] keeps a span exactly when its file name
    is not empty and both its line numbers are positive, and drops every
    other span silently.  The result has an entry for a file exactly when
    some span of the step is kept for it; each entry is a non-empty list of
    intervals with positive bounds, sorted, no two of them overlapping or
    touching; and a line is inside an entry exactly when a kept span of the
    step contains it. *)
Theorem step_to_line_intervals_kept_spans (step : Step) :
  (forall f, is_Some (_step_to_line_intervals step !! f) <->
     exists span, span ∈ spans step /\ span_file span = f /\ f <> EmptyString
       /\ 0 < start_line span /\ 0 < end_line span)
  /\ (forall f ivs, _step_to_line_intervals step !! f = Some ivs ->
        ivs <> [] /\ StronglySorted separated ivs
        /\ Forall (fun iv => 0 < iv.1 /\ 0 < iv.2) ivs)
  /\ (forall f p, covered p (get_list (_step_to_line_intervals step) f) <->
        observes_line step f p).
Proof.
  rewrite step_to_line_intervals_unfold. split; [|split].
  - intros f. rewrite lookup_fmap, fmap_is_Some, fold_add_span_dom.
    rewrite lookup_empty. split.
    + intros [H|(span & Hin & (Hne & Hs & He) & Hf)]; [by destruct H|].
      exists span. subst f. done.
    + intros (span & Hin & Hf & Hne & Hs & He). right. exists span.
      subst f. done.
  - intros f ivs. rewrite lookup_fmap.
    destruct (fold_left add_span (spans step) ∅ !! f) as [raw|] eqn:Hraw; [|done].
    intros [= <-].
    destruct (fold_add_span_positive (spans step) ∅
                (map_Forall_empty _) f raw Hraw) as [Hne Hpos].
    split; [by apply merge_nonempty|].
    split; [apply merge_separated | by apply merge_positive].
  - intros f p. rewrite <- elem_of_step_line_pairs. unfold step_line_pairs.
    by rewrite elem_of_file_lines, elem_of_lines_of, step_to_line_intervals_unfold.
Qed.

End StepLineFacts.

(** ** Filtering a step to the files of the repository *)

Module FilterFacts.
Import PyStr Traj Resolver Vocabulary.
Import SeenFacts ResolverClaims.





Section WithOs.
Variable os : OsPath.
Variable repo_dir : string.

Local Abbreviation resolve := (_resolve_repo_relpath os repo_dir).
Local Abbreviation in_repo := (fun rel => _is_repo_file os repo_dir rel = true).


(** The loop over [step.symbols.items()]. *)
Local Abbreviation syms_step := (fun syms (kv : string * list string) =>
  let '(f, names) := kv in
  match names with
  | [] => syms
  | _ =>
      let rel := resolve f in
      if is_empty rel then syms else syms_add syms rel names
  end).






End WithOs.
End FilterFacts.

(** ** When the symbol extractor raises, and what its two traversals share *)

Module ExtractorErrors.
Import PyStr Traj TreeSitter Compute Vocabulary.
Import SeenFacts ExtractorFacts.

Section WithParsers.
Variable os : OsPath.
Variable ts : Parsers.

Local Abbreviation extract_defs := (TreeSitter.extract_defs os ts).
Local Abbreviation extract_named_defs := (TreeSitter.extract_named_defs os ts).
Local Abbreviation lang_of := (TreeSitter.lang_of os).

Lemma get_parser_for_lang_false lang :
  _get_parser_for_lang ts lang = false <->
  _TS_AVAILABLE ts = false \/ _get_parser ts "python" = false
  \/ _get_parser ts lang = false.
Proof.
  unfold _get_parser_for_lang, available.
  destruct (_TS_AVAILABLE ts), (_get_parser ts "python"), (_get_parser ts lang);
    simpl; split; try done; auto; intros [?|[?|?]]; done.
Qed.

Lemma extract_defs_raises file_path :
  extract_defs file_path = RuntimeError <->
  _TS_AVAILABLE ts = false
  \/ exists lang target_types,
       lang_of file_path = Some (lang, target_types)
       /\ (_get_parser ts "python" = false \/ _get_parser ts lang = false).
Proof.
  unfold TreeSitter.extract_defs, _require_tree_sitter.
  destruct (_TS_AVAILABLE ts) eqn:Ha; cbn [mbind Exc_bind bindE].
  - destruct (lang_of file_path) as [[lang tt]|] eqn:Hl.
    + destruct (_get_parser_for_lang ts lang) eqn:Hp; cbn [negb].
      * split.
        { by destruct (parse_file ts lang file_path). }
        intros [?|(l & t & [= <- <-] & Hq)]; [done|].
        assert (_get_parser_for_lang ts lang = false) as Hf
          by (apply get_parser_for_lang_false; tauto).
        congruence.
      * split; [|done]. intros _. right. exists lang, tt. split; [done|].
        apply get_parser_for_lang_false in Hp as [?|?]; [congruence | done].
    + split; [done|]. by intros [?|(l & t & ? & _)].
  - split; [by left | done].
Qed.

Lemma extract_named_defs_raises file_path :
  extract_named_defs file_path = RuntimeError <->
  extract_defs file_path = RuntimeError.
Proof.
  unfold TreeSitter.extract_named_defs, TreeSitter.extract_defs.
  destruct (_require_tree_sitter ts); cbn [mbind Exc_bind bindE]; [|done].
  destruct (lang_of file_path) as [[lang tt]|]; [|done].
  destruct (negb (_get_parser_for_lang ts lang)); [done|].
  by destruct (parse_file ts lang file_path).
Qed.

(** What [extract_defs] records of a node. *)
Local Abbreviation is_def target_types node :=
  (match node with
   | mkNode is_named node_type _ _ _ =>
       is_named = true /\ contains "comment" node_type = false
       /\ str_in node_type target_types = true
   end).

Local Abbreviation record_of node :=
  (match node with
   | mkNode _ node_type start_byte end_byte _ => (node_type, start_byte, end_byte)
   end).

Lemma walk_defs_descendants target_types : forall root d,
  d ∈ walk_defs target_types root ->
  exists node, node ∈ _iter_descendants root
    /\ is_def target_types node /\ d = record_of node.
Proof.
  fix IH 1. intros [named ty s e ch] d Hd. simpl in Hd.
  destruct named eqn:Hn; cbn [negb] in Hd; [|by apply elem_of_nil in Hd].
  destruct (contains "comment" ty) eqn:Hc; [by apply elem_of_nil in Hd|].
  apply elem_of_app in Hd as [Hd|Hd].
  - destruct (str_in ty target_types) eqn:Ht; [|by apply elem_of_nil in Hd].
    apply list_elem_of_singleton in Hd as ->.
    exists (mkNode true ty s e ch). split; [simpl; left | done].
  - assert (exists node, node ∈ flat_map _iter_descendants ch
              /\ is_def target_types node /\ d = record_of node)
      as (node & Hin & Hnode).
    { clear Hn Hc. induction ch as [|c ch IHch]; simpl in Hd.
      - by apply elem_of_nil in Hd.
      - apply elem_of_app in Hd as [Hd|Hd].
        + destruct (IH c d Hd) as (node & Hin & Hnode).
          exists node. split; [|done]. simpl. apply elem_of_app. by left.
        + destruct (IHch Hd) as (node & Hin & Hnode).
          exists node. split; [|done]. simpl. apply elem_of_app. by right. }
    exists node. split; [|done]. simpl. by right.
Qed.

(** X12: [extract_defs] raises exactly when tree-sitter is missing, or the
    file has a known language for which no parser comes back; that is also
    the case when the Python parser is missing, whatever the language of
    the file.  [extract_named_defs] raises in exactly the same cases.  For
    a file whose extension or language is not known both return the empty
    list once tree-sitter is there.  Where both return, every definition
    [extract_defs] records belongs to a node that [extract_named_defs]
    records too, under its name, unless that name is empty. *)
Theorem extract_defs_raises_iff (file_path : string) :
  (extract_defs file_path = RuntimeError <->
     _TS_AVAILABLE ts = false
     \/ exists lang target_types,
          lang_of file_path = Some (lang, target_types)
          /\ (_get_parser ts "python" = false \/ _get_parser ts lang = false))
  /\ (extract_named_defs file_path = RuntimeError <->
        extract_defs file_path = RuntimeError)
  /\ (_TS_AVAILABLE ts = true -> lang_of file_path = None ->
        extract_defs file_path = Ok [] /\ extract_named_defs file_path = Ok [])
  /\ (forall defs named d,
        extract_defs file_path = Ok defs ->
        extract_named_defs file_path = Ok named ->
        d ∈ defs ->
        exists node, d = record_of node
          /\ (_best_name_for_def ts file_path node <> EmptyString ->
                (d.1.1, _best_name_for_def ts file_path node, d.1.2, d.2) ∈ named)).
Proof.
  split; [apply extract_defs_raises|].
  split; [apply extract_named_defs_raises|].
  split.
  { intros Ha Hl. unfold TreeSitter.extract_defs, TreeSitter.extract_named_defs,
      _require_tree_sitter. rewrite Ha. cbn [mbind Exc_bind bindE].
    by rewrite Hl. }
  intros defs named d.
  unfold TreeSitter.extract_defs, TreeSitter.extract_named_defs.
  destruct (_require_tree_sitter ts); cbn [mbind Exc_bind bindE]; [|done].
  destruct (lang_of file_path) as [[lang tt]|].
  2:{ intros [= <-] _ Hd. by apply elem_of_nil in Hd. }
  destruct (negb (_get_parser_for_lang ts lang)); [done|].
  destruct (parse_file ts lang file_path) as [root|].
  2:{ intros [= <-] _ Hd. by apply elem_of_nil in Hd. }
  intros [= <-] [= <-] Hd.
  apply walk_defs_descendants in Hd as (node & Hin & Hdef & ->).
  exists node. split; [done|]. intros Hname.
  apply list_elem_of_In, List.in_flat_map. exists node.
  split; [by apply list_elem_of_In|].
  destruct node as [named ty s e ch]. destruct Hdef as (-> & -> & ->).
  cbn [negb]. apply is_empty_false in Hname. rewrite Hname. by left.
Qed.


(** A file of the request that exists and on which [extract_defs] raises. *)
Local Abbreviation raises_on repo_dir f :=
  (path_exists os (path_join os repo_dir f) = true
   /\ extract_defs (path_join os repo_dir f) = RuntimeError).

Lemma extract_def_set_in_spans_general spans repo_dir :
  match extract_def_set_in_spans os ts spans repo_dir with
  | RuntimeError => exists f ivs, spans !! f = Some ivs /\ raises_on repo_dir f
  | Ok defs =>
      (forall f ivs, spans !! f = Some ivs -> ~ raises_on repo_dir f)
      /\ forall f kind s e,
           (f, kind, s, e) ∈ defs <->
           (kind, s, e) ∈ file_defs os ts repo_dir f
           /\ exists ivs iv, spans !! f = Some ivs /\ iv ∈ ivs
                /\ overlaps s e iv = true
  end.
Proof.
  unfold extract_def_set_in_spans.
  apply (map_fold_weak_ind (fun r m =>
    match r with
    | RuntimeError => exists f ivs, m !! f = Some ivs /\ raises_on repo_dir f
    | Ok defs =>
        (forall f ivs, m !! f = Some ivs -> ~ raises_on repo_dir f)
        /\ forall f kind s e,
             (f, kind, s, e) ∈ defs <->
             (kind, s, e) ∈ file_defs os ts repo_dir f
             /\ exists ivs iv, m !! f = Some ivs /\ iv ∈ ivs
                  /\ overlaps s e iv = true
    end)).
  - split; [intros f ivs H; by rewrite lookup_empty in H|].
    intros f kind s e. split.
    + intros H. by apply not_elem_of_empty in H.
    + intros (_ & ivs & iv & H & _). by rewrite lookup_empty in H.
  - intros i x m r Hi Hr. destruct r as [defs0|]; cbn [mbind Exc_bind bindE].
    2:{ destruct Hr as (f & ivs & Hf & Hraise). exists f, ivs.
        split; [|done]. rewrite lookup_insert_ne; [done|].
        intros ->. by rewrite Hi in Hf. }
    destruct Hr as [Hno HS].
    destruct (path_exists os (path_join os repo_dir i)) eqn:Hex; cbn [negb].
    + destruct (extract_defs (path_join os repo_dir i)) as [defs|] eqn:Hdefs;
        cbn [mbind Exc_bind bindE].
      2:{ exists i, x. by rewrite lookup_insert_eq. }
      assert (file_defs os ts repo_dir i = defs) as Hfd.
      { unfold Vocabulary.file_defs. by rewrite Hex, Hdefs. }
      split.
      { intros f ivs Hf. destruct (decide (i = f)) as [<-|Hne].
        - intros [_ Hraise]. congruence.
        - rewrite lookup_insert_ne in Hf by done. by apply (Hno f ivs). }
      intros f kind s e. rewrite elem_of_union, HS, elem_of_defs_in_spans.
      split.
      * intros [(Hd & ivs & iv & Hm & Hiv & Ho) | (-> & Hd & iv & Hiv & Ho)].
        -- split; [done|]. exists ivs, iv. split; [|done].
           rewrite lookup_insert_ne; [done|]. intros ->. by rewrite Hi in Hm.
        -- rewrite Hfd. split; [done|]. exists x, iv. by rewrite lookup_insert_eq.
      * intros (Hd & ivs & iv & Hm & Hiv & Ho).
        destruct (decide (i = f)) as [->|Hne].
        -- rewrite lookup_insert_eq in Hm. injection Hm as ->.
           right. rewrite <- Hfd. split; [done|]. split; [done|]. by exists iv.
        -- rewrite lookup_insert_ne in Hm by done. left. split; [done|].
           by exists ivs, iv.
    + split.
      { intros f ivs Hf. destruct (decide (i = f)) as [<-|Hne].
        - intros [Hp _]. congruence.
        - rewrite lookup_insert_ne in Hf by done. by apply (Hno f ivs). }
      intros f kind s e. rewrite HS.
      split; intros (Hd & ivs & iv & Hm & Hiv & Ho); (split; [done|]).
      * exists ivs, iv. split; [|done].
        rewrite lookup_insert_ne; [done|]. intros ->. by rewrite Hi in Hm.
      * destruct (decide (i = f)) as [->|Hne].
        -- exfalso. unfold Vocabulary.file_defs in Hd. rewrite Hex in Hd.
           by apply elem_of_nil in Hd.
        -- rewrite lookup_insert_ne in Hm by done. by exists ivs, iv.
Qed.

(** X13: [extract_def_set_in_spans] raises exactly when one of the
    requested files exists under the repository and [extract_defs] raises
    on it; in particular it returns for an empty request and for files
    that do not exist, even without tree-sitter.  When it returns, its
    records are the definitions of the requested files that overlap one of
    the intervals requested for their file, so every record names a
    requested file. *)
Theorem extract_def_set_in_spans_raises_iff
    (spans : gmap string (list ByteInterval)) (repo_dir : string) :
  (extract_def_set_in_spans os ts spans repo_dir = RuntimeError <->
     exists f ivs, spans !! f = Some ivs
       /\ path_exists os (path_join os repo_dir f) = true
       /\ extract_defs (path_join os repo_dir f) = RuntimeError)
  /\ (forall defs, extract_def_set_in_spans os ts spans repo_dir = Ok defs ->
        forall f kind s e,
          (f, kind, s, e) ∈ defs <->
          (kind, s, e) ∈ file_defs os ts repo_dir f
          /\ exists ivs iv, spans !! f = Some ivs /\ iv ∈ ivs
               /\ overlaps s e iv = true)
  /\ extract_def_set_in_spans os ts ∅ repo_dir = Ok ∅.
Proof.
  pose proof (extract_def_set_in_spans_general spans repo_dir) as H.
  destruct (extract_def_set_in_spans os ts spans repo_dir) as [defs|].
  - destruct H as [Hno HS]. split; [|split; [|done]].
    + split; [done|]. intros (f & ivs & Hf & Hraise).
      by destruct (Hno f ivs Hf).
    + by intros ? [= <-].
  - split; [|split; [done|done]]. split; [|done]. intros _.
    destruct H as (f & ivs & Hf & Hp & Hr). by exists f, ivs.
Qed.

(** The inner loop of [extract_def_set_from_symbol_names] over the
    candidates of one symbol. *)
Lemma elem_of_by_name (named_defs : list NamedDef) cand kind s e :
  (kind, s, e) ∈ flat_map (fun '(kind, name, s, e) =>
      if String.eqb name cand then [(kind, s, e)] else []) named_defs
  <-> (kind, cand, s, e) ∈ named_defs.
Proof.
  rewrite list_elem_of_In, List.in_flat_map. split.
  - intros ([[[k n] s0] e0] & Hin & Hd).
    destruct (String.eqb n cand) eqn:Hn; [|done].
    apply String.eqb_eq in Hn as ->. destruct Hd as [[= -> -> ->]|[]].
    by apply list_elem_of_In.
  - intros Hin. exists (kind, cand, s, e).
    split; [by apply list_elem_of_In|]. rewrite String.eqb_refl. by left.
Qed.

Lemma by_name_nil (named_defs : list NamedDef) cand :
  flat_map (fun '(kind, name, s, e) =>
      if String.eqb name cand then [(kind, s, e)] else []) named_defs = []
  <-> forall kind s e, (kind, cand, s, e) ∉ named_defs.
Proof.
  split.
  - intros Hnil kind s e Hin. apply elem_of_by_name in Hin.
    rewrite Hnil in Hin. by apply elem_of_nil in Hin.
  - intros Hno. apply elem_of_nil_inv. intros [[k s] e] Hin.
    apply elem_of_by_name in Hin. by apply Hno in Hin.
Qed.

Lemma elem_of_defs_of_symbol (named_defs : list NamedDef) raw kind s e :
  (kind, s, e) ∈ defs_of_symbol named_defs raw <->
  strip raw <> EmptyString
  /\ ((kind, strip raw, s, e) ∈ named_defs
      \/ ((forall k s' e', (k, strip raw, s', e') ∉ named_defs)
          /\ has_char dot (strip raw) = true
          /\ (kind, last_component (strip raw), s, e) ∈ named_defs)).
Proof.
  unfold defs_of_symbol. cbv zeta.
  destruct (is_empty (strip raw)) eqn:Hemp.
  { apply is_empty_true in Hemp. split; [by intros ?%elem_of_nil | by intros [? _]]. }
  apply is_empty_false in Hemp.
  set (by_name := fun cand : string =>
    flat_map (fun '(kind, name, s, e) =>
      if String.eqb name cand then [(kind, s, e)] else []) named_defs).
  cbn [List.map List.filter].
  destruct (by_name (strip raw)) as [|d l] eqn:Hsym.
  - pose proof (proj1 (by_name_nil named_defs (strip raw)) Hsym) as Hno.
    clear Hsym. rename Hno into Hsym.
    destruct (has_char dot (strip raw)) eqn:Hdot; cbn [List.map List.filter].
    + destruct (by_name (last_component (strip raw))) as [|d l] eqn:Hlast.
      * pose proof (proj1 (by_name_nil named_defs (last_component (strip raw)))
                      Hlast) as Hno.
        clear Hlast. rename Hno into Hlast.
        split; [by intros ?%elem_of_nil|].
        intros [_ [H|(_ & _ & H)]]; [by apply Hsym in H | by apply Hlast in H].
      * rewrite <- Hlast. unfold by_name. rewrite elem_of_by_name.
        split; [by intros H; split; [|right] |].
        intros [_ [H|(_ & _ & H)]]; [by apply Hsym in H | done].
    + split; [by intros ?%elem_of_nil|].
      intros [_ [H|(_ & ? & _)]]; [by apply Hsym in H | done].
  - rewrite <- Hsym. unfold by_name at 1. rewrite elem_of_by_name.
    split; [by intros H; split; [|left] |].
    intros [_ [H|(Hno & _)]]; [done|]. exfalso.
    destruct d as [[k s0] e0]. apply (Hno k s0 e0).
    apply elem_of_by_name. fold (by_name (strip raw)). rewrite Hsym. left.
Qed.

(** A file of the table that is looked up and on which
    [extract_named_defs] raises. *)
Local Abbreviation looked_up repo_dir rel symbols :=
  (rel <> EmptyString /\ symbols <> ([] : list string)
   /\ path_exists os (path_join os repo_dir rel) = true).

Local Abbreviation names_step repo_dir :=
  (fun (acc : Exc (gset Def)) '(rel_path, symbols) =>
    out ← acc;
    if is_empty rel_path then Ok out else
    match symbols with
    | [] => Ok out
    | _ =>
        let abs_path := path_join os repo_dir rel_path in
        if negb (path_exists os abs_path) then Ok out else
        named_defs ← extract_named_defs abs_path;
        Ok (out ∪ list_to_set
              (flat_map (fun raw =>
                 List.map (fun '(kind, s, e) => (rel_path, kind, s, e))
                   (defs_of_symbol named_defs raw)) symbols))
    end).

Lemma names_loop_raised repo_dir table :
  fold_left (names_step repo_dir) table RuntimeError = RuntimeError.
Proof. induction table as [|[rel symbols] table IH]; [done | exact IH]. Qed.

Lemma names_loop_general repo_dir table : forall out0,
  match fold_left (names_step repo_dir) table (Ok out0) with
  | RuntimeError =>
      exists rel symbols, (rel, symbols) ∈ table /\ looked_up repo_dir rel symbols
        /\ extract_named_defs (path_join os repo_dir rel) = RuntimeError
  | Ok defs =>
      (forall rel symbols, (rel, symbols) ∈ table ->
         looked_up repo_dir rel symbols ->
         extract_named_defs (path_join os repo_dir rel) <> RuntimeError)
      /\ forall f kind s e,
           (f, kind, s, e) ∈ defs <->
           (f, kind, s, e) ∈ out0
           \/ exists symbols named raw,
                (f, symbols) ∈ table /\ looked_up repo_dir f symbols
                /\ extract_named_defs (path_join os repo_dir f) = Ok named
                /\ raw ∈ symbols /\ (kind, s, e) ∈ defs_of_symbol named raw
  end.
Proof.
  induction table as [|[rel symbols] table IH]; intros out0.
  { simpl. split; [by intros ?? ?%elem_of_nil|].
    intros f kind s e. split; [by left|].
    intros [H|(? & ? & ? & H & _)]; [done | by apply elem_of_nil in H]. }
  cbn [fold_left]. cbn [mbind Exc_bind bindE].
  assert (~ looked_up repo_dir rel symbols ->
    match fold_left (names_step repo_dir) table (Ok out0) with
    | RuntimeError =>
        exists rel0 symbols0, (rel0, symbols0) ∈ (rel, symbols) :: table
          /\ looked_up repo_dir rel0 symbols0
          /\ extract_named_defs (path_join os repo_dir rel0) = RuntimeError
    | Ok defs =>
        (forall rel0 symbols0, (rel0, symbols0) ∈ (rel, symbols) :: table ->
           looked_up repo_dir rel0 symbols0 ->
           extract_named_defs (path_join os repo_dir rel0) <> RuntimeError)
        /\ forall f kind s e,
             (f, kind, s, e) ∈ defs <->
             (f, kind, s, e) ∈ out0
             \/ exists symbols0 named raw,
                  (f, symbols0) ∈ (rel, symbols) :: table
                  /\ looked_up repo_dir f symbols0
                  /\ extract_named_defs (path_join os repo_dir f) = Ok named
                  /\ raw ∈ symbols0 /\ (kind, s, e) ∈ defs_of_symbol named raw
    end) as Hskip.
  { intros Hnot. specialize (IH out0).
    destruct (fold_left (names_step repo_dir) table (Ok out0)) as [defs|].
    - destruct IH as [Hno HS]. split.
      + intros r0 s0 [[= -> ->]|Hin]%elem_of_cons Hl; [done|].
        by apply (Hno r0 s0).
      + intros f kind s e. rewrite HS. split.
        * intros [H|(sy & nm & raw & Hin & Hrest)]; [by left|].
          right. exists sy, nm, raw. split; [by right | done].
        * intros [H|(sy & nm & raw & Hin & Hl & Hrest)]; [by left|].
          apply elem_of_cons in Hin as [[= -> ->]|Hin]; [done|].
          right. by exists sy, nm, raw.
    - destruct IH as (r0 & s0 & Hin & Hrest). exists r0, s0.
      split; [by right | done]. }
  destruct (is_empty rel) eqn:Hrel.
  { apply Hskip. apply is_empty_true in Hrel. by intros [? _]. }
  apply is_empty_false in Hrel.
  destruct symbols as [|sym symbols].
  { apply Hskip. by intros (_ & ? & _). }
  destruct (path_exists os (path_join os repo_dir rel)) eqn:Hex; cbn [negb].
  2:{ apply Hskip. by intros (_ & _ & ?). }
  clear Hskip.
  destruct (extract_named_defs (path_join os repo_dir rel)) as [named|] eqn:Hn;
    cbn [mbind Exc_bind bindE].
  2:{ rewrite names_loop_raised. exists rel, (sym :: symbols).
      split; [left | done]. }
  specialize (IH (out0 ∪ list_to_set
    (flat_map (fun raw =>
       List.map (fun '(kind, s, e) => (rel, kind, s, e))
         (defs_of_symbol named raw)) (sym :: symbols)))).
  destruct (fold_left (names_step repo_dir) table _) as [defs|].
  - destruct IH as [Hno HS]. split.
    + intros r0 s0 [[= -> ->]|Hin]%elem_of_cons Hl; [congruence|].
      by apply (Hno r0 s0).
    + intros f kind s e. rewrite HS, elem_of_union, elem_of_list_to_set.
      rewrite list_elem_of_In, List.in_flat_map.
      split.
      * intros [[H|(raw & Hraw & Hd)]|(sy & nm & raw & Hin & Hrest)].
        -- by left.
        -- apply List.in_map_iff in Hd as ([[k s0] e0] & [= <- <- <- <-] & Hd).
           right. exists (sym :: symbols), named, raw.
           split; [left|]. split; [done|]. split; [done|].
           split; by apply list_elem_of_In.
        -- right. exists sy, nm, raw. split; [by right | done].
      * intros [H|(sy & nm & raw & Hin & Hl & Hnm & Hraw & Hd)]; [by left; left|].
        apply elem_of_cons in Hin as [[= -> ->]|Hin].
        -- left. right. exists raw. split; [by apply list_elem_of_In|].
           apply List.in_map_iff. exists (kind, s, e). split; [done|].
           assert (nm = named) as -> by congruence.
           by apply list_elem_of_In.
        -- right. by exists sy, nm, raw.
  - destruct IH as (r0 & s0 & Hin & Hrest). exists r0, s0.
    split; [by right | done].
Qed.

(** X14: [extract_def_set_from_symbol_names] looks a file up when its name
    and its list of symbols are not empty and it exists under the
    repository; it raises exactly when [extract_named_defs] raises on a
    file it looks up.  When it returns, its records are the definitions of
    the files looked up that a predicted symbol resolves to, and a symbol,
    stripped of surrounding whitespace, resolves to the definitions of that
    exact name, or, only when there is none and the symbol has a dot, to
    the definitions named by what follows its last dot. *)
Theorem extract_def_set_from_symbol_names_resolves
    (table : list (string * list string)) (repo_dir : string) :
  (extract_def_set_from_symbol_names os ts table repo_dir = RuntimeError <->
     exists rel symbols, (rel, symbols) ∈ table
       /\ rel <> EmptyString /\ symbols <> []
       /\ path_exists os (path_join os repo_dir rel) = true
       /\ extract_named_defs (path_join os repo_dir rel) = RuntimeError)
  /\ (forall defs,
        extract_def_set_from_symbol_names os ts table repo_dir = Ok defs ->
        forall f kind s e,
          (f, kind, s, e) ∈ defs <->
          exists symbols named raw,
            (f, symbols) ∈ table /\ f <> EmptyString
            /\ path_exists os (path_join os repo_dir f) = true
            /\ extract_named_defs (path_join os repo_dir f) = Ok named
            /\ raw ∈ symbols /\ strip raw <> EmptyString
            /\ ((kind, strip raw, s, e) ∈ named
                \/ ((forall k s' e', (k, strip raw, s', e') ∉ named)
                    /\ has_char dot (strip raw) = true
                    /\ (kind, last_component (strip raw), s, e) ∈ named))).
Proof.
  pose proof (names_loop_general repo_dir table ∅) as H.
  unfold extract_def_set_from_symbol_names.
  destruct (fold_left (names_step repo_dir) table (Ok ∅)) as [defs|].
  - destruct H as [Hno HS]. split.
    + split; [done|]. intros (rel & symbols & Hin & H1 & H2 & H3 & Hr).
      by destruct (Hno rel symbols Hin).
    + intros ? [= <-] f kind s e. rewrite HS. split.
      * intros [H|(sy & nm & raw & Hin & (H1 & H2 & H3) & Hnm & Hraw & Hd)];
          [by apply not_elem_of_empty in H|].
        apply elem_of_defs_of_symbol in Hd as [Hne Hd].
        exists sy, nm, raw. done.
      * intros (sy & nm & raw & Hin & H1 & H3 & Hnm & Hraw & Hne & Hd).
        right. exists sy, nm, raw. split; [done|].
        split; [split; [done|]; split; [|done]; intros ->;
                by apply elem_of_nil in Hraw |].
        split; [done|]. split; [done|]. by apply elem_of_defs_of_symbol.
  - split; [|done]. split; [|done]. intros _.
    destruct H as (rel & symbols & Hin & (H1 & H2 & H3) & Hr).
    by exists rel, symbols.
Qed.

End WithParsers.

Lemma extract_def_set_in_spans_raises_iff_witness :
  exists defs,
    extract_def_set_in_spans Scenarios.bare_os Scenarios.bare_ts ∅ "/repo"
      = Ok defs
    /\ forall f kind s e, (f, kind, s, e) ∉ defs.
Proof.
  exists ∅.
  destruct (extract_def_set_in_spans_raises_iff Scenarios.bare_os
              Scenarios.bare_ts ∅ "/repo") as (_ & Hmem & He).
  split; [exact He|]. intros f kind s e Hin.
  apply (Hmem ∅ He) in Hin as (_ & ivs & iv & Hl & _).
  by rewrite lookup_empty in Hl.
Defined.

Lemma extract_defs_raises_iff_witness :
  TreeSitter.extract_defs Scenarios.bare_os Scenarios.bare_ts "notes.txt" = Ok [].
Proof.
  assert (_TS_AVAILABLE Scenarios.bare_ts = true) as Ha by reflexivity.
  assert (TreeSitter.lang_of Scenarios.bare_os "notes.txt" = None) as Hl
    by (by vm_compute).
  destruct (extract_defs_raises_iff Scenarios.bare_os Scenarios.bare_ts
              "notes.txt") as (_ & _ & Hnone & _).
  exact (proj1 (Hnone Ha Hl)).
Defined.

Lemma extract_def_set_from_symbol_names_resolves_witness :
  exists defs,
    extract_def_set_from_symbol_names Scenarios.bare_os Scenarios.bare_ts
      [("a.py", ["f"])] "/repo" = Ok defs
    /\ forall kind s e, ("b.py", kind, s, e) ∉ defs.
Proof.
  assert (extract_def_set_from_symbol_names Scenarios.bare_os Scenarios.bare_ts
            [("a.py", ["f"])] "/repo" = Ok ∅) as He by reflexivity.
  exists ∅. split; [exact He|]. intros kind s e Hin.
  destruct (extract_def_set_from_symbol_names_resolves Scenarios.bare_os
              Scenarios.bare_ts [("a.py", ["f"])] "/repo") as [_ Hmem].
  apply (Hmem ∅ He) in Hin as (symbols & named & raw & Hin & _).
  apply list_elem_of_singleton in Hin. discriminate Hin.
Defined.

End ExtractorErrors.

(** ** When the trajectory metrics raise *)

Module TrajectoryErrors.
Import PyStr Traj LineIntervals TreeSitter Metrics Compute Vocabulary.
Import MapFacts SeenFacts TrajectoryFacts.

Section WithGold.
Variable os : OsPath.
Variable ts : Parsers.
Variable core : Core.
Variable gold_files : gset string.
Variable gold_symbols : gset Def.
Variable gold_spans : gmap string (list ByteInterval).
Variable repo_dir : string.
Variable gold_lines : gmap string (list LineInterval).

Local Abbreviation observe := (Vocabulary.observe os ts core repo_dir).
Local Abbreviation coverage_of :=
  (Vocabulary.coverage_of core gold_files gold_symbols gold_spans gold_lines).
Local Abbreviation entries :=
  (Vocabulary.entries os ts core gold_files gold_symbols gold_spans repo_dir
     gold_lines).
Local Abbreviation loop :=
  (traj_loop os ts core gold_files gold_symbols gold_spans repo_dir gold_lines).
Local Abbreviation step_symbols_of := (Compute.step_symbols_of os ts core repo_dir).

Lemma traj_step_general t step a :
  match step_symbols_of step with
  | RuntimeError =>
      traj_step os ts core gold_files gold_symbols gold_spans repo_dir
        gold_lines t step a = RuntimeError
  | Ok _ =>
      traj_step os ts core gold_files gold_symbols gold_spans repo_dir
        gold_lines t step a =
      Ok (acc_of_seen (observe (seen_of_acc a) step)
            (per_step_metrics a
               ++ [mkStepMetrics (t + 1)
                     (coverage_of (observe (seen_of_acc a) step))]))
  end.
Proof.
  unfold traj_step, Vocabulary.observe, Vocabulary.coverage_of,
    Vocabulary.symbols_seen.
  by destruct (step_symbols_of step).
Qed.

Lemma traj_loop_general steps : forall t a,
  match loop t steps a with
  | RuntimeError =>
      exists step, step ∈ steps /\ step_symbols_of step = RuntimeError
  | Ok a' =>
      Forall (fun step => step_symbols_of step <> RuntimeError) steps
      /\ seen_of_acc a' = fold_left observe steps (seen_of_acc a)
      /\ per_step_metrics a' =
           per_step_metrics a ++ entries t (seen_of_acc a) steps
  end.
Proof.
  induction steps as [|step steps IH]; intros t a; cbn [traj_loop].
  - split; [constructor|]. split; [done|]. simpl. by rewrite app_nil_r.
  - pose proof (traj_step_general t step a) as Hstep.
    destruct (step_symbols_of step) as [defs|] eqn:Hdefs; rewrite Hstep;
      cbn [mbind Exc_bind bindE].
    2:{ exists step. split; [left | done]. }
    specialize (IH (t + 1) (acc_of_seen (observe (seen_of_acc a) step)
      (per_step_metrics a
         ++ [mkStepMetrics (t + 1) (coverage_of (observe (seen_of_acc a) step))]))).
    destruct (loop (t + 1) steps _) as [a'|].
    + destruct IH as (Hall & Hs & Hp). rewrite seen_of_acc_of_seen in Hs, Hp.
      split; [constructor; [by rewrite Hdefs | done]|].
      split; [done|]. rewrite Hp. cbn [acc_of_seen per_step_metrics].
      by rewrite <- app_assoc.
    + destruct IH as (s & Hin & Hraise). exists s. split; [by right | done].
Qed.

Lemma step_to_byte_spans_no_spans step :
  spans step = [] -> _step_to_byte_spans os core step repo_dir = ∅.
Proof. intros H. unfold _step_to_byte_spans. rewrite H. apply fmap_empty. Qed.

Lemma step_symbols_of_no_spans step :
  spans step = [] -> symbols step = [] -> step_symbols_of step = Ok ∅.
Proof.
  intros Hsp Hsy. unfold Compute.step_symbols_of.
  by rewrite Hsy, step_to_byte_spans_no_spans.
Qed.

End WithGold.

(** X15: [compute_trajectory_metrics] raises exactly when the symbol
    extraction of one of the steps raises, and then returns nothing for the
    steps before it either.  When it returns, the result has one entry per
    step and is what the cumulative unions give.  A trajectory whose steps
    have neither spans nor symbols never raises, with or without
    tree-sitter. *)
Theorem compute_trajectory_metrics_raises_iff os ts core (steps : list Step)
    gold_files gold_symbols gold_spans repo_dir gold_lines :
  (compute_trajectory_metrics os ts core steps gold_files gold_symbols
     gold_spans repo_dir gold_lines = RuntimeError <->
   exists step, step ∈ steps
     /\ step_symbols_of os ts core repo_dir step = RuntimeError)
  /\ (forall m,
        compute_trajectory_metrics os ts core steps gold_files gold_symbols
          gold_spans repo_dir gold_lines = Ok m ->
        List.length (Compute.steps m) = List.length steps
        /\ m = match steps with
               | [] => mkTrajMetrics [] zero4 zero4
               | _ => metrics_of os ts core gold_files gold_symbols gold_spans
                        repo_dir (default ∅ gold_lines) steps
               end)
  /\ (Forall (fun step => spans step = [] /\ symbols step = []) steps ->
        exists m,
          compute_trajectory_metrics os ts core steps gold_files gold_symbols
            gold_spans repo_dir gold_lines = Ok m).
Proof.
  assert (Forall (fun step => spans step = [] /\ symbols step = []) steps ->
          ~ exists step, step ∈ steps
              /\ step_symbols_of os ts core repo_dir step = RuntimeError)
    as Hquiet.
  { intros Hall (step & Hin & Hraise). rewrite Forall_forall in Hall.
    destruct (Hall step Hin) as [Hsp Hsy].
    by rewrite (step_symbols_of_no_spans os ts core repo_dir step Hsp Hsy)
      in Hraise. }
  unfold compute_trajectory_metrics.
  destruct steps as [|s0 steps0] eqn:Hsteps.
  { split; [|split].
    - split; [done|]. by intros (step & Hin%elem_of_nil & _).
    - by intros m [= <-].
    - intros _. by eexists. }
  rewrite <- Hsteps in *.
  rewrite bool_decide_eq_false_2 by (rewrite Hsteps; simpl; lia).
  pose proof (traj_loop_general os ts core gold_files gold_symbols gold_spans
                repo_dir (default ∅ gold_lines) steps 0 acc0) as Hloop.
  destruct (traj_loop os ts core gold_files gold_symbols gold_spans repo_dir
              (default ∅ gold_lines) 0 steps acc0) as [a|];
    cbn [mbind Exc_bind bindE].
  - destruct Hloop as (Hall & Hs & Hp). split; [|split].
    + split; [done|]. intros (step & Hin & Hraise).
      rewrite Forall_forall in Hall. by destruct (Hall step Hin).
    + intros m [= <-]. cbn [Compute.steps]. simpl in Hp. rewrite Hp.
      split; [apply length_entries|].
      unfold metrics_of, cumulative.
      change (seen_of_acc acc0) with seen0 in Hs |- *.
      rewrite <- Hs. by destruct a.
    + intros _. by eexists.
  - split; [|split].
    + split; [intros _; exact Hloop | done].
    + by intros m.
    + intros Hall. by destruct (Hquiet Hall).
Qed.

Lemma compute_trajectory_metrics_raises_iff_witness :
  exists m,
    compute_trajectory_metrics Scenarios.bare_os
      (World.tree_sitter [] []) World.ten_byte_lines
      [mkStep ["a.py"] [] []; mkStep ["b.py"] [] []] {["a.py"]} ∅ ∅ "/repo" None
      = Ok m.
Proof.
  assert (Forall (fun step => spans step = [] /\ symbols step = [])
            [mkStep ["a.py"] [] []; mkStep ["b.py"] [] []]) as Hall.
  { repeat constructor. }
  destruct (compute_trajectory_metrics_raises_iff Scenarios.bare_os
              (World.tree_sitter [] []) World.ten_byte_lines
              [mkStep ["a.py"] [] []; mkStep ["b.py"] [] []]
              {["a.py"]} ∅ ∅ "/repo" None) as (_ & _ & Hq).
  exact (Hq Hall).
Defined.

End TrajectoryErrors.

(** ** EditLoc and aggregation: bounds and round trips *)

Module EditLocFacts.
Import PyStr Traj Parse LineIntervals TreeSitter Metrics Compute Evaluate.
Import Vocabulary MetricsFacts LineIntervalsFacts MapFacts LineSetFacts.
Import RatioFacts EditLocClaims.

Lemma length_filter_le {A} (P : A -> bool) l :
  (List.length (List.filter P l) <= List.length l)%nat.
Proof. induction l as [|x l IH]; simpl; [lia|]. destruct (P x); simpl; lia. Qed.

Lemma length_filter_all {A} (P : A -> bool) l :
  List.length (List.filter P l) = List.length l <-> Forall (fun x => P x = true) l.
Proof.
  induction l as [|x l IH]; simpl; [by split; [constructor|]|].
  pose proof (length_filter_le P l) as Hle.
  destruct (P x) eqn:Hx; simpl.
  - rewrite Forall_cons. split.
    + intros [= H]. split; [done | by apply IH].
    + intros [_ H]. f_equal. by apply IH.
  - split; [lia|]. intros [H _]%Forall_cons. congruence.
Qed.

Lemma length_filter_none {A} (P : A -> bool) l :
  List.length (List.filter P l) = 0%nat <-> Forall (fun x => P x = false) l.
Proof.
  induction l as [|x l IH]; simpl; [by split; [constructor|]|].
  destruct (P x) eqn:Hx; simpl.
  - split; [lia|]. intros [H _]%Forall_cons. congruence.
  - rewrite Forall_cons. split; [by intros H; split; [|apply IH] | by intros [_ H]; apply IH].
Qed.

Lemma hit_rate_bounds (h n : Z) :
  0 <= h <= n ->
  (0 <= (if bool_decide (n > 0)%Z then div h n else 0) <= 1)%Q
  /\ (((if bool_decide (n > 0)%Z then div h n else 0) == 1)%Q <-> 0 < n /\ h = n)
  /\ (((if bool_decide (n > 0)%Z then div h n else 0) == 0)%Q <-> h = 0).
Proof.
  intros [H0 Hn]. case_bool_decide as Hpos.
  - split; [split; [apply div_nonneg | apply div_le_1]; lia|].
    rewrite div_eq_1, div_eq_0 by lia. split; [|done]. split; [lia | tauto].
  - split; [split; unfold Qle; simpl; lia|].
    split; [|split; [lia | reflexivity]].
    split; [intros H; by vm_compute in H | lia].
Qed.

(** X16: whatever the diff, the EditLoc block counts between zero and
    [pred_size] hits and reports a precision equal to its recall, between
    [0.0] and [1.0]; the recall is [1.0] exactly when the diff deletes at
    least one line and every deleted line lies in a gold range of its file,
    and [0.0] exactly when no deleted line does.  The block is absent
    exactly when the model patch and the gold patch are both empty. *)
Theorem editloc_bounds dp (gold : Gold) (pred_data : PredData)
    (edits gold_spans : gmap string (list LineInterval)) :
  let e := editloc_of edits gold_spans in
  0 <= el_intersection e <= el_pred_size e
  /\ el_precision e = recall e
  /\ (0 <= recall e <= 1)%Q
  /\ (0 < el_pred_size e <-> exists f p, covered p (get_list edits f))
  /\ ((recall e == 1)%Q <->
        (exists f p, covered p (get_list edits f))
        /\ forall f p, covered p (get_list edits f) ->
             covered p (get_list gold_spans f))
  /\ ((recall e == 0)%Q <->
        forall f p, covered p (get_list edits f) ->
          ~ covered p (get_list gold_spans f))
  /\ (editloc_block dp gold pred_data = None <->
        model_patch pred_data = EmptyString /\ gold_patch gold = EmptyString).
Proof.
  cbv zeta. unfold editloc_of.
  cbn [el_intersection el_pred_size el_precision recall].
  set (l := edit_pred_lines edits).
  set (P := fun '(file_path, line_num) =>
              in_gold (get_list gold_spans file_path) line_num).
  unfold edit_pred_lines_in_gold. fold P.
  pose proof (length_filter_le P l) as Hle.
  assert (0 <= Z.of_nat (List.length (List.filter P l))
          <= Z.of_nat (List.length l)) as Hb by lia.
  destruct (hit_rate_bounds _ _ Hb) as (Hr & H1 & H0).
  assert (0 < Z.of_nat (List.length l)
          <-> exists f p, covered p (get_list edits f)) as Hpos.
  { split.
    - intros Hl. destruct l as [|[f p] l'] eqn:El; [simpl in Hl; lia|].
      exists f, p. apply elem_of_edit_pred_lines. fold l. rewrite El. left.
    - intros (f & p & Hc). apply elem_of_edit_pred_lines in Hc. fold l in Hc.
      destruct l; [by apply elem_of_nil in Hc | simpl; lia]. }
  split; [exact Hb|]. split; [done|]. split; [exact Hr|]. split; [exact Hpos|].
  split; [|split].
  - rewrite H1, Hpos, Nat2Z.inj_iff, length_filter_all, Forall_forall.
    split; intros [He Hall]; (split; [done|]).
    + intros f p Hc. apply in_gold_covered.
      apply elem_of_edit_pred_lines in Hc. exact (Hall (f, p) Hc).
    + intros [f p] Hin. apply in_gold_covered, Hall.
      by apply elem_of_edit_pred_lines.
  - rewrite H0. change 0 with (Z.of_nat 0).
    rewrite Nat2Z.inj_iff, length_filter_none, Forall_forall. split.
    + intros Hall f p Hc Hg. apply elem_of_edit_pred_lines in Hc.
      specialize (Hall (f, p) Hc). simpl in Hall.
      apply in_gold_covered in Hg. congruence.
    + intros Hall [f p] Hin. simpl.
      destruct (in_gold (get_list gold_spans f) p) eqn:Hg; [|done].
      exfalso. apply (Hall f p); [by apply elem_of_edit_pred_lines|].
      by apply in_gold_covered.
  - unfold editloc_block.
    destruct (model_patch pred_data) as [|c s] eqn:Hm; simpl.
    + destruct (gold_patch gold); simpl; [done|]. split; [done | by intros [_ ?]].
    + split; [done | by intros [? _]].
Qed.

End EditLocFacts.

Module AggregateFacts.
Import PyStr Traj Parse LineIntervals TreeSitter Metrics Compute Evaluate.
Import Vocabulary MetricsFacts RatioFacts.

Local Abbreviation no_error := (fun r : Result => negb (is_some (error r))).

Lemma filter_filter {A} (P : A -> bool) l :
  List.filter P (List.filter P l) = List.filter P l.
Proof.
  induction l as [|x l IH]; simpl; [done|].
  destruct (P x) eqn:Hx; simpl; [by rewrite Hx, IH | done].
Qed.

(** X17: [aggregate_results] reports the number of rows as [num_total] and
    the number of rows without an ["error"] key as [num_valid]; the rows
    with an error change nothing else: the averages are those of the valid
    rows alone.  With no valid row no average is reported, and the AUC and
    redundancy averages are reported together or not at all. *)
Theorem aggregate_results_counts (results : list Result) :
  let agg := aggregate_results results in
  let valid := List.filter no_error results in
  num_total agg = Z.of_nat (List.length results)
  /\ num_valid agg = Z.of_nat (List.length valid)
  /\ 0 <= num_valid agg <= num_total agg
  /\ agg_final agg = agg_final (aggregate_results valid)
  /\ agg_traj_auc agg = agg_traj_auc (aggregate_results valid)
  /\ agg_traj_redundancy agg = agg_traj_redundancy (aggregate_results valid)
  /\ agg_editloc agg = agg_editloc (aggregate_results valid)
  /\ (valid = [] ->
        agg_final agg = None /\ agg_traj_auc agg = None
        /\ agg_traj_redundancy agg = None /\ agg_editloc agg = None)
  /\ (is_some (agg_traj_auc agg) = is_some (agg_traj_redundancy agg)).
Proof.
  cbv zeta.
  assert (List.length (List.filter no_error results) <= List.length results)%nat
    as Hle.
  { clear. induction results as [|x l IH]; simpl; [lia|].
    destruct (negb _); simpl; lia. }
  unfold aggregate_results. rewrite filter_filter.
  destruct (List.filter no_error results) as [|r valid'] eqn:Hv.
  - cbn. repeat split; try done; simpl in Hle; lia.
  - cbn [num_total num_valid agg_final agg_traj_auc agg_traj_redundancy
         agg_editloc].
    split; [done|]. split; [done|]. split; [lia|].
    split; [done|]. split; [done|]. split; [done|]. split; [done|].
    split; [done|].
    by destruct (existsb (fun r0 => is_some (trajectory r0)) (r :: valid')).
Qed.

Lemma aggregate_results_counts_witness :
  num_total (aggregate_results [error_row "i-1" "checkout_failed"]) = 1
  /\ num_valid (aggregate_results [error_row "i-1" "checkout_failed"]) = 0
  /\ agg_final (aggregate_results [error_row "i-1" "checkout_failed"]) = None.
Proof.
  destruct (aggregate_results_counts [error_row "i-1" "checkout_failed"])
    as (Ht & Hv & _ & _ & _ & _ & _ & Hnone & _).
  split; [exact Ht|]. split; [exact Hv|]. exact (proj1 (Hnone eq_refl)).
Defined.

Lemma gran_round_trip pred gold inter :
  coverage_precision_Z (pred_size (gran pred gold inter) + 0)
    (gold_size (gran pred gold inter) + 0)
    (intersection (gran pred gold inter) + 0)
  = (coverage (gran pred gold inter), precision (gran pred gold inter)).
Proof.
  rewrite !gran_fields. cbn [pred_size gold_size intersection coverage precision].
  rewrite !Z.add_0_r. apply coverage_precision_Z_eq.
Qed.

(** X18: aggregating the single row of one instance gives back that
    instance's own final coverage and precision at the file, symbol and
    span granularities, and at the line granularity when both line dicts
    were given; when a line dict was missing the instance reports line
    coverage and precision [0.0] while the aggregate reports [1.0]. *)
Theorem aggregate_single_row core pred_files pred_defs pred_spans gold_files
    gold_defs gold_spans pred_lines gold_lines
    (instance_id : string) (n : Z) traj el :
  let m := compute_granularity_metrics core pred_files pred_defs pred_spans
             gold_files gold_defs gold_spans pred_lines gold_lines in
  let own (g : Granular GranMetrics -> GranMetrics) :=
    (coverage (g m), precision (g m)) in
  exists agg,
    agg_final (aggregate_results
                 [mkResult instance_id None n (Some m) traj el]) = Some agg
    /\ g_file agg = own g_file
    /\ g_symbol agg = own g_symbol
    /\ g_span agg = own g_span
    /\ (is_some pred_lines && is_some gold_lines = true ->
          g_line agg = own g_line)
    /\ (is_some pred_lines && is_some gold_lines = false ->
          g_line agg = (1%Q, 1%Q) /\ own g_line = (0%Q, 0%Q)).
Proof.
  cbv zeta. eexists. split; [reflexivity|].
  cbn [g_file g_symbol g_span g_line].
  unfold final_field, sumZ. cbn [List.map foldr final Evaluate.final].
  unfold compute_granularity_metrics. cbn [g_file g_symbol g_span g_line].
  split; [apply gran_round_trip|]. split; [apply gran_round_trip|].
  split; [apply gran_round_trip|].
  destruct pred_lines as [pl|], gold_lines as [gl|]; cbn [is_some andb];
    (split; [intros H | intros H]); try done;
    try apply gran_round_trip; by vm_compute.
Qed.

Lemma aggregate_single_row_witness :
  exists agg,
    agg_final (aggregate_results
      [mkResult "i-1" None 1
         (Some (compute_granularity_metrics World.ten_byte_lines
                  {["a.py"]} ∅ ∅ {["a.py"; "b.py"]} ∅ ∅ None None))
         None None]) = Some agg
    /\ g_line agg = (1%Q, 1%Q).
Proof.
  destruct (aggregate_single_row World.ten_byte_lines {["a.py"]} ∅ ∅
              {["a.py"; "b.py"]} ∅ ∅ None None "i-1" 1 None None)
    as (agg & Hagg & _ & _ & _ & _ & Hnone).
  exists agg. split; [exact Hagg|]. by apply Hnone.
Defined.

End AggregateFacts.

(** ** The evaluation driver on a trajectory with steps *)

Module EvaluateFacts.
Import PyStr Traj Parse LineIntervals TreeSitter Metrics Compute Resolver Evaluate.
Import Vocabulary MetricsFacts MapFacts ExtractorFacts TrajectoryFacts.

Lemma parse_trajectory_steps td :
  pred_steps td <> [] ->
  parse_trajectory td =
    (List.map step_of_data (pred_steps td) ++ [final_of td],
     (seq 0 (List.length (pred_steps td)), List.length (pred_steps td))).
Proof.
  intros Hne. unfold parse_trajectory. rewrite length_map.
  destruct (pred_steps td) as [|sd sds]; [done|]. done.
Qed.

Section WithOs.
Variable os : OsPath.
Variable repo_dir : string.

Local Abbreviation F := (fun step => _filter_step_to_repo os step repo_dir).

Lemma filter_in_place_middle (pre : list Step) x post :
  filter_in_place os repo_dir (pre ++ x :: post) (List.length pre)
  = pre ++ F x :: post.
Proof.
  unfold filter_in_place.
  pose proof (list_lookup_middle pre post x (List.length pre) eq_refl) as Hx.
  unfold Store, Ref in *. rewrite Hx.
  rewrite (insert_app_r_alt pre (x :: post) (List.length pre) (F x)) by lia.
  by rewrite Nat.sub_diag.
Qed.

(** Filtering the objects behind a run of consecutive references filters
    each object once and leaves the others alone. *)
Lemma filter_run (l : list Step) : forall pre post,
  fold_left (filter_in_place os repo_dir)
    (seq (List.length pre) (List.length l)) (pre ++ l ++ post)
  = pre ++ List.map F l ++ post.
Proof.
  induction l as [|x l IH]; intros pre post; [done|].
  cbn [List.length seq fold_left List.map app].
  rewrite filter_in_place_middle.
  replace (pre ++ F x :: l ++ post) with ((pre ++ [F x]) ++ l ++ post)
    by (by rewrite <- app_assoc).
  replace (S (List.length pre)) with (List.length (pre ++ [F x]))
    by (rewrite length_app; simpl; lia).
  rewrite IH. by rewrite <- app_assoc.
Qed.

Lemma filter_run_all (l post : list Step) :
  fold_left (filter_in_place os repo_dir) (seq 0 (List.length l)) (l ++ post)
  = List.map F l ++ post.
Proof. apply (filter_run l [] post). Qed.

Lemma deref_run_from (l : list Step) : forall pre post,
  List.map (deref (pre ++ l ++ post)) (seq (List.length pre) (List.length l)) = l.
Proof.
  induction l as [|x l IH]; intros pre post; [done|].
  cbn [List.length seq List.map app]. f_equal.
  - unfold deref.
    pose proof (list_lookup_middle pre (l ++ post) x (List.length pre) eq_refl)
      as Hx.
    unfold Store, Ref in *. by rewrite Hx.
  - replace (pre ++ x :: l ++ post) with ((pre ++ [x]) ++ l ++ post)
      by (by rewrite <- app_assoc).
    replace (S (List.length pre)) with (List.length (pre ++ [x]))
      by (rewrite length_app; simpl; lia).
    apply IH.
Qed.

Lemma deref_run (l post : list Step) :
  List.map (deref (l ++ post)) (seq 0 (List.length l)) = l.
Proof. apply (deref_run_from l [] post). Qed.

End WithOs.

(** X19: for a prediction with at least one exploration step
    [parse_trajectory] creates one object per step and a separate object
    for the final context, so [evaluate_instance] filters each of them
    exactly once.  With the parsers available it never raises: it returns
    the [no_context_extracted] row exactly when the filtered final context
    has neither files nor spans, and otherwise a row whose [num_steps] is
    the number of steps, whose trajectory metrics are those of the filtered
    steps, whose final metrics are those of the filtered final context and
    whose EditLoc block is the one of the patch. *)
Theorem evaluate_instance_with_steps os ts core dp (instance_id : string)
    (gold : Gold) (pred_data : PredData) (repo_dir : string) :
  parsers_ready ts ->
  pred_steps (traj_data pred_data) <> [] ->
  let td := traj_data pred_data in
  let final_seen := _filter_step_to_repo os (final_of td) repo_dir in
  let steps_seen :=
    List.map (fun sd => _filter_step_to_repo os (step_of_data sd) repo_dir)
      (pred_steps td) in
  let gold_spans := gold_byte_spans gold repo_dir in
  let final_spans := _step_to_byte_spans os core final_seen repo_dir in
  exists row,
    evaluate_instance os ts core dp instance_id gold pred_data repo_dir = Ok row
    /\ Evaluate.instance_id row = instance_id
    /\ (error row = None <-> has_context final_seen)
    /\ (~ has_context final_seen ->
          row = error_row instance_id "no_context_extracted")
    /\ (has_context final_seen ->
          num_steps row = Z.of_nat (List.length (pred_steps td))
          /\ editloc row = editloc_block dp gold pred_data
          /\ exists gold_symbols final_symbols m,
               extract_def_set_in_spans os ts gold_spans repo_dir = Ok gold_symbols
               /\ final_symbols_of os ts final_seen repo_dir final_spans
                    = Ok final_symbols
               /\ compute_trajectory_metrics os ts core steps_seen
                    (list_to_set (gold_files gold)) gold_symbols gold_spans
                    repo_dir (Some (gold_line_spans_init gold)) = Ok m
               /\ trajectory row = Some m
               /\ final row =
                    Some (compute_granularity_metrics core
                            (list_to_set (files final_seen)) final_symbols
                            final_spans (list_to_set (gold_files gold))
                            gold_symbols gold_spans
                            (Some (_step_lines dp final_seen))
                            (Some (gold_line_spans_init gold)))).
Proof.
  intros Hready Hne. cbv zeta.
  unfold evaluate_instance. rewrite (parse_trajectory_steps _ Hne).
  set (objs := List.map step_of_data (pred_steps (traj_data pred_data))).
  assert (List.length (pred_steps (traj_data pred_data)) = List.length objs)
    as Hlen by (unfold objs; by rewrite length_map).
  rewrite Hlen.
  rewrite (filter_run_all os repo_dir objs [final_of (traj_data pred_data)]).
  rewrite <- (length_map (fun step => _filter_step_to_repo os step repo_dir) objs).
  rewrite filter_in_place_middle.
  set (steps' := List.map (fun step => _filter_step_to_repo os step repo_dir) objs).
  set (fin := _filter_step_to_repo os (final_of (traj_data pred_data)) repo_dir).
  assert (deref (steps' ++ [fin]) (List.length steps') = fin) as Hfin.
  { unfold deref.
    pose proof (list_lookup_middle steps' [] fin (List.length steps') eq_refl)
      as Hx.
    unfold Store, Ref in *. by rewrite Hx. }
  rewrite Hfin, deref_run.
  assert (steps' =
          List.map (fun sd => _filter_step_to_repo os (step_of_data sd) repo_dir)
            (pred_steps (traj_data pred_data))) as Hsteps.
  { unfold steps', objs. by rewrite List.map_map. }
  rewrite <- Hsteps.
  destruct (files fin) as [|f fs] eqn:Hfiles; [destruct (spans fin) as [|s ss] eqn:Hspans|].
  - eexists. split; [reflexivity|]. split; [done|].
    assert (~ has_context fin) as Hno.
    { unfold has_context. rewrite Hfiles, Hspans. by intros [?|?]. }
    split; [by split|]. split; [done|]. by intros ?.
  - destruct (extract_def_set_in_spans_ok os ts Hready
                (gold_byte_spans gold repo_dir) repo_dir) as [gsyms Hgs].
    rewrite Hgs. cbn [mbind Exc_bind bindE].
    assert (exists fsyms,
      final_symbols_of os ts fin repo_dir (_step_to_byte_spans os core fin repo_dir)
        = Ok fsyms) as [fsyms Hfs].
    { unfold final_symbols_of. destruct (symbols fin).
      - apply (extract_def_set_in_spans_ok os ts Hready).
      - apply (extract_def_set_from_symbol_names_ok os ts Hready). }
    rewrite Hfs. cbn [mbind Exc_bind bindE].
    rewrite (compute_trajectory_metrics_spec os ts core steps'
               (list_to_set (gold_files gold)) gsyms (gold_byte_spans gold repo_dir)
               repo_dir (Some (gold_line_spans_init gold)) Hready).
    cbn [mbind Exc_bind bindE].
    eexists. split; [reflexivity|]. split; [done|].
    assert (has_context fin) as Hctx.
    { unfold has_context. rewrite Hspans. by right. }
    split; [by split|]. split; [by intros ?|]. intros _.
    cbn [num_steps editloc trajectory final].
    split; [by rewrite length_seq|]. split; [done|].
    exists gsyms, fsyms. eexists. split; [done|]. split; [done|].
    split; [by apply compute_trajectory_metrics_spec|]. by split.
  - destruct (extract_def_set_in_spans_ok os ts Hready
                (gold_byte_spans gold repo_dir) repo_dir) as [gsyms Hgs].
    rewrite Hgs. cbn [mbind Exc_bind bindE].
    assert (exists fsyms,
      final_symbols_of os ts fin repo_dir (_step_to_byte_spans os core fin repo_dir)
        = Ok fsyms) as [fsyms Hfs].
    { unfold final_symbols_of. destruct (symbols fin).
      - apply (extract_def_set_in_spans_ok os ts Hready).
      - apply (extract_def_set_from_symbol_names_ok os ts Hready). }
    rewrite Hfs. cbn [mbind Exc_bind bindE].
    rewrite (compute_trajectory_metrics_spec os ts core steps'
               (list_to_set (gold_files gold)) gsyms (gold_byte_spans gold repo_dir)
               repo_dir (Some (gold_line_spans_init gold)) Hready).
    cbn [mbind Exc_bind bindE].
    eexists. split; [reflexivity|]. split; [done|].
    assert (has_context fin) as Hctx.
    { unfold has_context. rewrite Hfiles. by left. }
    split; [by split|]. split; [by intros ?|]. intros _.
    cbn [num_steps editloc trajectory final].
    split; [by rewrite length_seq|]. split; [done|].
    exists gsyms, fsyms. eexists. split; [done|]. split; [done|].
    split; [by apply compute_trajectory_metrics_spec|]. by split.
Qed.

Lemma evaluate_instance_with_steps_witness :
  exists row,
    evaluate_instance Scenarios.one_file_os Scenarios.bare_ts
      World.ten_byte_lines (World.diff_table []) "i-1" Scenarios.gold_a
      (mkPredData
         (mkTrajData [mkStepData ["a.py"] [] []; mkStepData ["b.py"] [] []]
            ["/testbed/a.py"] [] []) EmptyString) "/repo" = Ok row
    /\ num_steps row = 2.
Proof.
  assert (pred_steps (traj_data
            (mkPredData
               (mkTrajData [mkStepData ["a.py"] [] []; mkStepData ["b.py"] [] []]
                  ["/testbed/a.py"] [] []) EmptyString)) <> []) as Hne by done.
  destruct (evaluate_instance_with_steps Scenarios.one_file_os Scenarios.bare_ts
              World.ten_byte_lines (World.diff_table []) "i-1" Scenarios.gold_a
              (mkPredData
                 (mkTrajData [mkStepData ["a.py"] [] []; mkStepData ["b.py"] [] []]
                    ["/testbed/a.py"] [] []) EmptyString) "/repo"
              TrajectoryBounds.bare_parsers_ready Hne)
    as (row & Hrow & _ & _ & _ & Hscore).
  exists row. split; [exact Hrow|].
  apply Hscore. left. by vm_compute.
Defined.

End EvaluateFacts.

(** ** The objects [parse_trajectory] creates *)

Module ParseFacts.
Import PyStr Traj Parse Vocabulary.

Lemma elem_of_spans_of_dict (d : list (string * list RawSpan)) span :
  span ∈ spans_of_dict d <->
  exists file_path file_spans raw,
    (file_path, file_spans) ∈ d /\ raw ∈ file_spans
    /\ span = mkSpan file_path (raw_start raw) (raw_end raw).
Proof.
  unfold spans_of_dict. rewrite list_elem_of_In, List.in_flat_map. split.
  - intros ([f raws] & Hin & Hs). apply List.in_map_iff in Hs as (raw & <- & Hraw).
    exists f, raws, raw. by rewrite !list_elem_of_In.
  - intros (f & raws & raw & Hin & Hraw & ->). exists (f, raws).
    split; [by apply list_elem_of_In|]. apply List.in_map_iff.
    exists raw. split; [done | by apply list_elem_of_In].
Qed.

Lemma spans_of_dict_files (d : list (string * list RawSpan)) :
  span_file <$> spans_of_dict d
  = flat_map (fun kv => replicate (List.length kv.2) kv.1) d.
Proof.
  unfold spans_of_dict. induction d as [|[f raws] d IH]; [done|].
  cbn [flat_map]. rewrite fmap_app, IH. f_equal. cbn [fst snd].
  clear. induction raws as [|r raws IH]; [done|]. simpl. by rewrite <- IH.
Qed.

Lemma spans_of_dict_lines (d : list (string * list RawSpan)) :
  (fun s => (start_line s, end_line s)) <$> spans_of_dict d
  = flat_map (fun kv => (fun raw => (raw_start raw, raw_end raw)) <$> kv.2) d.
Proof.
  unfold spans_of_dict. induction d as [|[f raws] d IH]; [done|].
  cbn [flat_map]. rewrite fmap_app, IH. f_equal. cbn [snd].
  clear. induction raws as [|r raws IH]; [done|].
  simpl. f_equal. exact IH.
Qed.

(** X20: [parse_trajectory] creates one [Step] per element of
    [pred_steps], in order, with its files and symbols unchanged, and one
    more for the final context; every span dict is flattened file by file,
    keeping the order and the [start] and [end] of its entries.  The
    returned trajectory has [max(1, len(pred_steps))] steps; when
    [pred_steps] is not empty its steps are distinct objects, none of them
    the final step, and otherwise its only step is the final step
    itself. *)
Theorem parse_trajectory_objects (td : TrajData) :
  let '(store, (traj_steps, final_step)) := parse_trajectory td in
  deref store final_step = final_of td
  /\ files (final_of td) = pred_files td
  /\ symbols (final_of td) = pred_symbols td
  /\ (fun s => (start_line s, end_line s)) <$> spans (final_of td)
       = flat_map (fun kv => (fun raw => (raw_start raw, raw_end raw)) <$> kv.2)
           (pred_spans td)
  /\ span_file <$> spans (final_of td)
       = flat_map (fun kv => replicate (List.length kv.2) kv.1) (pred_spans td)
  /\ List.length traj_steps = Nat.max 1 (List.length (pred_steps td))
  /\ NoDup traj_steps
  /\ (pred_steps td <> [] ->
        final_step ∉ traj_steps
        /\ List.map (deref store) traj_steps
             = List.map step_of_data (pred_steps td))
  /\ (pred_steps td = [] -> traj_steps = [final_step]).
Proof.
  unfold parse_trajectory. rewrite length_map.
  set (objs := List.map step_of_data (pred_steps td)).
  set (n := List.length (pred_steps td)).
  assert (List.length objs = n) as Hlen by (unfold objs; apply length_map).
  assert (deref (objs ++ [final_of td]) n = final_of td) as Hfin.
  { unfold deref.
    pose proof (list_lookup_middle objs [] (final_of td) n (eq_sym Hlen)) as Hx.
    unfold Store, Ref in *. by rewrite Hx. }
  fold (final_of td).
  split; [exact Hfin|]. split; [done|]. split; [done|].
  split; [apply spans_of_dict_lines|]. split; [apply spans_of_dict_files|].
  destruct (pred_steps td) as [|sd sds] eqn:Hsteps.
  - simpl in n. subst n. cbn [seq].
    split; [done|]. split; [apply NoDup_singleton|]. split; [done|]. done.
  - assert (seq 0 n = 0%nat :: seq 1 (List.length sds)) as Hseq by done.
    rewrite Hseq, <- Hseq.
    split; [rewrite length_seq; unfold n; simpl; lia|].
    split; [apply NoDup_ListNoDup, List.seq_NoDup|].
    split; [|done]. intros _. split.
    + intros Hin%list_elem_of_In%List.in_seq. lia.
    + rewrite <- Hlen. apply (EvaluateFacts.deref_run objs [final_of td]).
Qed.

Lemma parse_trajectory_objects_witness :
  let td := mkTrajData [mkStepData ["a.py"] [] []; mkStepData ["b.py"] [] []]
              ["a.py"] [("a.py", [mkRawSpan 3 9])] [] in
  (parse_trajectory td).2.2 ∉ (parse_trajectory td).2.1.
Proof.
  cbv zeta.
  pose proof (parse_trajectory_objects
    (mkTrajData [mkStepData ["a.py"] [] []; mkStepData ["b.py"] [] []]
       ["a.py"] [("a.py", [mkRawSpan 3 9])] [])) as H.
  destruct (parse_trajectory _) as [store [traj_steps final_step]].
  destruct H as (_ & _ & _ & _ & _ & _ & _ & Hne & _).
  cbn [snd fst]. by apply Hne.
Defined.

End ParseFacts.

(** ** Paths the resolver leaves alone *)

Module ResolverFacts.
Import PyStr Traj Resolver Vocabulary.
Import SeenFacts ResolverClaims.

Lemma split_nonempty sep s : split sep s <> [].
Proof.
  destruct s as [|c s]; simpl; [done|].
  destruct (Ascii.eqb c sep); [done|]. by destruct (split sep s).
Qed.

(** Joining what [split] returns gives the string back. *)
Lemma join_split s : join "/" (split slash s) = s.
Proof.
  induction s as [|c s IH]; [done|]. cbn [split].
  destruct (Ascii.eqb c slash) eqn:Hc.
  - apply Ascii.eqb_eq in Hc as ->.
    pose proof (split_nonempty slash s) as Hne.
    destruct (split slash s) as [|w ws] eqn:Hs; [done|].
    by rewrite <- IH.
  - destruct (split slash s) as [|w ws] eqn:Hs.
    + by destruct (split_nonempty slash s).
    + destruct ws as [|w' ws]; cbn [join] in *; by rewrite <- IH.
Qed.

Lemma replace_char_absent a b s :
  has_char a s = false -> replace_char a b s = s.
Proof.
  induction s as [|c s IH]; [done|]. simpl.
  intros [Hc Hs]%orb_false_iff. rewrite Ascii.eqb_sym, Hc. by rewrite IH.
Qed.

Lemma strip_dot_slash_id p : startswith p "./" = false -> strip_dot_slash p = p.
Proof.
  destruct p as [|c1 [|c2 p]]; [done|done|].
  unfold startswith. cbn [String.prefix strip_dot_slash].
  unfold dot, slash.
  destruct (Ascii.ascii_dec "."%char c1) as [<-|Hn1].
  - destruct (Ascii.ascii_dec "/"%char c2) as [<-|Hn2].
    + by destruct p.
    + intros _. rewrite Ascii.eqb_refl. cbn [andb].
      destruct (Ascii.eqb c2 "/") eqn:H2; [|done].
      apply Ascii.eqb_eq in H2. by subst.
  - intros _. destruct (Ascii.eqb c1 ".") eqn:H1; [|done].
    apply Ascii.eqb_eq in H1. by subst.
Qed.

Lemma filter_nonempty_id (l : list string) :
  Forall (fun x => x <> EmptyString) l ->
  List.filter (fun x => negb (is_empty x)) l = l.
Proof.
  induction 1 as [|x l Hx _ IH]; [done|]. simpl.
  apply is_empty_false in Hx. rewrite Hx. simpl. by rewrite IH.
Qed.

(** X21: a path that needs no normalising (no surrounding whitespace or
    quotes, no backslash, no leading [./] or [/], no empty segment) and is a
    file of the repository resolves to itself, so resolving an already
    resolved, clean path changes nothing. *)
Theorem resolve_repo_relpath_fixed_point os (repo_dir p : string) :
  repo_dir <> EmptyString ->
  strip p = p -> strip_by is_quote p = p ->
  has_char backslash p = false ->
  startswith p "./" = false -> startswith p "/" = false ->
  Forall (fun x => x <> EmptyString) (split slash p) ->
  _is_repo_file os repo_dir p = true ->
  _resolve_repo_relpath os repo_dir p = p
  /\ _resolve_repo_relpath os repo_dir (_resolve_repo_relpath os repo_dir p)
       = _resolve_repo_relpath os repo_dir p.
Proof.
  intros Hrepo Hstrip Hquote Hback Hdot Hslash Hseg Hfile.
  assert (_resolve_repo_relpath os repo_dir p = p) as Hres; [|by rewrite !Hres].
  pose proof (is_repo_file_nonempty os repo_dir p Hfile) as Hp.
  unfold _resolve_repo_relpath.
  apply is_empty_false in Hrepo, Hp. rewrite Hrepo, Hp. cbn [orb].
  unfold path_parts.
  rewrite Hstrip, Hquote, (replace_char_absent _ _ _ Hback), Hp.
  rewrite (strip_dot_slash_id _ Hdot), Hslash, Hp.
  rewrite (filter_nonempty_id _ Hseg).
  pose proof (split_nonempty slash p) as Hne.
  pose proof (join_split p) as Hjoin.
  destruct (split slash p) as [|x rest]; [done|].
  cbn [try_suffixes]. by rewrite Hjoin, Hfile.
Qed.

Lemma resolve_repo_relpath_fixed_point_witness :
  _resolve_repo_relpath Scenarios.plain_os "/repo" "src/a.py" = "src/a.py".
Proof.
  assert ("/repo" <> EmptyString) as Hrepo by done.
  assert (Forall (fun x => x <> EmptyString) (split slash "src/a.py")) as Hseg.
  { change (split slash "src/a.py") with ["src"; "a.py"]. by repeat constructor. }
  exact (proj1 (resolve_repo_relpath_fixed_point Scenarios.plain_os "/repo"
                  "src/a.py" Hrepo eq_refl eq_refl eq_refl eq_refl eq_refl
                  Hseg eq_refl)).
Defined.

End ResolverFacts.

(** ** The macro averages of [aggregate_results] *)

Module AggregateMeans.
Import PyStr Traj Parse LineIntervals TreeSitter Metrics Compute Evaluate.
Import Vocabulary MetricsFacts RatioFacts TrajectoryBounds.

Local Abbreviation no_error := (fun r : Result => negb (is_some (error r))).

Lemma macro_between (key : TrajMetrics -> Granular Q) (g : Granular Q -> Q)
    (valid : list Result) (a b : Q) :
  valid <> [] ->
  Forall (fun r => (a <= traj_field key g r <= b)%Q) valid ->
  (a <= sumQ (List.map (traj_field key g) valid)
        / inject_Z (Z.of_nat (List.length valid)) <= b)%Q.
Proof.
  intros Hne Hall.
  rewrite <- (length_map (traj_field key g) valid).
  apply mean_between.
  - by destruct valid.
  - apply Forall_forall. intros x Hx.
    apply list_elem_of_In, List.in_map_iff in Hx as (r & <- & Hr).
    rewrite Forall_forall in Hall. by apply Hall, list_elem_of_In.
Qed.

Lemma macro_single (key : TrajMetrics -> Granular Q) (g : Granular Q -> Q) r :
  (sumQ (List.map (traj_field key g) [r]) / inject_Z (Z.of_nat 1)
   == traj_field key g r)%Q.
Proof.
  unfold sumQ, Qdiv. simpl. change (/ inject_Z 1)%Q with 1%Q.
  by rewrite Qmult_1_r, Qplus_0_r.
Qed.

(** X22: when [aggregate_results] reports trajectory averages, each is the
    mean over all valid rows, a row without trajectory metrics counting as
    [0.0]; so when the value of every valid row lies between [0.0] and
    [1.0] the average does too, and over a single valid row it is that
    row's own value. *)
Theorem aggregate_traj_means (results : list Result) (g : granularity) :
  let agg := aggregate_results results in
  let valid := List.filter no_error results in
  forall auc red,
    agg_traj_auc agg = Some auc -> agg_traj_redundancy agg = Some red ->
    (at_gran g auc ==
       sumQ (List.map (traj_field auc_coverage (at_gran g)) valid)
       / inject_Z (num_valid agg))%Q
    /\ (at_gran g red ==
          sumQ (List.map (traj_field redundancy (at_gran g)) valid)
          / inject_Z (num_valid agg))%Q
    /\ (Forall (fun r => (0 <= traj_field auc_coverage (at_gran g) r <= 1)%Q)
          valid ->
        (0 <= at_gran g auc <= 1)%Q)
    /\ (Forall (fun r => (0 <= traj_field redundancy (at_gran g) r <= 1)%Q)
          valid ->
        (0 <= at_gran g red <= 1)%Q)
    /\ (forall r, valid = [r] ->
          (at_gran g auc == traj_field auc_coverage (at_gran g) r)%Q
          /\ (at_gran g red == traj_field redundancy (at_gran g) r)%Q).
Proof.
  cbv zeta. intros auc red. unfold aggregate_results.
  destruct (List.filter no_error results) as [|r0 valid'] eqn:Hv; [done|].
  cbn [agg_traj_auc agg_traj_redundancy num_valid].
  destruct (existsb (fun r => is_some (trajectory r)) (r0 :: valid')); [|done].
  intros [= <-] [= <-].
  assert (r0 :: valid' <> []) as Hne by done.
  split; [destruct g; reflexivity|]. split; [destruct g; reflexivity|].
  split; [|split].
  - intros Hall.
    pose proof (macro_between auc_coverage (at_gran g) _ 0%Q 1%Q Hne Hall) as H.
    by destruct g.
  - intros Hall.
    pose proof (macro_between redundancy (at_gran g) _ 0%Q 1%Q Hne Hall) as H.
    by destruct g.
  - intros r [= -> ->].
    pose proof (macro_single auc_coverage (at_gran g) r) as H1.
    pose proof (macro_single redundancy (at_gran g) r) as H2.
    by destruct g.
Qed.

Lemma aggregate_traj_means_witness :
  exists auc,
    agg_traj_auc (aggregate_results
      [mkResult "i-1" None 1 None
         (Some (mkTrajMetrics [] (mkGranular 1%Q 1%Q 1%Q 1%Q) zero4)) None;
       mkResult "i-2" None 1 None None None]) = Some auc
    /\ (0 <= g_file auc <= 1)%Q.
Proof.
  eexists. split; [reflexivity|].
  destruct (aggregate_traj_means
    [mkResult "i-1" None 1 None
       (Some (mkTrajMetrics [] (mkGranular 1%Q 1%Q 1%Q 1%Q) zero4)) None;
     mkResult "i-2" None 1 None None None] GFile _ _ eq_refl eq_refl)
    as (_ & _ & Hb & _).
  apply Hb. repeat constructor; by vm_compute.
Defined.

End AggregateMeans.

(** ** Grouping the spans of a step by file *)

Module ByteSpanFacts.
Import PyStr Traj LineIntervals TreeSitter Metrics Compute Vocabulary.
Import MapFacts SeenFacts.

(** A loop of [result.setdefault(k, []).append(v)] groups the values by
    key, in the order of the loop. *)
Lemma setdefault_loop {X V} (key_val : X -> option (string * V)) (xs : list X) :
  forall (init : gmap string (list V)) (f : string),
  fold_left (fun result x =>
      match key_val x with
      | Some (k, v) => setdefault_append result k v
      | None => result
      end) xs init !! f
  = match omap (fun x =>
            match key_val x with
            | Some (k, v) => if decide (k = f) then Some v else None
            | None => None
            end) xs with
    | [] => init !! f
    | added => Some (get_list init f ++ added)
    end.
Proof.
  induction xs as [|x xs IH]; intros init f; [done|].
  cbn [fold_left omap list_omap]. rewrite IH. clear IH.
  destruct (key_val x) as [[k v]|]; [|done].
  unfold setdefault_append.
  destruct (decide (k = f)) as [->|Hne].
  - assert (get_list (<[f:=get_list init f ++ [v]]> init) f
            = get_list init f ++ [v]) as Hg.
    { unfold get_list at 1. by rewrite lookup_insert_eq. }
    rewrite Hg, lookup_insert_eq.
    destruct (omap _ xs) as [|y ys]; [done|].
    by rewrite <- app_assoc.
  - assert (get_list (<[k:=get_list init k ++ [v]]> init) f = get_list init f)
      as Hg.
    { unfold get_list at 1 3. by rewrite lookup_insert_ne. }
    by rewrite Hg, lookup_insert_ne.
Qed.

(** X23: [_step_to_byte_spans] (and its copy [_step_spans] of the
    evaluator) gives a file the merge of the byte spans of its own spans,
    taken in the order of the step, leaving out the spans for which
    [line_to_byte] returns nothing; a file all of whose spans are left out,
    and the empty file name, get no entry. *)
Theorem step_to_byte_spans_groups os core (step : Step) (repo_dir f : string) :
  _step_to_byte_spans os core step repo_dir !! f =
    match omap (fun span =>
            if decide (span_file span = f /\ f <> EmptyString)
            then line_to_byte core (path_join os repo_dir f)
                   (start_line span) (end_line span)
            else None) (spans step) with
    | [] => None
    | raw => Some (core_merge core raw)
    end.
Proof.
  unfold _step_to_byte_spans. rewrite lookup_fmap.
  set (key_val := fun span : Span =>
    if is_empty (span_file span) then None
    else match line_to_byte core (path_join os repo_dir (span_file span))
                 (start_line span) (end_line span) with
         | Some b => Some (span_file span, b)
         | None => None
         end).
  assert (forall xs (init : gmap string (list ByteInterval)),
    fold_left (fun result span =>
      let f0 := span_file span in
      if is_empty f0 then result else
      let abs_path := path_join os repo_dir f0 in
      match line_to_byte core abs_path (start_line span) (end_line span) with
      | Some byte_span => setdefault_append result f0 byte_span
      | None => result
      end) xs init
    = fold_left (fun result x =>
        match key_val x with
        | Some (k, v) => setdefault_append result k v
        | None => result
        end) xs init) as Hfold.
  { induction xs as [|x xs IH]; intros init; [done|].
    cbn [fold_left]. rewrite IH. f_equal. unfold key_val. cbv zeta.
    destruct (is_empty (span_file x)); [done|].
    by destruct (line_to_byte core _ _ _). }
  rewrite Hfold, setdefault_loop. rewrite lookup_empty, get_list_empty.
  assert (omap (fun x =>
            match key_val x with
            | Some (k, v) => if decide (k = f) then Some v else None
            | None => None
            end) (spans step)
          = omap (fun span =>
              if decide (span_file span = f /\ f <> EmptyString)
              then line_to_byte core (path_join os repo_dir f)
                     (start_line span) (end_line span)
              else None) (spans step)) as ->.
  { induction (spans step) as [|x xs IH]; [done|].
    cbn [omap list_omap]. rewrite IH. clear IH.
    assert (match key_val x with
            | Some (k, v) => if decide (k = f) then Some v else None
            | None => None
            end
            = if decide (span_file x = f /\ f <> EmptyString)
              then line_to_byte core (path_join os repo_dir f)
                     (start_line x) (end_line x)
              else None) as ->; [|done].
    unfold key_val. destruct (is_empty (span_file x)) eqn:He.
    - apply is_empty_true in He.
      destruct (decide _) as [[Hf Hne]|]; [congruence | done].
    - apply is_empty_false in He.
      destruct (decide (span_file x = f)) as [Hf|Hf].
      + rewrite decide_True by (split; congruence). rewrite Hf.
        destruct (line_to_byte core _ _ _); [|done].
        by rewrite decide_True.
      + rewrite decide_False by tauto.
        destruct (line_to_byte core _ _ _); [|done].
        by rewrite decide_False. }
  by destruct (omap _ (spans step)).
Qed.

End ByteSpanFacts.

(** ** Repository slugs *)

Module SlugFacts.
Import PyStr Slug Vocabulary.
Import SeenFacts ResolverClaims ResolverFacts.

Lemma append_cons c s t : String c s +:+ t = String c (s +:+ t).
Proof. done. Qed.

Lemma append_nil_l t : EmptyString +:+ t = t.
Proof. done. Qed.

Lemma append_nil_r s : s +:+ EmptyString = s.
Proof. induction s as [|c s IH]; [done|]. by rewrite append_cons, IH. Qed.

Lemma append_assoc s t u : (s +:+ t) +:+ u = s +:+ (t +:+ u).
Proof. induction s as [|c s IH]; [done|]. by rewrite !append_cons, IH. Qed.

Lemma length_append s t :
  String.length (s +:+ t) = (String.length s + String.length t)%nat.
Proof.
  induction s as [|c s IH]; [done|]. rewrite append_cons. simpl. by rewrite IH.
Qed.

Lemma drop_chars_append s t : drop_chars (String.length s) (s +:+ t) = t.
Proof. induction s as [|c s IH]; [by destruct t|]. exact IH. Qed.

Lemma take_chars_append s t : take_chars (String.length s) (s +:+ t) = s.
Proof.
  induction s as [|c s IH]; [by destruct t|]. rewrite append_cons. simpl.
  by rewrite IH.
Qed.

Lemma endswith_append s suffix : endswith (s +:+ suffix) suffix = true.
Proof.
  unfold endswith. rewrite length_append.
  replace (String.length s + String.length suffix - String.length suffix)%nat
    with (String.length s) by lia.
  rewrite drop_chars_append, String.eqb_refl, andb_true_r.
  apply Nat.leb_le. lia.
Qed.

(** *** Stripping on the right and on the left *)

Lemma rstrip_by_cons_keep p c s :
  p c = false -> rstrip_by p (String c s) = String c (rstrip_by p s).
Proof. intros Hc. simpl. destruct (rstrip_by p s); [by rewrite Hc | done]. Qed.

Lemma rstrip_by_app_keep p s t :
  rstrip_by p t <> EmptyString -> rstrip_by p (s +:+ t) = s +:+ rstrip_by p t.
Proof.
  intros Ht. induction s as [|c s IH]; [done|].
  rewrite !append_cons. cbn [rstrip_by]. rewrite IH.
  destruct (s +:+ rstrip_by p t) eqn:Hs; [|done].
  destruct s; [rewrite append_nil_l in Hs; congruence | done].
Qed.

Lemma rstrip_by_app_drop p s t :
  rstrip_by p t = EmptyString -> rstrip_by p (s +:+ t) = rstrip_by p s.
Proof.
  intros Ht. induction s as [|c s IH]; [done|].
  rewrite append_cons. cbn [rstrip_by]. by rewrite IH.
Qed.

Lemma rstrip_by_id_app p s t :
  rstrip_by p s = s -> rstrip_by p t = t -> rstrip_by p (s +:+ t) = s +:+ t.
Proof.
  intros Hs Ht. destruct t as [|c t].
  - by rewrite append_nil_r.
  - rewrite rstrip_by_app_keep; rewrite Ht; done.
Qed.

Lemma rstrip_by_absent s :
  has_char slash s = false -> rstrip_by (Ascii.eqb slash) s = s.
Proof.
  induction s as [|c s IH]; [done|]. cbn [has_char].
  intros [Hc Hs]%orb_false_iff.
  rewrite rstrip_by_cons_keep by done. by rewrite IH.
Qed.

(** A string that [rstrip("/")] empties holds slashes only. *)
Lemma only_slashes tail :
  rstrip_by (Ascii.eqb slash) tail = EmptyString ->
  rstrip_by is_space tail = tail /\ has_char ":" tail = false.
Proof.
  induction tail as [|c tail IH]; [done|]. cbn [rstrip_by].
  destruct (rstrip_by (Ascii.eqb slash) tail) eqn:Ht; [|done].
  destruct (Ascii.eqb slash c) eqn:Hc; [|done]. intros _.
  apply Ascii.eqb_eq in Hc as <-. destruct (IH eq_refl) as [H1 H2].
  split.
  - rewrite H1. by destruct tail.
  - cbn [has_char]. by rewrite H2.
Qed.

Lemma lstrip_by_length p s :
  (String.length (lstrip_by p s) <= String.length s)%nat.
Proof.
  induction s as [|c s IH]; simpl; [lia|]. destruct (p c); simpl; lia.
Qed.

Lemma lstrip_by_id_app p s t :
  s <> EmptyString -> lstrip_by p s = s -> lstrip_by p (s +:+ t) = s +:+ t.
Proof.
  destruct s as [|c s]; [done|]. intros _. rewrite append_cons.
  cbn [lstrip_by].
  destruct (p c); [|done]. intros H.
  pose proof (lstrip_by_length p s) as Hl. rewrite H in Hl. simpl in Hl. lia.
Qed.

(** *** Characters of a string *)

Lemma has_char_append c s t :
  has_char c (s +:+ t) = has_char c s || has_char c t.
Proof.
  induction s as [|d s IH]; [done|]. rewrite append_cons. cbn [has_char].
  by rewrite IH, orb_assoc.
Qed.

Lemma prefix_has_char ch p : forall s,
  String.prefix p s = true -> has_char ch p = true -> has_char ch s = true.
Proof.
  induction p as [|c p IH]; intros s Hp Hc; [done|].
  destruct s as [|d s]; [done|]. simpl in Hp.
  destruct (Ascii.ascii_dec c d) as [<-|]; [|done].
  cbn [has_char] in *. apply orb_true_iff in Hc as [Hc|Hc].
  - by rewrite Hc.
  - rewrite (IH s Hp Hc). apply orb_true_r.
Qed.

Lemma drop_scheme_no_colon s : has_char ":" s = false -> drop_scheme s = s.
Proof.
  intros Hs. unfold drop_scheme, startswith.
  destruct (String.prefix "https://" s) eqn:H1.
  { by rewrite (prefix_has_char ":" _ _ H1 eq_refl) in Hs. }
  destruct (String.prefix "http://" s) eqn:H2; [|done].
  by rewrite (prefix_has_char ":" _ _ H2 eq_refl) in Hs.
Qed.

Lemma drop_scheme_http rest : drop_scheme ("http://" +:+ rest) = rest.
Proof.
  unfold drop_scheme, startswith. rewrite !append_cons, append_nil_l. cbn.
  by destruct rest.
Qed.

Lemma drop_scheme_https rest : drop_scheme ("https://" +:+ rest) = rest.
Proof.
  unfold drop_scheme, startswith. rewrite !append_cons, append_nil_l. cbn.
  by destruct rest.
Qed.

(** *** Splitting and joining *)

Lemma split_absent s : has_char slash s = false -> split slash s = [s].
Proof.
  induction s as [|c s IH]; [done|]. cbn [has_char split].
  intros [Hc Hs]%orb_false_iff. rewrite Ascii.eqb_sym, Hc. by rewrite IH.
Qed.

Lemma split_app_slash x t :
  has_char slash x = false ->
  split slash (x +:+ String slash t) = x :: split slash t.
Proof.
  induction x as [|c x IH].
  - intros _. rewrite append_nil_l. cbn [split]. by rewrite Ascii.eqb_refl.
  - rewrite append_cons. cbn [has_char split].
    intros [Hc Hx]%orb_false_iff. rewrite Ascii.eqb_sym, Hc. by rewrite IH.
Qed.

Lemma join_cons x y rest :
  join "/" (x :: y :: rest) = x +:+ String slash (join "/" (y :: rest)).
Proof. done. Qed.

(** Splitting what [join] returns gives the segments back. *)
Lemma split_join segs :
  segs <> [] -> Forall (fun x => has_char slash x = false) segs ->
  split slash (join "/" segs) = segs.
Proof.
  induction segs as [|x [|y rest] IH]; intros Hne Hall; [done| |].
  - apply Forall_cons in Hall as [Hx _]. by apply split_absent.
  - apply Forall_cons in Hall as [Hx Hall].
    rewrite join_cons, split_app_slash by done. f_equal. by apply IH.
Qed.

Lemma join_nonempty segs :
  segs <> [] -> Forall (fun x => x <> EmptyString) segs ->
  join "/" segs <> EmptyString.
Proof.
  destruct segs as [|x [|y rest]]; intros Hne Hall; [done| |].
  - by apply Forall_cons in Hall as [Hx _].
  - apply Forall_cons in Hall as [Hx _]. rewrite join_cons. by destruct x.
Qed.

Lemma rstrip_join segs :
  segs <> [] ->
  Forall (fun x => x <> EmptyString /\ has_char slash x = false) segs ->
  rstrip_by (Ascii.eqb slash) (join "/" segs) = join "/" segs.
Proof.
  induction segs as [|x [|y rest] IH]; intros Hne Hall; [done| |].
  - apply Forall_cons in Hall as [[_ Hx] _]. by apply rstrip_by_absent.
  - apply Forall_cons in Hall as [[_ Hx] Hall]. rewrite join_cons.
    apply rstrip_by_id_app; [by apply rstrip_by_absent|].
    assert (join "/" (y :: rest) <> EmptyString) as Hj.
    { apply join_nonempty; [done|]. eapply Forall_impl; [exact Hall|].
      by intros ? [? _]. }
    cbn [rstrip_by]. rewrite (IH ltac:(done) Hall).
    by destruct (join "/" (y :: rest)).
Qed.

(** *** Lower case *)

Lemma lower_char_slash c : Ascii.eqb slash (lower_char c) = Ascii.eqb slash c.
Proof. by destruct c as [[] [] [] [] [] [] [] []]. Qed.

Lemma lower_append s t : lower (s +:+ t) = lower s +:+ lower t.
Proof.
  induction s as [|c s IH]; [done|].
  rewrite append_cons. cbn [lower]. by rewrite append_cons, IH.
Qed.

Lemma has_char_lower s : has_char slash (lower s) = has_char slash s.
Proof.
  induction s as [|c s IH]; [done|]. cbn [lower has_char].
  by rewrite lower_char_slash, IH.
Qed.

Lemma lower_char_idemp c : lower_char (lower_char c) = lower_char c.
Proof. by destruct c as [[] [] [] [] [] [] [] []]. Qed.

Lemma lower_idemp s : lower (lower s) = lower s.
Proof.
  induction s as [|c s IH]; [done|]. cbn [lower].
  by rewrite lower_char_idemp, IH.
Qed.

Lemma split_lower_join (l : list string) :
  Forall (fun x => has_char slash x = false) l -> (List.length l <= 2)%nat ->
  (List.length (split slash (lower (join "/" l))) <= 2)%nat.
Proof.
  intros Hl Hlen. destruct l as [|x [|y [|z l]]]; simpl in Hlen; try lia.
  - simpl. lia.
  - apply Forall_cons in Hl as [Hx _].
    rewrite split_absent; [simpl; lia | by rewrite has_char_lower].
  - apply Forall_cons in Hl as [Hx Hl]. apply Forall_cons in Hl as [Hy _].
    assert (lower (join "/" [x; y]) = join "/" [lower x; lower y]) as ->.
    { cbn [join]. by rewrite !lower_append. }
    rewrite split_join; [simpl; lia|done|].
    repeat constructor; by rewrite has_char_lower.
Qed.

(** X24: [_normalize_repo_slug] maps every way of writing the same
    repository to one slug: with or without a leading [http://] or
    [https://], with or without a trailing [.git], and with any number of
    trailing slashes, a path of clean segments normalises to its last two
    segments in lower case (to its only segment when there is one). *)
Theorem normalize_repo_slug_forms (segs : list string) (scheme git tail : string) :
  segs <> [] ->
  Forall (fun x => x <> EmptyString /\ has_char slash x = false) segs ->
  lstrip_by is_space (join "/" segs) = join "/" segs ->
  rstrip_by is_space (join "/" segs) = join "/" segs ->
  has_char ":" (join "/" segs) = false ->
  endswith (join "/" segs) ".git" = false ->
  scheme ∈ [EmptyString; "http://"; "https://"] ->
  git ∈ [EmptyString; ".git"] ->
  rstrip_by (Ascii.eqb slash) tail = EmptyString ->
  _normalize_repo_slug (scheme +:+ join "/" segs +:+ git +:+ tail)
    = lower (join "/" (last_two segs)).
Proof.
  intros Hne Hsegs Hl Hr Hcolon Hgit Hscheme Hg Htail.
  set (c := join "/" segs) in *.
  assert (c <> EmptyString) as Hc.
  { apply join_nonempty; [done|]. eapply Forall_impl; [exact Hsegs|].
    by intros ? [? _]. }
  assert (Forall (fun x => has_char slash x = false) segs) as Hns.
  { eapply Forall_impl; [exact Hsegs|]. by intros ? [_ ?]. }
  destruct (only_slashes tail Htail) as [Htsp Htcolon].
  assert (rstrip_by is_space git = git /\ has_char ":" git = false
          /\ rstrip_by (Ascii.eqb slash) git = git) as (Hgsp & Hgcolon & Hgsl).
  { apply elem_of_cons in Hg as [->|Hg]; [done|].
    apply list_elem_of_singleton in Hg as ->. done. }
  set (rest := c +:+ git +:+ tail).
  assert (rstrip_by is_space rest = rest) as Hrest_r.
  { unfold rest. by repeat apply rstrip_by_id_app. }
  assert (lstrip_by is_space rest = rest) as Hrest_l.
  { unfold rest. by apply lstrip_by_id_app. }
  assert (has_char ":" rest = false) as Hrest_colon.
  { unfold rest. by rewrite !has_char_append, Hcolon, Hgcolon, Htcolon. }
  assert (drop_scheme (strip (scheme +:+ rest)) = rest) as Hdrop.
  { unfold strip, strip_by.
    apply elem_of_cons in Hscheme as [->|Hscheme];
      [|apply elem_of_cons in Hscheme as [->|Hscheme];
        [|apply list_elem_of_singleton in Hscheme as ->]].
    - rewrite append_nil_l, Hrest_r, Hrest_l.
      by apply drop_scheme_no_colon.
    - rewrite (rstrip_by_id_app is_space "http://" rest eq_refl Hrest_r).
      rewrite (lstrip_by_id_app is_space "http://" rest ltac:(done) eq_refl).
      apply drop_scheme_http.
    - rewrite (rstrip_by_id_app is_space "https://" rest eq_refl Hrest_r).
      rewrite (lstrip_by_id_app is_space "https://" rest ltac:(done) eq_refl).
      apply drop_scheme_https. }
  assert (rstrip_by (Ascii.eqb slash) rest = c +:+ git) as Hslash.
  { unfold rest. rewrite <- append_assoc, rstrip_by_app_drop by done.
    apply rstrip_by_id_app; [by apply rstrip_join | done]. }
  assert ((if endswith (c +:+ git) ".git"
           then take_chars (String.length (c +:+ git) - String.length ".git")
                  (c +:+ git)
           else c +:+ git) = c) as Hcut.
  { apply elem_of_cons in Hg as [->|Hg].
    - by rewrite append_nil_r, Hgit.
    - apply list_elem_of_singleton in Hg as ->.
      rewrite endswith_append, length_append.
      replace (String.length c + String.length ".git" - String.length ".git")%nat
        with (String.length c) by lia.
      apply take_chars_append. }
  assert (split slash c = segs) as Hsplit by (by apply split_join).
  unfold _normalize_repo_slug. fold rest. rewrite Hdrop, Hslash, Hcut, Hsplit.
  destruct (2 <=? List.length segs)%nat eqn:Hlen; [done|].
  apply Nat.leb_gt in Hlen. destruct segs as [|x [|y segs']]; [done|done|].
  simpl in Hlen. lia.
Qed.

Lemma normalize_repo_slug_forms_witness :
  _normalize_repo_slug "https://github.com/Owner/Repo.git/" = "owner/repo"
  /\ _normalize_repo_slug "github.com/Owner/Repo" = "owner/repo".
Proof.
  assert (["github.com"; "Owner"; "Repo"] <> []) as Hne by done.
  assert (Forall (fun x => x <> EmptyString /\ has_char slash x = false)
            ["github.com"; "Owner"; "Repo"]) as Hsegs.
  { repeat constructor; done. }
  assert ("https://" ∈ [EmptyString; "http://"; "https://"]) as Hs1.
  { rewrite !elem_of_cons. auto. }
  assert (EmptyString ∈ [EmptyString; "http://"; "https://"]) as Hs0 by left.
  assert (".git" ∈ [EmptyString; ".git"]) as Hg1.
  { rewrite !elem_of_cons. auto. }
  assert (EmptyString ∈ [EmptyString; ".git"]) as Hg0 by left.
  split.
  - exact (normalize_repo_slug_forms ["github.com"; "Owner"; "Repo"]
             "https://" ".git" "/" Hne Hsegs eq_refl eq_refl eq_refl eq_refl
             Hs1 Hg1 eq_refl).
  - exact (normalize_repo_slug_forms ["github.com"; "Owner"; "Repo"]
             EmptyString EmptyString EmptyString Hne Hsegs eq_refl eq_refl
             eq_refl eq_refl Hs0 Hg0 eq_refl).
Defined.

(** X25: whatever its argument, the slug [_normalize_repo_slug] returns is
    in lower case and has at most one slash: it is of the form [repo] or
    [owner/repo]. *)
Theorem normalize_repo_slug_shape (repo_url : string) :
  lower (_normalize_repo_slug repo_url) = _normalize_repo_slug repo_url
  /\ (List.length (split slash (_normalize_repo_slug repo_url)) <= 2)%nat.
Proof.
  unfold _normalize_repo_slug.
  set (s := rstrip_by (Ascii.eqb slash) (drop_scheme (strip repo_url))).
  set (s' := if endswith s ".git"
             then take_chars (String.length s - String.length ".git") s else s).
  pose proof (split_no_sep slash s') as Hns.
  pose proof (join_split s') as Hjoin.
  destruct (2 <=? List.length (split slash s'))%nat eqn:Hlen.
  - split; [apply lower_idemp|]. apply split_lower_join.
    + unfold last_two. rewrite Forall_forall in Hns |- *. intros x Hx.
      apply Hns. eapply elem_of_sublist; [exact Hx | apply sublist_drop].
    + unfold last_two. rewrite length_skipn. lia.
  - split; [apply lower_idemp|]. apply Nat.leb_gt in Hlen.
    destruct (split slash s') as [|w [|w' ws]]; simpl in Hlen; try lia.
    + simpl in Hjoin. subst s'. rewrite <- Hjoin. simpl. lia.
    + simpl in Hjoin. apply Forall_cons in Hns as [Hw _].
      rewrite <- Hjoin, split_absent; [simpl; lia | by rewrite has_char_lower].
Qed.

End SlugFacts.
